(** * go-web3: the ABI type tree, the decoder, signatures and overloads

    A shallow embedding of package [abi] of boolw/go-web3
    (decode.go, clone.go and the file that declares [ABI], [Method] and
    [Event]), with the properties of the decoder, of [Clone], of the
    selector cache and of the overload renaming stated over it. *)

From Stdlib Require Import ZArith Lia.
From Stdlib.Strings Require Import Byte.
From stdpp Require Import base option list strings pretty gmap.

Local Open Scope Z_scope.

(** ** Bytes, Go's [int] and slice expressions *)

Abbreviation bytes := (list byte).

Global Instance byte_eq_dec : EqDecision byte := Byte.byte_eq_dec.

Definition byteZ (b : byte) : Z := Z.of_N (Byte.to_N b).

(** [len(s)] as a Go [int]. *)
Definition len {A} (s : list A) : Z := Z.of_nat (length s).

(** Go's [int] on a 64-bit platform: arithmetic wraps around. *)
Definition wrap64 (z : Z) : Z := (z + 2 ^ 63) mod 2 ^ 64 - 2 ^ 63.

(** The kinds that [decode] and [arguments.Type] name; [Kind] is an integer
    type, and [KindOther] stands for its other values. *)
Inductive Kind :=
| KindBool | KindUInt | KindInt | KindString | KindArray | KindSlice
| KindAddress | KindBytes | KindFixedBytes | KindTuple | KindFunction
| KindOther (n : Z).

(** The errors of the package, one constructor per [fmt.Errorf] message. *)
Inductive error :=
| ErrReadSlice (n start length : Z)
| ErrOffsetLargerThanInt64
| ErrOffsetInsufficient (n offset : Z)
| ErrLengthLargerThanInt64
| ErrLengthInsufficient (n length : Z)
| ErrBadBoolean
| ErrLenNotCorrect
| ErrFunctionType
| ErrTupleRepeated
| ErrSizeLowerThanZero
| ErrSizeTooBig
| ErrNotAvailable (k : Kind)
| ErrMultipleConstructor
| ErrUnknownFieldType (ty : string)
| ErrLogNoMatch.

(** What a call does: it returns a value, returns an error, or hits a
    run-time panic.  A slice expression [s[lo:hi]] whose bounds leave
    [0 <= lo <= hi <= len(s)] is a [Panic]: Go aborts when [hi] exceeds the
    capacity, and with spare capacity the expression yields bytes past
    [len(s)]. *)
Inductive outcome (A : Type) :=
| Ok (a : A)
| Err (e : error)
| Panic.
Arguments Ok {A} a.
Arguments Err {A} e.
Arguments Panic {A}.

Global Instance outcome_ret : MRet outcome := fun A a => Ok a.

Global Instance outcome_bind : MBind outcome := fun A B f x =>
  match x with
  | Ok a => f a
  | Err e => Err e
  | Panic => Panic
  end.

(** [val, err = f(...)]: a panic of the callee unwinds at once, while its
    error is held in [err] until the caller looks at it. *)
Definition held {A} (x : outcome A) : outcome (outcome A) :=
  match x with
  | Panic => Panic
  | r => Ok r
  end.

(** [s[lo:hi]] *)
Definition slice (s : bytes) (lo hi : Z) : outcome bytes :=
  if (0 <=? lo) && (lo <=? hi) && (hi <=? len s)
  then Ok (take (Z.to_nat (hi - lo)) (drop (Z.to_nat lo) s))
  else Panic.

(** [s[i]] *)
Definition index (s : bytes) (i : Z) : outcome byte :=
  if (0 <=? i) && (i <? len s)
  then match s !! Z.to_nat i with Some b => Ok b | None => Panic end
  else Panic.

(** [new(big.Int).SetBytes(b)] and [binary.BigEndian.UintN] on a slice of
    exactly N/8 bytes: the unsigned big-endian value. *)
Definition SetBytes (b : bytes) : Z :=
  fold_left (fun acc x => acc * 256 + byteZ x) b 0.

(** [BitLen] of a [big.Int]. *)
Definition BitLen (z : Z) : Z :=
  if Z.abs z =? 0 then 0 else Z.log2 (Z.abs z) + 1.

(** [strconv.Itoa] and the verb [%d]. *)
Definition Itoa (n : Z) : string := pretty n.

(** ** The type tree *)

(** [reflect.Kind] of the Go type a value decodes to, which is all
    [readInteger] asks of the field [t]: the eight kinds it names, and
    [reflect_other] for every kind left to its [default] case (the pointer
    to [big.Int] among them). *)
Inductive reflect_Kind :=
| Uint8 | Uint16 | Uint32 | Uint64 | Int8 | Int16 | Int32 | Int64
| reflect_other.

Record TupleElem (T : Type) := mkTupleElem {
  Name : string;
  Elem : option T;
  Indexed : bool
}.
Arguments mkTupleElem {T} _ _ _.
Arguments Name {T} _.
Arguments Elem {T} _.
Arguments Indexed {T} _.

Scheme All for option.
Scheme All for list.
Scheme All for TupleElem.

(** [Type]: the pointers [elem] and [Elem] may be nil, and so may the slice
    [tuple] and the interface [t]; the entries of [tuple] are the non-nil
    [*TupleElem] that [arguments.Type] and [Clone] allocate.  A [t] that is
    not nil stands for the Go type that goes with the tree, so that
    [reflect] accepts the values [decode] stores through it. *)
Inductive AbiType := mkType {
  t_kind : Kind;
  t_size : Z;
  t_elem : option AbiType;
  t_raw : string;
  t_tuple : option (list (TupleElem AbiType));
  t_t : option reflect_Kind
}.

(** [range t.tuple] and [len(t.tuple)] treat a nil slice as empty. *)
Definition tuple_range (t : AbiType) : list (TupleElem AbiType) :=
  match t_tuple t with Some l => l | None => [] end.

Global Instance Kind_eq_dec : EqDecision Kind.
Proof. solve_decision. Defined.

(** Modelled from the spec: [isVariableInput], a method of [Type] whose
    declaration is not among the sources; section 4.2: true iff the type is
    String, Bytes or Slice. *)
Definition isVariableInput (t : AbiType) : bool :=
  match t_kind t with
  | KindString | KindBytes | KindSlice => true
  | _ => false
  end.

(** Modelled from the spec: [isDynamicType], a method of [Type] whose
    declaration is not among the sources; section 4.2: String, Bytes and
    Slice are dynamic, an Array is when its element is, a Tuple when one of
    its elements is. *)
Fixpoint isDynamicType (t : AbiType) : bool :=
  match t_kind t with
  | KindString | KindBytes | KindSlice => true
  | KindArray =>
      match t_elem t with Some e => isDynamicType e | None => false end
  | KindTuple =>
      match t_tuple t with
      | Some l =>
          existsb (fun a => match Elem a with
                            | Some e => isDynamicType e
                            | None => false
                            end) l
      | None => false
      end
  | _ => false
  end.

(** ** Decoded values *)

(** The dynamic types behind [interface{}] that [decode] produces. *)
#[warnings="-register-all"]
Inductive Value :=
| VBool (b : bool)
| VUint8 (v : Z) | VUint16 (v : Z) | VUint32 (v : Z) | VUint64 (v : Z)
| VInt8 (v : Z) | VInt16 (v : Z) | VInt32 (v : Z) | VInt64 (v : Z)
| VBigInt (v : Z)
| VString (s : bytes)
| VBytes (b : bytes)
| VAddress (a : bytes)
| VFixedBytes (b : bytes)
| VFunction (b : bytes)
| VArray (l : list Value)
| VMap (m : gmap string Value).

(** ** decode.go *)

Definition maxUint256 : Z := 2 ^ 256 + -1.
Definition maxInt256 : Z := 2 ^ 255 + -1.

Definition readAddr (b : bytes) : outcome Value :=
  if negb (len b =? 32) then Err ErrLenNotCorrect
  else tail ← slice b 12 (len b); Ok (VAddress tail).

Definition readSlice (input : bytes) (start length : Z) : outcome bytes :=
  let end_ := len input in
  let start := if start <? 0 then wrap64 (end_ + start) else start in
  let end_ :=
    if length <? 0 then wrap64 (end_ + length)
    else if length >? 0 then wrap64 (start + length)
    else end_ in
  if len input <? end_ then Err (ErrReadSlice (len input) start length)
  else slice input start end_.

(** [intN(x)] of an unsigned N-bit [x]. *)
Definition toSigned (bits : Z) (u : Z) : Z :=
  if u <? 2 ^ (bits - 1) then u else u - 2 ^ bits.

Definition readInteger (t : AbiType) (b : bytes) : outcome Value :=
  match t_t t with
  | None => Panic
  | Some Uint8 => x ← index b (len b - 1); Ok (VUint8 (byteZ x))
  | Some Uint16 =>
      s ← slice b (len b - 2) (len b); Ok (VUint16 (SetBytes s))
  | Some Uint32 =>
      s ← slice b (len b - 4) (len b); Ok (VUint32 (SetBytes s))
  | Some Uint64 =>
      s ← slice b (len b - 8) (len b); Ok (VUint64 (SetBytes s))
  | Some Int8 =>
      x ← index b (len b - 1); Ok (VInt8 (toSigned 8 (byteZ x)))
  | Some Int16 =>
      s ← slice b (len b - 2) (len b);
      Ok (VInt16 (toSigned 16 (SetBytes s)))
  | Some Int32 =>
      s ← slice b (len b - 4) (len b);
      Ok (VInt32 (toSigned 32 (SetBytes s)))
  | Some Int64 =>
      s ← slice b (len b - 8) (len b);
      Ok (VInt64 (toSigned 64 (SetBytes s)))
  | Some reflect_other =>
      let ret := SetBytes b in
      if decide (t_kind t = KindUInt) then Ok (VBigInt ret)
      else if ret >? maxInt256
           then Ok (VBigInt (- ((maxUint256 + - ret) + 1)))
           else Ok (VBigInt ret)
  end.

Definition allZeros (b : bytes) : bool :=
  forallb (fun i => byteZ i =? 0) b.

Definition readFunctionType (t : AbiType) (word : bytes) : outcome Value :=
  last8 ← slice word 24 32;
  if negb (allZeros last8) then Err ErrFunctionType
  else first24 ← slice word 0 24; Ok (VFunction first24).

(** [reflect.New(t.t)] panics on a nil [t.t]; the array it allocates
    receives [word[0:t.size]]. *)
Definition readFixedBytes (t : AbiType) (word : bytes) : outcome Value :=
  match t_t t with
  | None => Panic
  | Some _ => w ← slice word 0 (t_size t); Ok (VFixedBytes w)
  end.

Definition decodeBool (data : bytes) : outcome Value :=
  x ← index data 31;
  match byteZ x with
  | 0 => Ok (VBool false)
  | 1 => Ok (VBool true)
  | _ => Err ErrBadBoolean
  end.

Definition readOffset (data : bytes) (n : Z) : outcome Z :=
  word ← slice data 0 32;
  let offsetBig := SetBytes word in
  if BitLen offsetBig >? 63 then Err ErrOffsetLargerThanInt64
  else
    let offset := offsetBig in
    if offset >? n then Err (ErrOffsetInsufficient n offset)
    else Ok offset.

Definition readLength (data : bytes) : outcome Z :=
  input ← readSlice data 0 32;
  let lengthBig := SetBytes input in
  if BitLen lengthBig >? 63 then Err ErrLengthLargerThanInt64
  else
    let length := lengthBig in
    if length >? len data then Err (ErrLengthInsufficient (len data) length)
    else Ok length.

Section Loops.
(** The loops of [decodeTuple] and [decodeArraySlice], over the
    recursive call to [decode]. *)
Variable decode : AbiType -> bytes -> outcome (Value * bytes).

Fixpoint decodeTuple_loop (orig : bytes) (args : list (TupleElem AbiType))
    (indx : Z) (data : bytes) (res : gmap string Value)
    : outcome (Value * bytes) :=
  match args with
  | [] => Ok (VMap res, data)
  | arg :: rest =>
      match Elem arg with
      | None => Panic
      | Some et =>
          entry ← (if isDynamicType et
                   then (offset ← readOffset data (len orig);
                         slice orig offset (len orig))
                   else Ok data);
          '(val, tail) ← decode et entry;
          data ← (if negb (isDynamicType et) then Ok tail
                  else slice data 32 (len data));
          let name := if decide (Name arg = "") then Itoa indx
                      else Name arg in
          match res !! name with
          | None =>
              decodeTuple_loop orig rest (indx + 1) data
                (<[name := val]> res)
          | Some _ => Err ErrTupleRepeated
          end
      end
  end.

(** Ranging over a nil [t.tuple] runs no iteration. *)
Definition decodeTuple (t : AbiType) (data : bytes)
    : outcome (Value * bytes) :=
  match t_tuple t with
  | Some args => decodeTuple_loop data args 0 data ∅
  | None => Ok (VMap ∅, data)
  end.

(** [res.Index(indx).Set(val)] fills the slots in order; an error or a
    panic drops [res], so the slots are collected as they are set. *)
Fixpoint decodeArraySlice_loop (elem : option AbiType) (orig : bytes)
    (n : nat) (data : bytes) (res : list Value)
    : outcome (Value * bytes) :=
  match n with
  | O => Ok (VArray res, data)
  | S n' =>
      match elem with
      | None => Panic
      | Some et =>
          let isDynamic := isDynamicType et in
          entry ← (if isDynamic
                   then (offset ← readOffset data (len orig);
                         slice orig offset (len orig))
                   else Ok data);
          '(val, tail) ← decode et entry;
          data ← (if negb isDynamic then Ok tail
                  else slice data 32 (len data));
          decodeArraySlice_loop elem orig n' data (res ++ [val])
      end
  end.

(** [reflect.MakeSlice(t.t, ...)] and [reflect.New(t.t)] panic on a nil
    [t.t]. *)
Definition decodeArraySlice (t : AbiType) (data : bytes) (size : Z)
    : outcome (Value * bytes) :=
  if size <? 0 then Err ErrSizeLowerThanZero
  else if wrap64 (32 * size) >? len data then Err ErrSizeTooBig
  else
    match t_kind t, t_t t with
    | (KindSlice | KindArray), None => Panic
    | _, _ =>
        decodeArraySlice_loop (t_elem t) data (Z.to_nat size) data []
    end.

(** The body of [decode], over its own recursive calls. *)
Definition decode_body (t : AbiType) (input : bytes)
    : outcome (Value * bytes) :=
  length ← (if isVariableInput t then readLength input else Ok 0);
  match t_kind t with
  | KindTuple => decodeTuple t input
  | KindSlice =>
      data ← readSlice input 32 0;
      decodeArraySlice t data length
  | KindArray => decodeArraySlice t input (t_size t)
  | _ =>
      val ← match t_kind t with
            | KindBool =>
                data ← readSlice input 0 32;
                held (decodeBool data)
            | KindInt | KindUInt =>
                data ← readSlice input 0 32;
                held (readInteger t data)
            | KindString =>
                data ← readSlice input 32 length;
                Ok (Ok (VString data))
            | KindBytes =>
                data ← readSlice input 32 length;
                Ok (Ok (VBytes data))
            | KindAddress =>
                data ← readSlice input 0 32;
                held (readAddr data)
            | KindFixedBytes =>
                data ← readSlice input 0 32;
                held (readFixedBytes t data)
            | KindFunction =>
                data ← readSlice input 0 32;
                held (readFunctionType t data)
            | k => Err (ErrNotAvailable k)
            end;
      data ← readSlice input 32 0;
      v ← val;
      Ok (v, data)
  end.
End Loops.

(** [decode] recurses on the element types of [t] only. *)
Fixpoint decode (t : AbiType) (input : bytes) {struct t}
    : outcome (Value * bytes) :=
  decode_body decode t input.

Definition Decode (t : AbiType) (input : bytes) : outcome Value :=
  '(val, _) ← decode t input; Ok val.

(** ** clone.go *)

(** [Clone] past its nil check: [&TupleElem{Elem: ..., Indexed: ...}] leaves
    [Name] at its zero value, the line that copied it being commented
    out. *)
Fixpoint cloneType (t : AbiType) : AbiType :=
  {| t_kind := t_kind t;
     t_size := t_size t;
     t_elem := match t_elem t with
               | Some e => Some (cloneType e)
               | None => None
               end;
     t_raw := t_raw t;
     t_tuple := match t_tuple t with
                | Some l =>
                    Some (map (fun v =>
                      {| Name := "";
                         Elem := match Elem v with
                                 | Some e => Some (cloneType e)
                                 | None => None
                                 end;
                         Indexed := Indexed v |}) l)
                | None => None
                end;
     t_t := t_t t |}.

Definition Type_Clone (t : option AbiType) : option AbiType :=
  match t with
  | None => None
  | Some t => Some (cloneType t)
  end.

(** ** The ABI document, methods and events *)

Record Method := mkMethod {
  m_Name : string;
  m_Const : bool;
  m_Inputs : option AbiType;
  m_Outputs : option AbiType;
  m_id : bytes
}.

(** [id] is a [web3.Hash], an array of 32 bytes. *)
Record Event := mkEvent {
  e_Name : string;
  e_Anonymous : bool;
  e_Inputs : option AbiType;
  e_id : bytes
}.

Record ABI := mkABI {
  Constructor : option Method;
  Methods : gmap string Method;
  Events : gmap string Event
}.

Definition Event_Clone (e : option Event) : option Event :=
  match e with
  | None => None
  | Some e =>
      Some {| e_Name := e_Name e;
              e_Anonymous := e_Anonymous e;
              e_Inputs := Type_Clone (e_Inputs e);
              e_id := e_id e |}
  end.

Definition Method_Clone (m : option Method) : option Method :=
  match m with
  | None => None
  | Some m =>
      Some {| m_Name := m_Name m;
              m_Const := m_Const m;
              m_Inputs := Type_Clone (m_Inputs m);
              m_Outputs := Type_Clone (m_Outputs m);
              m_id := m_id m |}
  end.

Record argument := mkArgument {
  a_Name : string;
  a_Type : option AbiType;
  a_Indexed : bool
}.

(** [arguments] is a slice of pointers to [argument]: [json.Unmarshal]
    leaves nil where the document holds [null]. *)
Definition arguments := list (option argument).

(** What [Type] builds from arguments that are all there. *)
Definition arguments_tuple (a : list argument) : AbiType :=
  let inputs := map (fun i => {| Name := a_Name i;
                                 Elem := a_Type i;
                                 Indexed := a_Indexed i |}) a in
  {| t_kind := KindTuple;
     t_size := 0;
     t_elem := None;
     t_raw := "tuple";
     t_tuple := Some inputs;
     t_t := None |}.

(** [Type] reads [i.Name] of every entry in turn, and panics on the first
    nil one. *)
Definition arguments_Type (a : arguments) : outcome AbiType :=
  inputs ← mapM (fun i : option argument =>
                   match i with
                   | Some i => Ok {| Name := a_Name i;
                                     Elem := a_Type i;
                                     Indexed := a_Indexed i |}
                   | None => Panic
                   end) a;
  Ok {| t_kind := KindTuple;
        t_size := 0;
        t_elem := None;
        t_raw := "tuple";
        t_tuple := Some inputs;
        t_t := None |}.

(** One entry of the JSON document, as [json.Unmarshal] fills it. *)
Record Field := mkField {
  f_Type : string;
  f_Name : string;
  f_Constant : bool;
  f_Anonymous : bool;
  f_StateMutability : string;
  f_Inputs : arguments;
  f_Outputs : arguments
}.

(** The loop of [overloadedMethodName] and [overloadedEventName], entered
    with [ok] true: [None] when it is still running after [fuel] probes. *)
Fixpoint overloaded_loop {V} (m : gmap string V) (rawName : string)
    (fuel : nat) (idx : Z) : option string :=
  match fuel with
  | O => None
  | S fuel =>
      let name := rawName +:+ Itoa idx in
      match m !! name with
      | Some _ => overloaded_loop m rawName fuel (idx + 1)
      | None => Some name
      end
  end.

Definition overloadedMethodName (fuel : nat) (abi : ABI) (rawName : string)
    : option string :=
  let name := rawName in
  match Methods abi !! name with
  | Some _ => overloaded_loop (Methods abi) rawName fuel 0
  | None => Some name
  end.

Definition overloadedEventName (fuel : nat) (abi : ABI) (rawName : string)
    : option string :=
  let name := rawName in
  match Events abi !! name with
  | Some _ => overloaded_loop (Events abi) rawName fuel 0
  | None => Some name
  end.

(** The body of the loop of [UnmarshalJSON] over the decoded [fields]:
    the key is chosen before the composite literal is built, and the
    literal calls [Type] on the inputs, then on the outputs. *)
Definition UnmarshalJSON_field (fuel : nat) (a : ABI) (field : Field)
    : option (outcome ABI) :=
  if decide (f_Type field = "constructor") then
    match Constructor a with
    | Some _ => Some (Err ErrMultipleConstructor)
    | None =>
        Some (inputs ← arguments_Type (f_Inputs field);
              Ok {| Constructor :=
                      Some {| m_Name := "";
                              m_Const := false;
                              m_Inputs := Some inputs;
                              m_Outputs := None;
                              m_id := [] |};
                    Methods := Methods a;
                    Events := Events a |})
    end
  else if decide (f_Type field = "function" \/ f_Type field = "") then
    let c := f_Constant field in
    let c := if decide (f_StateMutability field = "view" \/
                        f_StateMutability field = "pure")
             then true else c in
    name ← overloadedMethodName fuel a (f_Name field);
    Some (inputs ← arguments_Type (f_Inputs field);
          outputs ← arguments_Type (f_Outputs field);
          Ok {| Constructor := Constructor a;
                Methods :=
                  <[name := {| m_Name := f_Name field;
                               m_Const := c;
                               m_Inputs := Some inputs;
                               m_Outputs := Some outputs;
                               m_id := [] |}]> (Methods a);
                Events := Events a |})
  else if decide (f_Type field = "event") then
    name ← overloadedEventName fuel a (f_Name field);
    Some (inputs ← arguments_Type (f_Inputs field);
          Ok {| Constructor := Constructor a;
                Methods := Methods a;
                Events :=
                  <[name := {| e_Name := f_Name field;
                               e_Anonymous := f_Anonymous field;
                               e_Inputs := Some inputs;
                               e_id := replicate 32 x00 |}]> (Events a) |})
  else if decide (f_Type field = "error" \/ f_Type field = "fallback" \/
                  f_Type field = "receive") then
    Some (Ok a)
  else Some (Err (ErrUnknownFieldType (f_Type field))).

Fixpoint UnmarshalJSON_loop (fuel : nat) (a : ABI) (fields : list Field)
    : option (outcome ABI) :=
  match fields with
  | [] => Some (Ok a)
  | field :: rest =>
      r ← UnmarshalJSON_field fuel a field;
      match r with
      | Ok a => UnmarshalJSON_loop fuel a rest
      | r => Some r
      end
  end.

(** [UnmarshalJSON] once [json.Unmarshal] has filled [fields]: the maps
    start empty, the constructor is the receiver's. *)
Definition UnmarshalJSON (fuel : nat) (a : ABI) (fields : list Field)
    : option (outcome ABI) :=
  UnmarshalJSON_loop fuel
    {| Constructor := Constructor a; Methods := ∅; Events := ∅ |} fields.

(** [strings.Join] *)
Fixpoint Join (elems : list string) (sep : string) : string :=
  match elems with
  | [] => ""
  | [x] => x
  | x :: rest => x +:+ sep +:+ Join rest sep
  end.

Definition buildSignature (name : string) (typ : option AbiType)
    : outcome string :=
  match typ with
  | None => Panic
  | Some typ =>
      types ← mapM (fun input => match Elem input with
                                 | Some e => Ok (t_raw e)
                                 | None => Panic
                                 end) (tuple_range typ);
      Ok (name +:+ "(" +:+ Join types "," +:+ ")")
  end.

(** [copy(dst, src)]: the new contents of [dst]. *)
Definition copy (dst src : bytes) : bytes :=
  let n := Nat.min (length dst) (length src) in
  take n src ++ drop n dst.

(** [binary.BigEndian.Uint64] *)
Definition BigEndian_Uint64 (b : bytes) : outcome Z :=
  s ← slice b 0 8; Ok (SetBytes s).

(** A log of package web3, as far as [Match] reads it. *)
Record Log := mkLog {
  Topics : list bytes;
  Data : bytes
}.

Section Selector.
(** Legacy Keccak-256 of golang.org/x/crypto/sha3: [k.Write(data)] then
    [k.Sum(nil)] on a hasher from the pool, which [releaseKeccak] resets
    before it is put back. *)
Variable keccak256 : bytes -> bytes.

(** [ParseLog] of [Type], whose declaration is not among the sources. *)
Variable Type_ParseLog : option AbiType -> Log -> outcome (gmap string Value).

Definition Method_Sig (m : Method) : outcome string :=
  buildSignature (m_Name m) (m_Inputs m).

(** [ID] returns its value and leaves the receiver with the cache set. *)
Definition Method_ID (m : Method) : outcome bytes * Method :=
  if len (m_id m) >? 0 then (Ok (m_id m), m)
  else
    match Method_Sig m with
    | Ok sig =>
        match slice (keccak256 (String.list_byte_of_string sig)) 0 4 with
        | Ok id =>
            let m := {| m_Name := m_Name m;
                        m_Const := m_Const m;
                        m_Inputs := m_Inputs m;
                        m_Outputs := m_Outputs m;
                        m_id := id |} in
            (Ok (m_id m), m)
        | _ => (Panic, m)
        end
    | _ => (Panic, m)
    end.

Definition Event_Sig (e : Event) : outcome string :=
  buildSignature (e_Name e) (e_Inputs e).

Definition Event_ID (e : Event) : outcome bytes * Event :=
  match BigEndian_Uint64 (e_id e) with
  | Ok u =>
      if u >? 0 then (Ok (e_id e), e)
      else
        match Event_Sig e with
        | Ok sig =>
            let dst := keccak256 (String.list_byte_of_string sig) in
            let e := {| e_Name := e_Name e;
                        e_Anonymous := e_Anonymous e;
                        e_Inputs := e_Inputs e;
                        e_id := copy (e_id e) dst |} in
            (Ok (e_id e), e)
        | _ => (Panic, e)
        end
  | _ => (Panic, e)
  end.

Definition Event_Match (e : Event) (log : Log) : outcome bool * Event :=
  if len (Topics log) =? 0 then (Ok false, e)
  else
    match Event_ID e with
    | (Ok id, e) =>
        match Topics log with
        | topic0 :: _ =>
            if decide (topic0 <> id) then (Ok false, e) else (Ok true, e)
        | [] => (Panic, e)
        end
    | (_, e) => (Panic, e)
    end.

Definition Event_ParseLog (e : Event) (log : Log)
    : outcome (gmap string Value) * Event :=
  match Event_Match e log with
  | (Ok ok, e) =>
      if negb ok then (Err ErrLogNoMatch, e)
      else (Type_ParseLog (e_Inputs e) log, e)
  | (_, e) => (Panic, e)
  end.
End Selector.

(** ** Vocabulary of the statements and sample inputs *)

(** The offset errors of [readOffset]. *)
Definition is_Offset_error (e : error) : Prop :=
  match e with
  | ErrOffsetLargerThanInt64 | ErrOffsetInsufficient _ _ => True
  | _ => False
  end.

(** The 32-byte word that ends in [lo]. *)
Definition word_of (lo : bytes) : bytes :=
  replicate (32 - length lo) x00 ++ lo.

Definition bool_type : AbiType :=
  {| t_kind := KindBool; t_size := 0; t_elem := None; t_raw := "bool";
     t_tuple := None; t_t := Some reflect_other |}.

Definition int256_type : AbiType :=
  {| t_kind := KindInt; t_size := 256; t_elem := None; t_raw := "int256";
     t_tuple := None; t_t := Some reflect_other |}.

Definition uint8_type : AbiType :=
  {| t_kind := KindUInt; t_size := 8; t_elem := None; t_raw := "uint8";
     t_tuple := None; t_t := Some Uint8 |}.

Definition string_type : AbiType :=
  {| t_kind := KindString; t_size := 0; t_elem := None; t_raw := "string";
     t_tuple := None; t_t := Some reflect_other |}.

(** [tuple(string)] *)
Definition tuple_string_type : AbiType :=
  {| t_kind := KindTuple; t_size := 0; t_elem := None; t_raw := "tuple";
     t_tuple := Some [{| Name := "a"; Elem := Some string_type;
                         Indexed := false |}];
     t_t := None |}.

(** The encoding of the one string [dave]: the offset [0x20], the length
    4 and the padded bytes. *)
Definition tuple_string_dave : bytes :=
  word_of [x20] ++ word_of [x04] ++
  ["d"; "a"; "v"; "e"]%byte ++ replicate 28 x00.

(** No tuple element of the tree carries a name. *)
Fixpoint unnamed (t : AbiType) : bool :=
  match t_elem t with
  | Some e => unnamed e
  | None => true
  end &&
  match t_tuple t with
  | Some l =>
      forallb (fun v => bool_decide (Name v = "") &&
                        match Elem v with
                        | Some e => unnamed e
                        | None => true
                        end) l
  | None => true
  end.

(** A tree with a named tuple element. *)
Definition named_tuple_type : AbiType :=
  {| t_kind := KindTuple; t_size := 0; t_elem := None;
     t_raw := "tuple(uint8)";
     t_tuple := Some [{| Name := "amount"; Elem := Some uint8_type;
                         Indexed := true |}];
     t_t := None |}.

(** The entries of a document that [UnmarshalJSON] stores as methods, and
    those it stores as events. *)
Definition is_function_field (f : Field) : bool :=
  bool_decide (f_Type f = "function" \/ f_Type f = "").

Definition is_event_field (f : Field) : bool :=
  bool_decide (f_Type f = "event").

(** [key] is [rawName], or [rawName] followed by an integer from 0 on. *)
Definition overload_of (rawName key : string) : Prop :=
  key = rawName \/ exists idx, 0 <= idx /\ key = rawName +:+ Itoa idx.

(** The first free key: [rawName] when it is free, and otherwise
    [rawName] followed by the smallest integer from 0 on that gives a free
    key. *)
Definition overloaded_result {V} (m : gmap string V) (rawName name : string)
    : Prop :=
  m !! name = None /\
  ((m !! rawName = None /\ name = rawName) \/
   (is_Some (m !! rawName) /\
    exists idx, 0 <= idx /\ name = rawName +:+ Itoa idx /\
      forall j, 0 <= j < idx -> is_Some (m !! (rawName +:+ Itoa j)))).

(** Every entry is stored under its name or an overload of it. *)
Definition keys_of_names (a : ABI) : Prop :=
  (forall k v, Methods a !! k = Some v -> overload_of (m_Name v) k) /\
  (forall k v, Events a !! k = Some v -> overload_of (e_Name v) k).

(** A document that holds [send] and [send1], and one that declares [send]
    three times and an event. *)
Definition send_abi : ABI :=
  {| Constructor := None;
     Methods := {[ "send" := mkMethod "send" false None None [];
                   "send1" := mkMethod "send" false None None [] ]};
     Events := ∅ |}.

Definition send_fields : list Field :=
  [ mkField "function" "send" false false "" [] [];
    mkField "" "send" false false "view" [] [];
    mkField "function" "send" true false "" [] [];
    mkField "event" "Sent" false false "" [] [] ].

(** The event [Transfer()] of the package's test, anonymous, with the
    identifier the test expects cached in it. *)
Definition anonymous_transfer : Event :=
  {| e_Name := "Transfer";
     e_Anonymous := true;
     e_Inputs := Some (arguments_tuple []);
     e_id := [x40; x6d; xad; xe3; x1f; x7a; xe4; xb5;
              xdb; xc2; x76; x25; x8c; x28; xdd; xe5;
              xae; x6d; x5c; x27; x73; xc5; x74; x58;
              x02; xc4; x93; xa2; x36; x0e; x55; xe0] |}.

(** A log whose first topic is the identifier of another event. *)
Definition foreign_log : Log :=
  {| Topics := [[xdd; xf2; x52; xad; x1b; xe2; xc8; x9b;
                 x69; xc2; xb0; x68; xfc; x37; x8d; xaa;
                 x95; x2b; xa7; xf1; x63; xc4; xa1; x16;
                 x28; xf5; x5a; x4d; xf5; x23; xb3; xef]];
     Data := [] |}.

(** A stand-in digest of 32 bytes, to run [ID] on. *)
Definition sample_digest (data : bytes) : bytes :=
  take 32 (data ++ replicate 32 x01).

(** [transfer(address,uint256)], freshly parsed. *)
Definition address_type : AbiType :=
  {| t_kind := KindAddress; t_size := 0; t_elem := None;
     t_raw := "address"; t_tuple := None; t_t := Some reflect_other |}.

Definition uint256_type : AbiType :=
  {| t_kind := KindUInt; t_size := 256; t_elem := None;
     t_raw := "uint256"; t_tuple := None; t_t := Some reflect_other |}.

Definition transfer_method : Method :=
  {| m_Name := "transfer";
     m_Const := false;
     m_Inputs := Some (arguments_tuple
                   [ mkArgument "to" (Some address_type) false;
                     mkArgument "value" (Some uint256_type) false ]);
     m_Outputs := Some (arguments_tuple []);
     m_id := [] |}.

(** [m.Name = name]: the fields [Name] and [Inputs] are exported. *)
Definition Method_renamed (name : string) (m : Method) : Method :=
  {| m_Name := name;
     m_Const := m_Const m;
     m_Inputs := m_Inputs m;
     m_Outputs := m_Outputs m;
     m_id := m_id m |}.

(** The state of a method after [n] calls of [ID], and of an event. *)
Definition Method_after (keccak256 : bytes -> bytes) (n : nat) (m : Method)
    : Method :=
  Nat.iter n (fun m => snd (Method_ID keccak256 m)) m.

Definition Event_after (keccak256 : bytes -> bytes) (n : nat) (e : Event)
    : Event :=
  Nat.iter n (fun e => snd (Event_ID keccak256 e)) e.

(** The event with its flag [Anonymous] set to [flag]. *)
Definition with_Anonymous (flag : bool) (e : Event) : Event :=
  {| e_Name := e_Name e; e_Anonymous := flag;
     e_Inputs := e_Inputs e; e_id := e_id e |}.

(** A stand-in for [ParseLog] of [Type]. *)
Definition sample_ParseLog (t : option AbiType) (log : Log)
    : outcome (gmap string Value) :=
  Ok ∅.

(** The Go type of the tree is set. *)
Definition has_type (t : AbiType) : bool :=
  match t_t t with Some _ => true | None => false end.

(** A tree as the type parser builds it (Go types set, element types in
    place, fixed byte arrays of at most 32 bytes, arrays of fewer than 2^58
    elements) in which no tuple holds a dynamic element. *)
Fixpoint panic_free (t : AbiType) : bool :=
  match t_kind t with
  | KindArray =>
      has_type t && (t_size t <? 2 ^ 58) &&
      match t_elem t with Some e => panic_free e | None => false end
  | KindSlice =>
      has_type t &&
      match t_elem t with Some e => panic_free e | None => false end
  | KindTuple =>
      match t_tuple t with
      | Some l =>
          forallb (fun a => match Elem a with
                            | Some e => negb (isDynamicType e) && panic_free e
                            | None => false
                            end) l
      | None => true
      end
  | KindInt | KindUInt => has_type t
  | KindFixedBytes => has_type t && (0 <=? t_size t) && (t_size t <=? 32)
  | _ => true
  end.

(** The call returns, and what it leaves of the input is no longer than
    [bound]. *)
Definition returns_within (bound : Z) (r : outcome (Value * bytes)) : Prop :=
  match r with
  | Ok (_, tail) => len tail <= bound
  | Err _ => True
  | Panic => False
  end.

(** [string[]] *)
Definition string_slice_type : AbiType :=
  {| t_kind := KindSlice; t_size := 0; t_elem := Some string_type;
     t_raw := "string[]"; t_tuple := None; t_t := Some reflect_other |}.

(** [uint256[]] and [tuple(uint256[])] *)
Definition uint256_slice_type : AbiType :=
  {| t_kind := KindSlice; t_size := 0; t_elem := Some uint256_type;
     t_raw := "uint256[]"; t_tuple := None; t_t := Some reflect_other |}.

Definition tuple_uint256_slice_type : AbiType :=
  {| t_kind := KindTuple; t_size := 0; t_elem := None; t_raw := "tuple";
     t_tuple := Some [{| Name := ""; Elem := Some uint256_slice_type;
                         Indexed := false |}];
     t_t := None |}.

(** The key of a tuple element in the result of [decodeTuple]: its name,
    or its decimal position when it has none; and the keys of the elements
    from position [indx] on. *)
Definition tuple_key (indx : Z) (arg : TupleElem AbiType) : string :=
  if decide (Name arg = "") then Itoa indx else Name arg.

Fixpoint tuple_keys (indx : Z) (args : list (TupleElem AbiType))
    : list string :=
  match args with
  | [] => []
  | arg :: rest => tuple_key indx arg :: tuple_keys (indx + 1) rest
  end.

(** [buildFunctionSignature]: the rendering with [indexed] and the names. *)
Definition buildFunctionSignature (name : string) (typ : option AbiType)
    : outcome string :=
  match typ with
  | None => Panic
  | Some typ =>
      types ← mapM (fun arg =>
                      match Elem arg with
                      | Some e =>
                          let ty := if Indexed arg
                                    then t_raw e +:+ " " +:+ "indexed"
                                    else t_raw e in
                          Ok (if decide (Name arg <> "")
                              then ty +:+ " " +:+ Name arg
                              else ty)
                      | None => Panic
                      end) (tuple_range typ);
      Ok (name +:+ "(" +:+ Join types "," +:+ ")")
  end.

Definition Method_MethodSig (m : Method) : outcome string :=
  if match m_Outputs m with
     | None => true
     | Some outputs =>
         match t_tuple outputs with
         | None => true
         | Some l => len l =? 0
         end
     end
  then buildFunctionSignature (m_Name m) (m_Inputs m)
  else
    inputs ← buildFunctionSignature (m_Name m) (m_Inputs m);
    outputs ← buildFunctionSignature "returns " (m_Outputs m);
    Ok (inputs +:+ " " +:+ outputs).

Definition Event_MethodSig (e : Event) : outcome string :=
  buildFunctionSignature (e_Name e) (e_Inputs e).

(** The entry types that [UnmarshalJSON] knows, the entries that declare a
    constructor, and whether the receiver holds one. *)
Definition known_field (f : Field) : bool :=
  bool_decide (f_Type f ∈ ["constructor"; "function"; ""; "event";
                           "error"; "fallback"; "receive"]).

Definition is_constructor_field (f : Field) : bool :=
  bool_decide (f_Type f = "constructor").

Definition constructors_held (a : ABI) : nat :=
  match Constructor a with Some _ => 1 | None => 0 end.

(** The argument lists on which the case of an entry calls [Type]: the
    inputs of a constructor and of an event, the inputs and then the
    outputs of a function, none for the other entries. *)
Definition rendered (f : Field) : arguments :=
  if decide (f_Type f = "constructor") then f_Inputs f
  else if decide (f_Type f = "function" \/ f_Type f = "")
       then f_Inputs f ++ f_Outputs f
  else if decide (f_Type f = "event") then f_Inputs f
  else [].

(** No entry of [a] is nil; no argument that [UnmarshalJSON] reads in the
    entry [f] is. *)
Definition no_nil (a : arguments) : bool :=
  forallb (fun i => match i with Some _ => true | None => false end) a.

Definition nil_free (f : Field) : bool := no_nil (rendered f).

(** Inputs as [arguments.Type] builds them from arguments whose types are
    set, and an entry whose input arguments, where there, are such. *)
Definition parsed_inputs (typ : option AbiType) : Prop :=
  exists args, typ = Some (arguments_tuple args) /\
               Forall (fun arg => a_Type arg <> None) args.

Definition typed_field (f : Field) : Prop :=
  Forall (fun arg => match arg with
                     | Some i => a_Type i <> None
                     | None => True
                     end) (f_Inputs f).

(** The rendering of the arguments of an entry in a signature. *)
Definition arguments_raw (args : list argument) : list string :=
  (fun arg => match a_Type arg with
              | Some ty => t_raw ty
              | None => ""
              end) <$> args.

(** The key of declaration [i] of the name [rawName], counted from 0 in the
    order of the document: the name itself, then the name followed by
    0, 1, 2, ... *)
Definition overload_key (rawName : string) (i : nat) : string :=
  match i with
  | O => rawName
  | S j => rawName +:+ Itoa (Z.of_nat j)
  end.

(** [f] declares a function [rawName]. *)
Definition declares (rawName : string) (f : Field) : Prop :=
  is_function_field f = true /\ f_Name f = rawName.

(** [m] is what [UnmarshalJSON] stores for the function entry [f], and
    [ev] what it stores for the event entry [f]. *)
Definition stored_for (f : Field) (m : Method) : Prop :=
  m_Name m = f_Name f /\
  m_Const m = (if decide (f_StateMutability f = "view" \/
                          f_StateMutability f = "pure")
               then true else f_Constant f) /\
  (exists inputs, arguments_Type (f_Inputs f) = Ok inputs /\
                  m_Inputs m = Some inputs) /\
  (exists outputs, arguments_Type (f_Outputs f) = Ok outputs /\
                   m_Outputs m = Some outputs) /\
  m_id m = [].

Definition stored_event_for (f : Field) (ev : Event) : Prop :=
  e_Name ev = f_Name f /\
  e_Anonymous ev = f_Anonymous f /\
  (exists inputs, arguments_Type (f_Inputs f) = Ok inputs /\
                  e_Inputs ev = Some inputs) /\
  e_id ev = replicate 32 x00.

(** ** Events from a signature *)

(** [strings.HasSuffix]:
    [len(s) >= len(suffix) && s[len(s)-len(suffix):] == suffix]. *)
Definition HasSuffix (s suffix : string) : bool :=
  (String.length suffix <=? String.length s)%nat &&
  String.eqb (String.substring (String.length s - String.length suffix)
                               (String.length suffix) s) suffix.

(** [strings.Index]: the position of the first instance of [substr] in
    [s], or -1. *)
Fixpoint Index (s substr : string) : Z :=
  if String.prefix substr s then 0
  else match s with
       | EmptyString => -1
       | String _ rest =>
           let i := Index rest substr in
           if decide (i = -1) then -1 else i + 1
       end.

Section Signature.
(** The errors of [NewType], the type parser, whose declaration is not
    among the sources; it returns a type when it returns no error. *)
Variable E : Type.
Variable NewType : string -> E + AbiType.

Inductive sig_error :=
| ErrExpectedNameTypes
| ErrNewType (e : E).

Definition parseFunctionSignature (name : string)
    : sig_error + (string * AbiType) :=
  if negb (HasSuffix name ")") then inl ErrExpectedNameTypes
  else
    let indx := Index name "(" in
    if decide (indx = -1) then inl ErrExpectedNameTypes
    else
      let funcName := String.substring 0 (Z.to_nat indx) name in
      let signature :=
        String.substring (Z.to_nat indx)
                         (String.length name - Z.to_nat indx) name in
      let signature := "tuple" +:+ signature in
      match NewType signature with
      | inl e => inl (ErrNewType e)
      | inr typ => inr (funcName, typ)
      end.

Definition NewEventFromType (name : string) (typ : option AbiType) : Event :=
  {| e_Name := name;
     e_Anonymous := false;
     e_Inputs := typ;
     e_id := replicate 32 x00 |}.

Definition NewEvent (name : string) : sig_error + Event :=
  match parseFunctionSignature name with
  | inl e => inl e
  | inr (name, typ) => inr (NewEventFromType name (Some typ))
  end.
End Signature.
Arguments ErrExpectedNameTypes {E}.
Arguments ErrNewType {E} e.

(** [c] is one of the bytes of [s]. *)
Fixpoint has_char (c : Ascii.ascii) (s : string) : bool :=
  match s with
  | EmptyString => false
  | String d rest => bool_decide (c = d) || has_char c rest
  end.

(** A type parser that knows the empty tuple only. *)
Definition sample_NewType (s : string) : unit + AbiType :=
  if decide (s = "tuple()") then inr (arguments_tuple []) else inl tt.

(** A slice of the two values 1 and 2, [transfer(address,uint256)] with
    its arguments unnamed, and a document with typed arguments. *)
Definition uint256_slice_12 : bytes :=
  word_of [x02] ++ word_of [x01] ++ word_of [x02].

Definition plain_transfer : Method :=
  {| m_Name := "transfer";
     m_Const := false;
     m_Inputs := Some (arguments_tuple
                   [ mkArgument "" (Some address_type) false;
                     mkArgument "" (Some uint256_type) false ]);
     m_Outputs := None;
     m_id := [] |}.

(** A document with a function one of whose inputs is [null]. *)
Definition nil_fields : list Field :=
  [ mkField "event" "Sent" false false "" [] [];
    mkField "function" "f" false false "" [None] [] ].

Definition typed_fields : list Field :=
  [ mkField "function" "transfer" false false ""
      [ Some (mkArgument "to" (Some address_type) false);
        Some (mkArgument "value" (Some uint256_type) false) ] [];
    mkField "event" "Transfer" false false ""
      [ Some (mkArgument "from" (Some address_type) true);
        Some (mkArgument "value" (Some uint256_type) false) ] [] ].

(** * Properties *)

Implicit Types (input data orig word s b : bytes) (t et : AbiType).

(** ** Slices, words and big-endian values *)

Lemma bind_Ok {A B} (x : outcome A) (f : A -> outcome B) (y : B) :
  x ≫= f = Ok y -> exists a, x = Ok a /\ f a = Ok y.
Proof. destruct x as [a| |]; simpl; [eauto|discriminate..]. Qed.

Lemma len_nonneg {A} (s : list A) : 0 <= len s.
Proof. unfold len. lia. Qed.

Lemma len_app {A} (s1 s2 : list A) : len (s1 ++ s2) = len s1 + len s2.
Proof. unfold len. rewrite length_app. lia. Qed.

Lemma slice_in_bounds s lo hi :
  0 <= lo -> lo <= hi -> hi <= len s ->
  slice s lo hi = Ok (take (Z.to_nat (hi - lo)) (drop (Z.to_nat lo) s)).
Proof.
  intros H1 H2 H3. unfold slice.
  destruct (Z.leb_spec 0 lo), (Z.leb_spec lo hi), (Z.leb_spec hi (len s));
    simpl; try lia; reflexivity.
Qed.

Lemma slice_out_of_bounds s lo hi :
  lo < 0 \/ hi < lo \/ len s < hi -> slice s lo hi = Panic.
Proof.
  intros H. unfold slice.
  destruct (Z.leb_spec 0 lo), (Z.leb_spec lo hi), (Z.leb_spec hi (len s));
    simpl; try lia; reflexivity.
Qed.

Lemma slice_suffix s lo :
  0 <= lo -> lo <= len s -> slice s lo (len s) = Ok (drop (Z.to_nat lo) s).
Proof.
  intros H1 H2. rewrite slice_in_bounds by lia. f_equal.
  apply take_ge. rewrite length_drop. unfold len. lia.
Qed.

Lemma slice_prefix s hi :
  0 <= hi -> hi <= len s -> slice s 0 hi = Ok (take (Z.to_nat hi) s).
Proof.
  intros H1 H2. rewrite slice_in_bounds by lia.
  now rewrite Z.sub_0_r, drop_0.
Qed.

Lemma index_in_bounds s i :
  0 <= i < len s -> exists x, s !! Z.to_nat i = Some x /\ index s i = Ok x.
Proof.
  intros H. unfold index.
  destruct (lookup_lt_is_Some_2 s (Z.to_nat i)) as [x Hx].
  { unfold len in H. lia. }
  exists x. split; [exact Hx|].
  destruct (Z.leb_spec 0 i), (Z.ltb_spec i (len s)); simpl; try lia.
  now rewrite Hx.
Qed.

Lemma wrap64_small z : - 2 ^ 63 <= z < 2 ^ 63 -> wrap64 z = z.
Proof. intros H. unfold wrap64. rewrite Z.mod_small; lia. Qed.

(** The first word of an input that holds one. *)
Lemma readSlice_word input :
  32 <= len input -> readSlice input 0 32 = Ok (take 32 input).
Proof.
  intros H. unfold readSlice. simpl.
  change (wrap64 (0 + 32)) with 32.
  destruct (Z.ltb_spec (len input) 32); [lia|].
  now rewrite slice_prefix by lia.
Qed.

Lemma readSlice_word_short input :
  len input < 32 ->
  readSlice input 0 32 = Err (ErrReadSlice (len input) 0 32).
Proof.
  intros H. unfold readSlice. simpl.
  change (wrap64 (0 + 32)) with 32.
  now destruct (Z.ltb_spec (len input) 32); [|lia].
Qed.

(** What follows the first word. *)
Lemma readSlice_rest input :
  32 <= len input -> readSlice input 32 0 = Ok (drop 32 input).
Proof.
  intros H. unfold readSlice. simpl.
  rewrite Z.ltb_irrefl. now rewrite slice_suffix by lia.
Qed.

Lemma SetBytes_app b1 b2 :
  SetBytes (b1 ++ b2) = SetBytes b1 * 256 ^ len b2 + SetBytes b2.
Proof.
  unfold SetBytes. rewrite fold_left_app.
  generalize (fold_left (fun acc x => acc * 256 + byteZ x) b1 0) as a.
  induction b2 as [|x b2 IH] using rev_ind; intros a.
  - unfold len. simpl. lia.
  - rewrite !fold_left_app. simpl. rewrite IH, (IH 0).
    rewrite len_app. change (len [x]) with 1.
    pose proof (len_nonneg b2).
    rewrite Z.pow_add_r by lia. lia.
Qed.

Lemma byteZ_range x : 0 <= byteZ x < 256.
Proof.
  unfold byteZ. pose proof (Byte.to_N_bounded x) as H.
  lia.
Qed.

Lemma SetBytes_range b : 0 <= SetBytes b < 256 ^ len b.
Proof.
  induction b as [|x b IH] using rev_ind.
  - change (0 <= 0 < 1). lia.
  - rewrite SetBytes_app, len_app. change (len [x]) with 1.
    change (SetBytes [x]) with (0 * 256 + byteZ x).
    pose proof (byteZ_range x). pose proof (len_nonneg b).
    rewrite Z.pow_add_r by lia. nia.
Qed.

Lemma BitLen_gt_63 z : 0 <= z -> (BitLen z >? 63) = (2 ^ 63 <=? z).
Proof.
  intros Hz. unfold BitLen. rewrite Z.abs_eq by lia.
  destruct (Z.eqb_spec z 0) as [->|Hne]; [reflexivity|].
  destruct (Z.leb_spec (2 ^ 63) z) as [H|H].
  - apply Z.log2_le_pow2 in H; [|lia].
    apply Z.gtb_lt. lia.
  - apply Z.log2_lt_pow2 in H; [|lia].
    destruct (Z.gtb_spec (Z.log2 z + 1) 63); [lia|reflexivity].
Qed.

(** ** The decoder of one word *)

Lemma decode_eq t input : decode t input = decode_body decode t input.
Proof. destruct t; reflexivity. Qed.

Lemma len_take_word input : 32 <= len input -> len (take 32 input) = 32.
Proof. unfold len. rewrite length_take. lia. Qed.

(** The last [k] bytes of the first word. *)
Lemma word_suffix input (k : nat) :
  (k <= 32)%nat -> 32 <= len input ->
  slice (take 32 input) (32 - Z.of_nat k) 32 =
  Ok (take k (drop (32 - k) input)).
Proof.
  intros Hk Hlen. rewrite slice_in_bounds; rewrite ?len_take_word; try lia.
  f_equal.
  replace (Z.to_nat (32 - (32 - Z.of_nat k))) with k by lia.
  replace (Z.to_nat (32 - Z.of_nat k)) with (32 - k)%nat by lia.
  rewrite !take_drop_commute.
  replace (32 - k + k)%nat with 32%nat by lia.
  now rewrite take_take, Nat.min_id.
Qed.

Lemma word_last input :
  32 <= len input ->
  exists x, input !! 31%nat = Some x /\ index (take 32 input) 31 = Ok x.
Proof.
  intros Hlen.
  destruct (index_in_bounds (take 32 input) 31) as (x & Hx & Hi).
  { rewrite len_take_word; lia. }
  exists x. split; [|exact Hi].
  change (Z.to_nat 31) with 31%nat in Hx.
  now rewrite lookup_take_lt in Hx by lia.
Qed.

(** A type read from one word: [decode] takes the first 32 bytes, hands
    them to the reader of the kind and returns what follows them. *)
Lemma decode_word t input (read : bytes -> outcome Value) :
  32 <= len input ->
  match t_kind t with
  | KindBool => read = decodeBool
  | KindInt | KindUInt => read = readInteger t
  | KindAddress => read = readAddr
  | KindFixedBytes => read = readFixedBytes t
  | KindFunction => read = readFunctionType t
  | _ => False
  end ->
  decode t input = (v ← read (take 32 input); Ok (v, drop 32 input)).
Proof.
  intros Hlen Hread. rewrite decode_eq. unfold decode_body, isVariableInput.
  destruct (t_kind t); try contradiction; subst read; simpl;
    rewrite readSlice_word, readSlice_rest by lia; simpl;
    match goal with |- context [held ?r] => destruct r end; reflexivity.
Qed.

(** C9: decoding [bool] looks at the final byte of the word only: 0 gives
    false, 1 gives true, and every other byte (0x02 among them) gives the
    error "bad boolean". *)
Theorem decode_bool_final_byte (t : AbiType) (input : bytes) (x : byte) :
  t_kind t = KindBool ->
  input !! 31%nat = Some x ->
  (byteZ x = 0 -> Decode t input = Ok (VBool false)) /\
  (byteZ x = 1 -> Decode t input = Ok (VBool true)) /\
  (byteZ x <> 0 -> byteZ x <> 1 -> Decode t input = Err ErrBadBoolean) /\
  (x = x02 -> Decode t input = Err ErrBadBoolean).
Proof.
  intros Hk Hx.
  assert (Hlen : 32 <= len input).
  { apply lookup_lt_Some in Hx. unfold len. lia. }
  assert (HD : Decode t input =
               match byteZ x with
               | 0 => Ok (VBool false)
               | 1 => Ok (VBool true)
               | _ => Err ErrBadBoolean
               end).
  { unfold Decode. rewrite (decode_word t input decodeBool Hlen)
      by (rewrite Hk; reflexivity).
    destruct (word_last input Hlen) as (y & Hy & Hi).
    assert (y = x) as -> by congruence.
    unfold decodeBool. rewrite Hi. simpl.
    destruct (byteZ x) as [|[| |]|]; reflexivity. }
  rewrite HD. repeat split.
  - intros ->. reflexivity.
  - intros ->. reflexivity.
  - intros H0 H1. destruct (byteZ x) as [|[| |]|]; congruence.
  - intros ->. reflexivity.
Qed.

Lemma decode_bool_final_byte_witness :
  Decode bool_type (word_of [x02]) = Err ErrBadBoolean.
Proof.
  refine (proj2 (proj2 (proj2
    (decode_bool_final_byte bool_type (word_of [x02]) x02 _ _))) _);
    reflexivity.
Defined.

(** C8: a word read through [big.Int] is big-endian two's complement over
    256 bits: with [U] the unsigned value of the word, a Uint type decodes
    to [U], an Int type to [U] up to [2^255 - 1] and to [U - 2^256]
    above. *)
Theorem decode_int256_twos_complement (t : AbiType) (input : bytes) :
  t_t t = Some reflect_other ->
  32 <= len input ->
  let U := SetBytes (take 32 input) in
  0 <= U < 2 ^ 256 /\
  (t_kind t = KindUInt ->
   readInteger t (take 32 input) = Ok (VBigInt U) /\
   Decode t input = Ok (VBigInt U)) /\
  (t_kind t = KindInt ->
   let v := if U <=? 2 ^ 255 - 1 then U else U - 2 ^ 256 in
   readInteger t (take 32 input) = Ok (VBigInt v) /\
   Decode t input = Ok (VBigInt v) /\
   - 2 ^ 255 <= v < 2 ^ 255).
Proof.
  intros Ht Hlen U.
  assert (HU : 0 <= U < 2 ^ 256).
  { pose proof (SetBytes_range (take 32 input)) as H.
    rewrite len_take_word in H by lia. exact H. }
  split; [exact HU|]. split.
  - intros Hk.
    assert (Hr : readInteger t (take 32 input) = Ok (VBigInt U)).
    { unfold readInteger. rewrite Ht, Hk. reflexivity. }
    split; [exact Hr|].
    unfold Decode. rewrite (decode_word t input (readInteger t) Hlen)
      by (rewrite Hk; reflexivity).
    now rewrite Hr.
  - intros Hk v.
    assert (Hr : readInteger t (take 32 input) = Ok (VBigInt v)).
    { unfold readInteger. rewrite Ht, Hk. simpl. fold U. subst v.
      unfold maxInt256, maxUint256.
      destruct (Z.gtb_spec U (2 ^ 255 + -1)), (Z.leb_spec U (2 ^ 255 - 1));
        try lia; do 2 f_equal; lia. }
    split; [exact Hr|]. split.
    + unfold Decode. rewrite (decode_word t input (readInteger t) Hlen)
        by (rewrite Hk; reflexivity).
      now rewrite Hr.
    + subst v. destruct (Z.leb_spec U (2 ^ 255 - 1)); lia.
Qed.

Lemma decode_int256_twos_complement_witness :
  Decode int256_type (replicate 32 xff) = Ok (VBigInt (-1)).
Proof.
  refine (proj1 (proj2 (proj2 (proj2
    (decode_int256_twos_complement int256_type (replicate 32 xff) _ _))
    _))); [reflexivity | vm_compute; discriminate | reflexivity].
Defined.

(** C10: an Int or Uint type held in a native 8, 16, 32 or 64-bit Go kind
    decodes from every input that holds a word, and its value is that of
    the last 1, 2, 4 or 8 bytes of the word, whatever the bytes before
    them are. *)
Theorem decode_native_width (t : AbiType) (input : bytes) :
  t_kind t = KindInt \/ t_kind t = KindUInt ->
  32 <= len input ->
  let last k := SetBytes (take k (drop (32 - k) input)) in
  (t_t t = Some Uint8 -> Decode t input = Ok (VUint8 (last 1%nat))) /\
  (t_t t = Some Uint16 -> Decode t input = Ok (VUint16 (last 2%nat))) /\
  (t_t t = Some Uint32 -> Decode t input = Ok (VUint32 (last 4%nat))) /\
  (t_t t = Some Uint64 -> Decode t input = Ok (VUint64 (last 8%nat))) /\
  (t_t t = Some Int8 ->
   Decode t input = Ok (VInt8 (toSigned 8 (last 1%nat)))) /\
  (t_t t = Some Int16 ->
   Decode t input = Ok (VInt16 (toSigned 16 (last 2%nat)))) /\
  (t_t t = Some Int32 ->
   Decode t input = Ok (VInt32 (toSigned 32 (last 4%nat)))) /\
  (t_t t = Some Int64 ->
   Decode t input = Ok (VInt64 (toSigned 64 (last 8%nat)))).
Proof.
  intros Hk Hlen last.
  assert (HD : Decode t input =
               (v ← readInteger t (take 32 input); Ok v)).
  { unfold Decode. rewrite (decode_word t input (readInteger t) Hlen)
      by (destruct Hk as [-> | ->]; reflexivity).
    now destruct (readInteger t (take 32 input)). }
  assert (H8 : index (take 32 input) (32 - 1) = Ok
                 match take 1 (drop 31 input) with
                 | [x] => x
                 | _ => x00
                 end /\
               byteZ match take 1 (drop 31 input) with
                     | [x] => x
                     | _ => x00
                     end = last 1%nat).
  { destruct (word_last input Hlen) as (x & Hx & Hi).
    subst last. cbn beta. change (32 - 1)%nat with 31%nat.
    rewrite (drop_S _ _ _ Hx). rewrite firstn_cons, take_0.
    split; [exact Hi|]. unfold SetBytes. simpl. reflexivity. }
  destruct H8 as [Hi8 Hv8].
  rewrite HD. unfold readInteger. rewrite len_take_word by lia.
  pose proof (word_suffix input 2 ltac:(lia) Hlen) as H16.
  pose proof (word_suffix input 4 ltac:(lia) Hlen) as H32.
  pose proof (word_suffix input 8 ltac:(lia) Hlen) as H64.
  change (32 - Z.of_nat 2) with (32 - 2) in H16.
  change (32 - Z.of_nat 4) with (32 - 4) in H32.
  change (32 - Z.of_nat 8) with (32 - 8) in H64.
  repeat split; intros ->; rewrite ?Hi8, ?H16, ?H32, ?H64; simpl;
    rewrite ?Hv8; reflexivity.
Qed.

Lemma decode_native_width_witness :
  Decode uint8_type (replicate 31 xff ++ [x07]) = Ok (VUint8 7).
Proof.
  refine (proj1
    (decode_native_width uint8_type (replicate 31 xff ++ [x07]) _ _) _);
    [right; reflexivity | vm_compute; discriminate | reflexivity].
Defined.

(** The payloads of the specification's scenarios, decoded: the string
    "dave" behind offset [0x20] and length 4, and the three words of
    [uint256[]] behind offset [0x20] and length 3, under the decimal index
    of the unnamed element. *)
Example Decode_tuple_string_dave :
  Decode tuple_string_type
    (word_of [x20] ++ word_of [x04] ++
     ["d"; "a"; "v"; "e"]%byte ++ replicate 28 x00) =
  Ok (VMap {[ "a" := VString ["d"; "a"; "v"; "e"]%byte ]}).
Proof. vm_compute. reflexivity. Qed.

Example Decode_tuple_uint256_slice_123 :
  Decode tuple_uint256_slice_type
    (word_of [x20] ++ word_of [x03] ++
     word_of [x01] ++ word_of [x02] ++ word_of [x03]) =
  Ok (VMap {[ "0" := VArray [VBigInt 1; VBigInt 2; VBigInt 3] ]}).
Proof. vm_compute. reflexivity. Qed.

(** ** Offsets of dynamic elements *)

Lemma readOffset_word data (n : Z) :
  32 <= len data ->
  readOffset data n =
  let o := SetBytes (take 32 data) in
  if 2 ^ 63 <=? o then Err ErrOffsetLargerThanInt64
  else if o >? n then Err (ErrOffsetInsufficient n o)
  else Ok o.
Proof.
  intros Hlen. unfold readOffset. rewrite slice_prefix by lia. simpl.
  pose proof (SetBytes_range (take (Pos.to_nat 32) data)) as [H0 _].
  now rewrite BitLen_gt_63.
Qed.

(** [readOffset] reads [data[0:32]] unchecked. *)
Lemma readOffset_short data (n : Z) :
  len data < 32 -> readOffset data n = Panic.
Proof.
  intros Hlen. unfold readOffset. rewrite slice_out_of_bounds by lia.
  reflexivity.
Qed.

(** The step of the two loops at a dynamic element, with a word of head
    left. *)
Lemma dynamic_element_step (orig data : bytes) (et : AbiType) :
  32 <= len data ->
  isDynamicType et = true ->
  let o := SetBytes (take 32 data) in
  (2 ^ 63 <= o \/ len orig < o ->
   exists e, readOffset data (len orig) = Err e /\ is_Offset_error e) /\
  (o < 2 ^ 63 -> o <= len orig -> readOffset data (len orig) = Ok o) /\
  (forall arg rest indx res,
     Elem arg = Some et ->
     let tuple_loop :=
       decodeTuple_loop decode orig (arg :: rest) indx data res in
     (2 ^ 63 <= o -> tuple_loop = Err ErrOffsetLargerThanInt64) /\
     (o < 2 ^ 63 -> len orig < o ->
      tuple_loop = Err (ErrOffsetInsufficient (len orig) o)) /\
     (o < 2 ^ 63 -> o <= len orig ->
      tuple_loop =
      ('(val, _) ← decode et (drop (Z.to_nat o) orig);
       let name := if decide (Name arg = "") then Itoa indx else Name arg in
       match res !! name with
       | None =>
           decodeTuple_loop decode orig rest (indx + 1) (drop 32 data)
             (<[name := val]> res)
       | Some _ => Err ErrTupleRepeated
       end))) /\
  (forall n res,
     let array_loop :=
       decodeArraySlice_loop decode (Some et) orig (S n) data res in
     (2 ^ 63 <= o -> array_loop = Err ErrOffsetLargerThanInt64) /\
     (o < 2 ^ 63 -> len orig < o ->
      array_loop = Err (ErrOffsetInsufficient (len orig) o)) /\
     (o < 2 ^ 63 -> o <= len orig ->
      array_loop =
      ('(val, _) ← decode et (drop (Z.to_nat o) orig);
       decodeArraySlice_loop decode (Some et) orig n (drop 32 data)
         (res ++ [val])))).
Proof.
  intros Hlen Hdyn o.
  pose proof (readOffset_word data (len orig) Hlen) as Hro.
  cbv zeta in Hro. fold o in Hro.
  pose proof (SetBytes_range (take 32 data)) as [Ho _]. fold o in Ho.
  assert (Hbig : 2 ^ 63 <= o ->
                 readOffset data (len orig) = Err ErrOffsetLargerThanInt64).
  { intros H. rewrite Hro. now destruct (Z.leb_spec (2 ^ 63) o); [|lia]. }
  assert (Hfar : o < 2 ^ 63 -> len orig < o ->
                 readOffset data (len orig) =
                 Err (ErrOffsetInsufficient (len orig) o)).
  { intros H1 H2. rewrite Hro.
    destruct (Z.leb_spec (2 ^ 63) o); [lia|].
    now destruct (Z.gtb_spec o (len orig)); [|lia]. }
  assert (Hok : o < 2 ^ 63 -> o <= len orig ->
                readOffset data (len orig) = Ok o).
  { intros H1 H2. rewrite Hro.
    destruct (Z.leb_spec (2 ^ 63) o); [lia|].
    now destruct (Z.gtb_spec o (len orig)); [lia|]. }
  split; [|split; [exact Hok|split]].
  - intros [H|H].
    + exists ErrOffsetLargerThanInt64. split; [auto|exact I].
    + destruct (Z.lt_ge_cases o (2 ^ 63)).
      * exists (ErrOffsetInsufficient (len orig) o). split; [auto|exact I].
      * exists ErrOffsetLargerThanInt64. split; [auto|exact I].
  - intros arg rest indx res Harg tuple_loop. subst tuple_loop.
    cbn [decodeTuple_loop]. rewrite Harg, Hdyn. cbn [negb].
    repeat split.
    + intros H. now rewrite (Hbig H).
    + intros H1 H2. now rewrite (Hfar H1 H2).
    + intros H1 H2. rewrite (Hok H1 H2). cbn [mbind outcome_bind].
      rewrite !slice_suffix by lia. cbn [mbind outcome_bind].
      destruct (decode et (drop (Z.to_nat o) orig)) as [[val tail]| |];
        reflexivity.
  - intros n res array_loop. subst array_loop.
    cbn [decodeArraySlice_loop]. cbv zeta. rewrite Hdyn. cbn [negb].
    repeat split.
    + intros H. now rewrite (Hbig H).
    + intros H1 H2. now rewrite (Hfar H1 H2).
    + intros H1 H2. rewrite (Hok H1 H2). cbn [mbind outcome_bind].
      rewrite !slice_suffix by lia. cbn [mbind outcome_bind].
      destruct (decode et (drop (Z.to_nat o) orig)) as [[val tail]| |];
        reflexivity.
Qed.

(** The elements decoded so far leave a head and a result, from which the
    loop goes on. *)
Lemma decodeTuple_loop_app orig (pre post : list (TupleElem AbiType))
    (indx : Z) data (res res' : gmap string Value) (head : bytes) :
  decodeTuple_loop decode orig pre indx data res = Ok (VMap res', head) ->
  decodeTuple_loop decode orig (pre ++ post) indx data res =
  decodeTuple_loop decode orig post (indx + len pre) head res'.
Proof.
  revert indx data res.
  induction pre as [|arg pre IH]; intros indx data res.
  - intros [= <- <-]. unfold len. simpl. now rewrite Z.add_0_r.
  - cbn [app decodeTuple_loop].
    destruct (Elem arg) as [et|]; [|discriminate].
    destruct (if isDynamicType et then _ else _) as [entry| |];
      simpl; try discriminate.
    destruct (decode et entry) as [[val tail]| |]; simpl; try discriminate.
    destruct (if negb (isDynamicType et) then _ else _) as [rest| |];
      simpl; try discriminate.
    destruct (res !! _); [discriminate|].
    intros H. rewrite (IH _ _ _ H). f_equal.
    unfold len. cbn [length]. lia.
Qed.

Lemma decodeArraySlice_loop_add (elem : option AbiType) orig (n k : nat)
    data (res res' : list Value) (head : bytes) :
  decodeArraySlice_loop decode elem orig n data res =
  Ok (VArray res', head) ->
  decodeArraySlice_loop decode elem orig (n + k) data res =
  decodeArraySlice_loop decode elem orig k head res'.
Proof.
  revert data res. induction n as [|n IH]; intros data res.
  - now intros [= <- <-].
  - cbn [Nat.add decodeArraySlice_loop].
    destruct elem as [et|]; [|discriminate]. cbv zeta.
    destruct (if isDynamicType et then _ else _) as [entry| |];
      simpl; try discriminate.
    destruct (decode et entry) as [[val tail]| |]; simpl; try discriminate.
    destruct (if negb (isDynamicType et) then _ else _) as [rest| |];
      simpl; try discriminate.
    apply IH.
Qed.

(** Past its checks [decodeArraySlice] runs the loop on its own input. *)
Lemma decodeArraySlice_checked t data (size : Z) :
  0 <= size -> 32 * size <= len data -> len data < 2 ^ 63 ->
  t_t t <> None ->
  decodeArraySlice decode t data size =
  decodeArraySlice_loop decode (t_elem t) data (Z.to_nat size) data [].
Proof.
  intros H0 Hfit Hlen Ht. unfold decodeArraySlice.
  destruct (Z.ltb_spec size 0); [lia|].
  rewrite wrap64_small by lia.
  destruct (Z.gtb_spec (32 * size) (len data)); [lia|].
  destruct (t_t t); [|contradiction]. now destruct (t_kind t).
Qed.

(** C4: a dynamic element of a tuple, of an array or of a slice, met with
    a word of head left once the elements before it are decoded.  The
    decoder reads the offset [o] from that word and returns an offset
    error when [o] is 2^63 or more, or exceeds the length of the region:
    the input of [decodeTuple] and of [decodeArraySlice], which is the
    input of [decode] for a tuple and for an array, and what follows the
    length prefix for a slice.  Otherwise the element is decoded from
    [region[o:]], and the loop goes on after the word. *)
Theorem dynamic_element_offset (t et : AbiType) (region head : bytes) :
  isDynamicType et = true ->
  32 <= len head ->
  let o := SetBytes (take 32 head) in
  (forall tp pre arg post res,
     t_tuple t = Some (pre ++ arg :: post) -> Elem arg = Some et ->
     t_tuple tp = Some pre ->
     decodeTuple decode tp region = Ok (VMap res, head) ->
     let name := if decide (Name arg = "") then Itoa (len pre)
                 else Name arg in
     (2 ^ 63 <= o ->
      decodeTuple decode t region = Err ErrOffsetLargerThanInt64) /\
     (o < 2 ^ 63 -> len region < o ->
      decodeTuple decode t region =
      Err (ErrOffsetInsufficient (len region) o)) /\
     (o < 2 ^ 63 -> o <= len region ->
      decodeTuple decode t region =
      ('(val, _) ← decode et (drop (Z.to_nat o) region);
       match res !! name with
       | None =>
           decodeTuple_loop decode region post (len pre + 1)
             (drop 32 head) (<[name := val]> res)
       | Some _ => Err ErrTupleRepeated
       end))) /\
  (forall (i : nat) (size : Z) res,
     t_elem t = Some et -> t_t t <> None ->
     Z.of_nat i < size -> 32 * size <= len region -> len region < 2 ^ 63 ->
     decodeArraySlice decode t region (Z.of_nat i) =
     Ok (VArray res, head) ->
     (2 ^ 63 <= o ->
      decodeArraySlice decode t region size =
      Err ErrOffsetLargerThanInt64) /\
     (o < 2 ^ 63 -> len region < o ->
      decodeArraySlice decode t region size =
      Err (ErrOffsetInsufficient (len region) o)) /\
     (o <= len region ->
      decodeArraySlice decode t region size =
      ('(val, _) ← decode et (drop (Z.to_nat o) region);
       decodeArraySlice_loop decode (Some et) region
         (Z.to_nat size - S i) (drop 32 head) (res ++ [val])))) /\
  (forall input,
     (t_kind t = KindTuple ->
      decode t input = decodeTuple decode t input) /\
     (t_kind t = KindArray ->
      decode t input = decodeArraySlice decode t input (t_size t)) /\
     (t_kind t = KindSlice -> 32 <= len input ->
      SetBytes (take 32 input) < 2 ^ 63 ->
      SetBytes (take 32 input) <= len input ->
      decode t input =
      decodeArraySlice decode t (drop 32 input)
        (SetBytes (take 32 input)))).
Proof.
  intros Hdyn Hlen o.
  pose proof (SetBytes_range (take 32 head)) as [Ho _]. fold o in Ho.
  destruct (dynamic_element_step region head et Hlen Hdyn)
    as (_ & _ & Htup & Harr). fold o in Htup, Harr.
  split; [|split].
  - intros tp pre arg post res Ht Harg Htp Hpre name.
    unfold decodeTuple in *. rewrite Htp in Hpre. rewrite Ht.
    rewrite (decodeTuple_loop_app _ _ _ _ _ _ _ _ Hpre), Z.add_0_l.
    destruct (Htup arg post (len pre) res Harg) as (H1 & H2 & H3).
    split; [exact H1|]. split; [exact H2|exact H3].
  - intros i size res Helem Ht Hi Hfit Hreg Hpre.
    rewrite decodeArraySlice_checked in Hpre by first [lia|assumption].
    rewrite Nat2Z.id, Helem in Hpre.
    rewrite decodeArraySlice_checked by first [lia|assumption]. rewrite Helem.
    replace (Z.to_nat size) with (i + S (Z.to_nat size - S i))%nat by lia.
    rewrite (decodeArraySlice_loop_add _ _ _ _ _ _ _ _ Hpre).
    destruct (Harr (Z.to_nat size - S i)%nat res) as (H1 & H2 & H3).
    replace (i + S (Z.to_nat size - S i) - S i)%nat
      with (Z.to_nat size - S i)%nat by lia.
    split; [exact H1|]. split; [exact H2|].
    intros Hfit'. apply H3; lia.
  - intros input. repeat split.
    + intros Hk. rewrite decode_eq. unfold decode_body, isVariableInput.
      now rewrite Hk.
    + intros Hk. rewrite decode_eq. unfold decode_body, isVariableInput.
      now rewrite Hk.
    + intros Hk H32 Hsmall Hfit. rewrite decode_eq.
      unfold decode_body, isVariableInput. rewrite Hk.
      unfold readLength. rewrite readSlice_word by lia. simpl.
      pose proof (SetBytes_range (take 32 input)) as [Hn _].
      rewrite BitLen_gt_63 by exact Hn.
      destruct (Z.leb_spec (2 ^ 63) (SetBytes (take 32 input))); [lia|].
      destruct (Z.gtb_spec (SetBytes (take 32 input)) (len input)); [lia|].
      simpl. now rewrite readSlice_rest by lia.
Qed.

(** A tuple whose offset word is [0xffff_ffff_ffff_ffff], and one whose
    string lies behind the offset [0x20]. *)
Lemma dynamic_element_offset_witness :
  Decode tuple_string_type (word_of (replicate 8 xff)) =
  Err ErrOffsetLargerThanInt64 /\
  decode tuple_string_type tuple_string_dave =
  ('(val, _) ← decode string_type (drop 32 tuple_string_dave);
   Ok (VMap {[ "a" := val ]}, drop 32 tuple_string_dave)) /\
  decode string_slice_type (word_of [x01] ++ tuple_string_dave) =
  ('(val, _) ← decode string_type (drop 32 tuple_string_dave);
   Ok (VArray [val], drop 32 tuple_string_dave)).
Proof.
  split; [|split].
  - destruct (dynamic_element_offset tuple_string_type string_type
                (word_of (replicate 8 xff)) (word_of (replicate 8 xff))
                eq_refl ltac:(vm_compute; discriminate))
      as (Htup & _ & Hreg).
    destruct (Htup (arguments_tuple []) []
                {| Name := "a"; Elem := Some string_type;
                   Indexed := false |} [] ∅
                eq_refl eq_refl eq_refl eq_refl) as (H1 & _).
    destruct (Hreg (word_of (replicate 8 xff))) as (Hdec & _).
    unfold Decode. rewrite (Hdec eq_refl), H1; [reflexivity|].
    vm_compute. discriminate.
  - destruct (dynamic_element_offset tuple_string_type string_type
                tuple_string_dave tuple_string_dave
                eq_refl ltac:(vm_compute; discriminate))
      as (Htup & _ & Hreg).
    destruct (Htup (arguments_tuple []) []
                {| Name := "a"; Elem := Some string_type;
                   Indexed := false |} [] ∅
                eq_refl eq_refl eq_refl eq_refl) as (_ & _ & H3).
    destruct (Hreg tuple_string_dave) as (Hdec & _).
    rewrite (Hdec eq_refl), H3; [reflexivity| |]; vm_compute;
      [reflexivity|discriminate].
  - destruct (dynamic_element_offset string_slice_type string_type
                tuple_string_dave tuple_string_dave
                eq_refl ltac:(vm_compute; discriminate))
      as (_ & Harr & Hreg).
    destruct (Harr 0%nat 1 [] eq_refl ltac:(discriminate)
                ltac:(lia) ltac:(vm_compute; discriminate)
                ltac:(vm_compute; reflexivity) eq_refl) as (_ & _ & H3).
    destruct (Hreg (word_of [x01] ++ tuple_string_dave)) as (_ & _ & Hdec).
    rewrite Hdec; [|reflexivity|vm_compute; discriminate
                   |vm_compute; reflexivity|vm_compute; discriminate].
    change (drop 32 (word_of [x01] ++ tuple_string_dave))
      with tuple_string_dave.
    change (SetBytes (take 32 (word_of [x01] ++ tuple_string_dave)))
      with 1.
    rewrite H3; [reflexivity|]. vm_compute. discriminate.
Defined.

(** ** The bounds checks of [readSlice] and of [decodeTuple] *)

(** X2: within the bounds [readSlice] returns the designated bytes (with
    [length] 0 those from [start] on, with a negative [length] all but the
    last [-length], with a negative [start] counting from the end), and
    when the end is past [len(input)] it returns its error. *)
Lemma readSlice_designated input (start length : Z) :
  let first := if start <? 0 then len input + start else start in
  let last := if length <? 0 then len input + length
              else if length >? 0 then first + length
              else len input in
  len input < 2 ^ 62 -> - 2 ^ 62 <= start < 2 ^ 62 ->
  - 2 ^ 62 <= length < 2 ^ 62 ->
  (0 <= first -> first <= last -> last <= len input ->
   readSlice input start length =
   Ok (take (Z.to_nat (last - first)) (drop (Z.to_nat first) input))) /\
  (len input < last ->
   readSlice input start length =
   Err (ErrReadSlice (len input) first length)).
Proof.
  intros first last Hn Hs Hl. pose proof (len_nonneg input) as H0.
  unfold readSlice. cbv zeta.
  assert (Hf : (if start <? 0 then wrap64 (len input + start) else start) =
               first).
  { subst first. destruct (start <? 0); [|reflexivity].
    apply wrap64_small. lia. }
  rewrite Hf.
  assert (Hfr : - 2 ^ 62 <= first < 2 ^ 62).
  { subst first. destruct (Z.ltb_spec start 0); lia. }
  assert (Hla : (if length <? 0 then wrap64 (len input + length)
                 else if length >? 0 then wrap64 (first + length)
                 else len input) = last).
  { subst last. destruct (Z.ltb_spec length 0); [apply wrap64_small; lia|].
    destruct (length >? 0); [apply wrap64_small; lia|reflexivity]. }
  rewrite Hla. split.
  - intros H1 H2 H3. destruct (Z.ltb_spec (len input) last); [lia|].
    now apply slice_in_bounds.
  - intros H1. now destruct (Z.ltb_spec (len input) last); [|lia].
Qed.

(** [readSlice] compares [end] with [len(input)] and nothing else: a
    [start] past [end] reaches the slice expression. *)
Lemma readSlice_start_unchecked input (start : Z) :
  len input < start -> readSlice input start 0 = Panic.
Proof.
  intros H. pose proof (len_nonneg input). unfold readSlice. cbv zeta.
  destruct (Z.ltb_spec start 0); [lia|]. simpl.
  rewrite Z.ltb_irrefl. apply slice_out_of_bounds. lia.
Qed.

(** C5 (failing input): on the empty buffer, [readSlice(buf, 32, 0)]
    evaluates [buf[32:0]], which panics, where the specification has an
    error returned. *)
Theorem readSlice_empty_32_0_panics : readSlice [] 32 0 = Panic.
Proof. reflexivity. Qed.

(** A dynamic element met with less than a word of head left: [readOffset]
    slices [data[0:32]] with no check before it. *)
Lemma decodeTuple_loop_short orig data arg rest indx res et :
  Elem arg = Some et -> isDynamicType et = true -> len data < 32 ->
  decodeTuple_loop decode orig (arg :: rest) indx data res = Panic.
Proof.
  intros Harg Hdyn Hlen. cbn [decodeTuple_loop].
  rewrite Harg, Hdyn, readOffset_short by lia. reflexivity.
Qed.

(** C1 (failing input): [Decode] of [tuple(string)] on the empty input
    panics in [readOffset], where the specification has an error
    returned. *)
Theorem Decode_tuple_string_empty_panics :
  Decode tuple_string_type [] = Panic.
Proof. reflexivity. Qed.

(** ** [Clone] *)

Lemma map_fixed {A} (f : A -> A) (l : list A) :
  map f l = l <-> Forall (fun x => f x = x) l.
Proof.
  induction l as [|x l IH]; simpl.
  - split; [constructor|reflexivity].
  - split.
    + intros [= Hx Hl]. constructor; [exact Hx|]. now apply IH.
    + intros H. inversion H as [|? ? Hx Hl]; subst.
      rewrite Hx. f_equal. now apply IH.
Qed.

Lemma TupleElem_eta (v : TupleElem AbiType) :
  v = {| Name := Name v; Elem := Elem v; Indexed := Indexed v |}.
Proof. now destruct v. Qed.

(** The clone carries no name, and is the tree itself exactly when the
    tree carries none. *)
Lemma cloneType_unnamed t :
  unnamed (cloneType t) = true /\ (cloneType t = t <-> unnamed t = true).
Proof.
  induction t as [k sz el IHel raw tu IHtu tt].
  assert (Hel : match el with
                | Some e => unnamed (cloneType e) = true /\
                            (cloneType e = e <-> unnamed e = true)
                | None => True
                end).
  { destruct IHel; [assumption|exact I]. }
  assert (Htu : match tu with
                | Some l =>
                    Forall (fun v =>
                      match Elem v with
                      | Some e => unnamed (cloneType e) = true /\
                                  (cloneType e = e <-> unnamed e = true)
                      | None => True
                      end) l
                | None => True
                end).
  { destruct IHtu as [l Hl|]; [|exact I].
    induction Hl as [|v Hv l Hl IH]; constructor; [|exact IH].
    destruct Hv as [n e He i]. simpl. destruct He; [assumption|exact I]. }
  clear IHel IHtu. split.
  - simpl. apply andb_true_iff. split.
    + destruct el; [apply Hel|reflexivity].
    + destruct tu as [l|]; [|reflexivity].
      rewrite forallb_forall. intros v' Hin.
      apply in_map_iff in Hin as (v & <- & Hin). simpl.
      rewrite Forall_forall in Htu. specialize (Htu v).
      destruct (Elem v); [|reflexivity].
      apply Htu. now apply list_elem_of_In.
  - simpl. rewrite andb_true_iff. split.
    + intros [= He Ht]. split.
      * destruct el as [e|]; [|reflexivity].
        injection He as He. now apply Hel.
      * destruct tu as [l|]; [|reflexivity].
        injection Ht as Ht. apply map_fixed in Ht.
        rewrite forallb_forall. intros v Hin.
        rewrite Forall_forall in Ht, Htu.
        apply list_elem_of_In in Hin.
        specialize (Ht v Hin). specialize (Htu v Hin).
        rewrite (TupleElem_eta v) in Ht at 3. injection Ht as Hn Hv.
        rewrite <- Hn. simpl.
        destruct (Elem v) as [e|]; [|reflexivity].
        injection Hv as Hv. now apply Htu.
    + intros [He Ht]. f_equal.
      * destruct el as [e|]; [|reflexivity].
        f_equal. now apply Hel.
      * destruct tu as [l|]; [|reflexivity].
        f_equal. apply map_fixed.
        rewrite forallb_forall in Ht.
        rewrite Forall_forall in Htu |- *. intros v Hin.
        specialize (Htu v Hin). apply list_elem_of_In in Hin.
        specialize (Ht v Hin). apply andb_true_iff in Ht as [Hn Hu].
        apply bool_decide_eq_true in Hn.
        destruct v as [n e i]. simpl in *. subst n. f_equal.
        destruct e as [e|]; [|reflexivity].
        f_equal. now apply Htu.
Qed.

(** C2 (as amended): [Clone] keeps nil, and the clone of a tree has its
    kind, size, raw string and Go type, the clone of its element type, and
    for a tuple the same sequence of elements, each with the clone of the
    element type and the indexed flag of the original and with an empty
    name; so the clone is equal to the tree exactly when no tuple element
    of the tree is named. *)
Theorem Clone_up_to_names (t : AbiType) :
  Type_Clone None = None /\
  exists c,
    Type_Clone (Some t) = Some c /\
    t_kind c = t_kind t /\ t_size c = t_size t /\
    t_raw c = t_raw t /\ t_t c = t_t t /\
    t_elem c = Type_Clone (t_elem t) /\
    t_tuple c =
      option_map (map (fun v => {| Name := "";
                                   Elem := Type_Clone (Elem v);
                                   Indexed := Indexed v |})) (t_tuple t) /\
    unnamed c = true /\
    (c = t <-> unnamed t = true).
Proof.
  split; [reflexivity|]. exists (cloneType t).
  destruct (cloneType_unnamed t) as [Hu Hiff].
  destruct t as [k sz el raw tu tt].
  repeat split; try reflexivity; try assumption; apply Hiff.
Qed.

(** C2 (counterexample): the clone of a tuple type with an element named
    [amount] has that element unnamed, and is not equal to the type. *)
Lemma Clone_drops_names :
  Name <$> tuple_range named_tuple_type = ["amount"] /\
  (exists c, Type_Clone (Some named_tuple_type) = Some c /\
             Name <$> tuple_range c = [""]) /\
  Type_Clone (Some named_tuple_type) <> Some named_tuple_type.
Proof.
  split; [reflexivity|]. split.
  - eexists. split; reflexivity.
  - discriminate.
Qed.

(** ** Overloaded names *)

Section Overloads.
Context {V : Type} (m : gmap string V) (rawName : string).

(** Distinct suffixes give distinct names. *)
Lemma candidate_inj : Inj (=) (=) (fun idx => rawName +:+ Itoa idx).
Proof.
  intros i j H. apply (inj (String.append rawName)) in H.
  now apply (inj pretty) in H.
Qed.

(** A map cannot hold the names of more suffixes than it has entries. *)
Lemma candidates_taken (n : nat) :
  (forall j, 0 <= j < Z.of_nat n -> is_Some (m !! (rawName +:+ Itoa j))) ->
  (n <= size m)%nat.
Proof.
  intros Htaken.
  set (names := (fun idx => rawName +:+ Itoa idx) <$> seqZ 0 (Z.of_nat n)).
  assert (Hnd : NoDup names).
  { pose proof candidate_inj as Hinj. apply (NoDup_fmap_2 _), NoDup_seqZ. }
  assert (Hsub : (list_to_set names : gset string) ⊆ dom m).
  { intros name Hin. apply elem_of_list_to_set in Hin.
    apply list_elem_of_fmap in Hin as (j & -> & Hj).
    apply elem_of_seqZ in Hj. apply elem_of_dom, Htaken. lia. }
  apply subseteq_size in Hsub.
  rewrite size_list_to_set, size_dom in Hsub by exact Hnd.
  subst names. rewrite length_fmap, length_seqZ in Hsub. lia.
Qed.

Lemma overloaded_loop_Some fuel idx name :
  overloaded_loop m rawName fuel idx = Some name ->
  m !! name = None /\
  exists k, idx <= k < idx + Z.of_nat fuel /\ name = rawName +:+ Itoa k /\
    forall j, idx <= j < k -> is_Some (m !! (rawName +:+ Itoa j)).
Proof.
  revert idx. induction fuel as [|fuel IH]; intros idx; [discriminate|].
  cbn [overloaded_loop]. cbv zeta.
  destruct (m !! (rawName +:+ Itoa idx)) as [v|] eqn:Hidx.
  - intros H. destruct (IH _ H) as (Hfree & k & Hk & -> & Hbelow).
    split; [exact Hfree|]. exists k. split; [lia|]. split; [reflexivity|].
    intros j Hj. destruct (decide (j = idx)) as [->|Hne].
    + now rewrite Hidx.
    + apply Hbelow. lia.
  - intros [= <-]. split; [exact Hidx|]. exists idx.
    split; [lia|]. split; [reflexivity|]. intros j Hj. lia.
Qed.

Lemma overloaded_loop_None fuel idx :
  overloaded_loop m rawName fuel idx = None ->
  forall j, idx <= j < idx + Z.of_nat fuel ->
    is_Some (m !! (rawName +:+ Itoa j)).
Proof.
  revert idx. induction fuel as [|fuel IH]; intros idx H j Hj; [lia|].
  revert H. cbn [overloaded_loop]. cbv zeta.
  destruct (m !! (rawName +:+ Itoa idx)) as [v|] eqn:Hidx; [|discriminate].
  intros H. destruct (decide (j = idx)) as [->|Hne].
  - now rewrite Hidx.
  - apply (IH _ H). lia.
Qed.

(** The loop ends within [size m + 1] probes. *)
Lemma overloaded_loop_ends fuel :
  (size m < fuel)%nat -> is_Some (overloaded_loop m rawName fuel 0).
Proof.
  intros Hfuel.
  destruct (overloaded_loop m rawName fuel 0) eqn:H; [eauto|].
  pose proof (candidates_taken fuel (overloaded_loop_None _ _ H)). lia.
Qed.

Lemma overloaded_result_unique name1 name2 :
  overloaded_result m rawName name1 -> overloaded_result m rawName name2 ->
  name1 = name2.
Proof.
  intros [Hf1 [[Hr1 ->]|[Hr1 (i1 & Hi1 & -> & Hb1)]]]
         [Hf2 [[Hr2 ->]|[Hr2 (i2 & Hi2 & -> & Hb2)]]];
    try reflexivity;
    try (rewrite Hr1 in Hr2; now destruct Hr2);
    try (rewrite Hr2 in Hr1; now destruct Hr1).
  destruct (Z.lt_trichotomy i1 i2) as [H|[->|H]]; [|reflexivity|].
  - destruct (Hb2 i1 ltac:(lia)) as [v Hv]. congruence.
  - destruct (Hb1 i2 ltac:(lia)) as [v Hv]. congruence.
Qed.

Lemma overloaded_result_overload name :
  overloaded_result m rawName name -> overload_of rawName name.
Proof.
  intros [_ [[_ ->]|[_ (idx & Hidx & -> & _)]]]; [now left|].
  right. eauto.
Qed.

(** The probe of [rawName] followed by the loop. *)
Lemma overloaded_first_free fuel :
  (size m < fuel)%nat ->
  exists name,
    match m !! rawName with
    | Some _ => overloaded_loop m rawName fuel 0
    | None => Some rawName
    end = Some name /\
    overloaded_result m rawName name.
Proof.
  intros Hfuel. destruct (m !! rawName) as [v|] eqn:Hraw.
  - destruct (overloaded_loop_ends fuel Hfuel) as [name Hname].
    exists name. split; [exact Hname|].
    apply overloaded_loop_Some in Hname as (Hfree & k & Hk & -> & Hbelow).
    split; [exact Hfree|]. right. split; [eauto|].
    exists k. split; [lia|]. split; [reflexivity|exact Hbelow].
  - exists rawName. split; [reflexivity|]. split; [exact Hraw|].
    left. now split.
Qed.
End Overloads.

Lemma overloadedMethodName_first_free fuel abi rawName :
  (size (Methods abi) < fuel)%nat ->
  exists name, overloadedMethodName fuel abi rawName = Some name /\
               overloaded_result (Methods abi) rawName name.
Proof. apply overloaded_first_free. Qed.

Lemma overloadedEventName_first_free fuel abi rawName :
  (size (Events abi) < fuel)%nat ->
  exists name, overloadedEventName fuel abi rawName = Some name /\
               overloaded_result (Events abi) rawName name.
Proof. apply overloaded_first_free. Qed.

(** The comment above [overloadedMethodName] has [send2] returned for
    [send] when [send] and [send1] are stored; the loop starts at 0 and
    returns [send0]. *)
Example overloadedMethodName_send :
  overloadedMethodName 3 send_abi "send" = Some "send0".
Proof. reflexivity. Qed.

(** ** The arguments of an entry *)

Lemma arguments_Type_cases (a : arguments) :
  if no_nil a
  then exists args, a = Some <$> args /\
                    arguments_Type a = Ok (arguments_tuple args)
  else arguments_Type a = Panic.
Proof.
  unfold arguments_Type, arguments_tuple.
  induction a as [|i a IH]; [now exists []|].
  destruct i as [i|]; [|reflexivity].
  cbn [no_nil forallb mapM]. fold (no_nil a).
  destruct (no_nil a).
  - destruct IH as (args & -> & IH). exists (i :: args).
    split; [reflexivity|].
    destruct (mapM _ (Some <$> args)) as [l| |]; [|discriminate..].
    injection IH as IH. simpl. now rewrite IH.
  - destruct (mapM _ a) as [l| |]; [discriminate..|reflexivity].
Qed.

Lemma arguments_Type_Some (args : list argument) :
  arguments_Type (Some <$> args) = Ok (arguments_tuple args).
Proof.
  unfold arguments_Type, arguments_tuple.
  induction args as [|i args IH]; [reflexivity|].
  cbn [fmap list_fmap mapM]. fold (@fmap list _ _ _ (@Some argument) args).
  destruct (mapM _ (Some <$> args)) as [l| |]; [|discriminate..].
  injection IH as IH. simpl. now rewrite IH.
Qed.

Lemma arguments_Type_Ok (a : arguments) typ :
  arguments_Type a = Ok typ ->
  no_nil a = true /\
  exists args, a = Some <$> args /\ typ = arguments_tuple args.
Proof.
  pose proof (arguments_Type_cases a) as H. destruct (no_nil a).
  - destruct H as (args & -> & ->). intros [= <-]. eauto.
  - rewrite H. discriminate.
Qed.

Lemma no_nil_app (a1 a2 : arguments) :
  no_nil (a1 ++ a2) = no_nil a1 && no_nil a2.
Proof. apply forallb_app. Qed.

(** ** The entries of a document *)

Lemma known_field_cases (f : Field) :
  known_field f = true <->
  f_Type f = "constructor" \/ (f_Type f = "function" \/ f_Type f = "") \/
  f_Type f = "event" \/
  (f_Type f = "error" \/ f_Type f = "fallback" \/ f_Type f = "receive").
Proof.
  unfold known_field. rewrite bool_decide_eq_true.
  rewrite !elem_of_cons, elem_of_nil. tauto.
Qed.

Lemma overloadedMethodName_Some fuel abi rawName name :
  overloadedMethodName fuel abi rawName = Some name ->
  overloaded_result (Methods abi) rawName name.
Proof.
  unfold overloadedMethodName. cbv zeta.
  destruct (Methods abi !! rawName) as [v|] eqn:Hraw.
  - intros H. apply overloaded_loop_Some in H as (Hfree & k & Hk & -> & Hb).
    split; [exact Hfree|]. right. split; [eauto|].
    exists k. split; [lia|]. split; [reflexivity|exact Hb].
  - intros [= <-]. split; [exact Hraw|]. left. now split.
Qed.

Lemma overloadedEventName_Some fuel abi rawName name :
  overloadedEventName fuel abi rawName = Some name ->
  overloaded_result (Events abi) rawName name.
Proof.
  unfold overloadedEventName. cbv zeta.
  destruct (Events abi !! rawName) as [v|] eqn:Hraw.
  - intros H. apply overloaded_loop_Some in H as (Hfree & k & Hk & -> & Hb).
    split; [exact Hfree|]. right. split; [eauto|].
    exists k. split; [lia|]. split; [reflexivity|exact Hb].
  - intros [= <-]. split; [exact Hraw|]. left. now split.
Qed.

(** What one entry does to the document: the result it gives, the error
    it returns and the panic it runs into, each with its cause. *)
Lemma UnmarshalJSON_field_inv fuel a f r :
  UnmarshalJSON_field fuel a f = Some r ->
  match r with
  | Ok a' =>
      known_field f = true /\ nil_free f = true /\
      (constructors_held a' =
       constructors_held a + if is_constructor_field f then 1 else 0)%nat /\
      (if is_function_field f
       then exists name m,
              overloadedMethodName fuel a (f_Name f) = Some name /\
              overloaded_result (Methods a) (f_Name f) name /\
              stored_for f m /\ Methods a' = <[name := m]> (Methods a)
       else Methods a' = Methods a) /\
      (if is_event_field f
       then exists name ev,
              overloadedEventName fuel a (f_Name f) = Some name /\
              overloaded_result (Events a) (f_Name f) name /\
              stored_event_for f ev /\ Events a' = <[name := ev]> (Events a)
       else Events a' = Events a)
  | Err e =>
      (is_constructor_field f = true /\ constructors_held a = 1%nat /\
       e = ErrMultipleConstructor) \/
      (known_field f = false /\ e = ErrUnknownFieldType (f_Type f))
  | Panic => known_field f = true /\ nil_free f = false
  end.
Proof.
  unfold UnmarshalJSON_field, is_constructor_field, is_function_field,
    is_event_field, constructors_held, nil_free, rendered.
  pose proof (known_field_cases f) as Hknown.
  destruct (decide (f_Type f = "constructor")) as [Hc|Hc].
  { rewrite bool_decide_eq_true_2 by exact Hc.
    rewrite !bool_decide_eq_false_2 by (rewrite Hc; intuition discriminate).
    assert (Hk : known_field f = true) by (apply Hknown; tauto).
    destruct (Constructor a) as [c|]; intros [= <-]; [left; auto|].
    pose proof (arguments_Type_cases (f_Inputs f)) as Hin.
    destruct (no_nil (f_Inputs f)).
    - destruct Hin as (args & _ & ->). simpl. auto.
    - rewrite Hin. simpl. auto. }
  rewrite (bool_decide_eq_false_2 _ Hc).
  destruct (decide (f_Type f = "function" \/ f_Type f = "")) as [Hf|Hf].
  { rewrite bool_decide_eq_true_2 by exact Hf.
    rewrite bool_decide_eq_false_2
      by (destruct Hf as [-> | ->]; discriminate).
    assert (Hk : known_field f = true) by (apply Hknown; tauto).
    destruct (overloadedMethodName fuel a (f_Name f)) as [name|] eqn:Hname;
      [|discriminate].
    intros [= <-]. rewrite no_nil_app.
    pose proof (arguments_Type_cases (f_Inputs f)) as Hin.
    pose proof (arguments_Type_cases (f_Outputs f)) as Hout.
    destruct (no_nil (f_Inputs f)); [|rewrite Hin; simpl; auto].
    destruct Hin as (ins & _ & Hin). rewrite Hin.
    destruct (no_nil (f_Outputs f)); [|rewrite Hout; simpl; auto].
    destruct Hout as (outs & _ & Hout). rewrite Hout. simpl.
    split; [exact Hk|]. split; [reflexivity|]. split; [lia|].
    split; [|reflexivity].
    eexists name, _. split; [reflexivity|].
    split; [now apply overloadedMethodName_Some in Hname|].
    split; [|reflexivity].
    repeat split; simpl; eauto. }
  rewrite (bool_decide_eq_false_2 _ Hf).
  destruct (decide (f_Type f = "event")) as [Hev|Hev].
  { rewrite bool_decide_eq_true_2 by exact Hev.
    assert (Hk : known_field f = true) by (apply Hknown; tauto).
    destruct (overloadedEventName fuel a (f_Name f)) as [name|] eqn:Hname;
      [|discriminate].
    intros [= <-].
    pose proof (arguments_Type_cases (f_Inputs f)) as Hin.
    destruct (no_nil (f_Inputs f)); [|rewrite Hin; simpl; auto].
    destruct Hin as (ins & _ & Hin). rewrite Hin. simpl.
    split; [exact Hk|]. split; [reflexivity|]. split; [lia|].
    split; [reflexivity|].
    eexists name, _. split; [reflexivity|].
    split; [now apply overloadedEventName_Some in Hname|].
    split; [|reflexivity].
    repeat split; simpl; eauto. }
  rewrite (bool_decide_eq_false_2 _ Hev).
  destruct (decide _) as [Hi|Hi]; intros [= <-].
  - split; [apply Hknown; tauto|]. split; [reflexivity|].
    split; [lia|]. now split.
  - right. split; [|reflexivity].
    destruct (known_field f); [|reflexivity].
    destruct Hknown as [Hk _]. specialize (Hk eq_refl). tauto.
Qed.

(** With fuel for the keys stored, an entry gives a result, an error or a
    panic. *)
Lemma UnmarshalJSON_field_total fuel a f :
  (size (Methods a) < fuel)%nat -> (size (Events a) < fuel)%nat ->
  exists r, UnmarshalJSON_field fuel a f = Some r.
Proof.
  intros Hm He. unfold UnmarshalJSON_field.
  destruct (decide _); [destruct (Constructor a); eauto|].
  destruct (decide _).
  { destruct (overloadedMethodName_first_free fuel a (f_Name f) Hm)
      as (name & -> & _). simpl. eauto. }
  destruct (decide _).
  { destruct (overloadedEventName_first_free fuel a (f_Name f) He)
      as (name & -> & _). simpl. eauto. }
  destruct (decide _); eauto.
Qed.

(** A result keeps what was stored, and holds one key more at most in each
    map. *)
Lemma UnmarshalJSON_field_extends fuel a f a' :
  UnmarshalJSON_field fuel a f = Some (Ok a') ->
  Methods a ⊆ Methods a' /\ Events a ⊆ Events a' /\
  size (Methods a') =
    (size (Methods a) + if is_function_field f then 1 else 0)%nat /\
  size (Events a') =
    (size (Events a) + if is_event_field f then 1 else 0)%nat /\
  (keys_of_names a -> keys_of_names a').
Proof.
  intros H. apply UnmarshalJSON_field_inv in H as (_ & _ & _ & Hm & He).
  assert (Hms : Methods a ⊆ Methods a' /\
                size (Methods a') =
                (size (Methods a) + if is_function_field f then 1 else 0)%nat
                /\ ((forall k v, Methods a !! k = Some v ->
                                 overload_of (m_Name v) k) ->
                    forall k v, Methods a' !! k = Some v ->
                                overload_of (m_Name v) k)).
  { destruct (is_function_field f).
    - destruct Hm as (name & m & _ & Hres & Hst & ->).
      pose proof Hres as [Hfree _].
      split; [now apply insert_subseteq|].
      split; [rewrite map_size_insert_None by exact Hfree; lia|].
      intros Hk k v Hkv.
      apply lookup_insert_Some in Hkv as [[<- <-]|[_ Hkv]]; [|eauto].
      destruct Hst as (-> & _). eapply overloaded_result_overload, Hres.
    - rewrite Hm. split; [reflexivity|]. split; [lia|auto]. }
  assert (Hes : Events a ⊆ Events a' /\
                size (Events a') =
                (size (Events a) + if is_event_field f then 1 else 0)%nat
                /\ ((forall k v, Events a !! k = Some v ->
                                 overload_of (e_Name v) k) ->
                    forall k v, Events a' !! k = Some v ->
                                overload_of (e_Name v) k)).
  { destruct (is_event_field f).
    - destruct He as (name & ev & _ & Hres & Hst & ->).
      pose proof Hres as [Hfree _].
      split; [now apply insert_subseteq|].
      split; [rewrite map_size_insert_None by exact Hfree; lia|].
      intros Hk k v Hkv.
      apply lookup_insert_Some in Hkv as [[<- <-]|[_ Hkv]]; [|eauto].
      destruct Hst as (-> & _). eapply overloaded_result_overload, Hres.
    - rewrite He. split; [reflexivity|]. split; [lia|auto]. }
  destruct Hms as (Hm1 & Hm2 & Hkm), Hes as (He1 & He2 & Hke).
  repeat split; try assumption; destruct H as [Hk1 Hk2]; auto.
Qed.

(** ** The loop over the entries *)

Lemma UnmarshalJSON_loop_app fuel pre post a a1 :
  UnmarshalJSON_loop fuel a pre = Some (Ok a1) ->
  UnmarshalJSON_loop fuel a (pre ++ post) = UnmarshalJSON_loop fuel a1 post.
Proof.
  revert a. induction pre as [|f pre IH]; intros a.
  - now intros [= <-].
  - cbn [app UnmarshalJSON_loop].
    destruct (UnmarshalJSON_field fuel a f) as [[a2|e|]|];
      simpl; try discriminate. apply IH.
Qed.

Lemma UnmarshalJSON_loop_split fuel pre post a a' :
  UnmarshalJSON_loop fuel a (pre ++ post) = Some (Ok a') ->
  exists a1, UnmarshalJSON_loop fuel a pre = Some (Ok a1) /\
             UnmarshalJSON_loop fuel a1 post = Some (Ok a').
Proof.
  revert a. induction pre as [|f pre IH]; intros a.
  - intros H. now exists a.
  - cbn [app UnmarshalJSON_loop].
    destruct (UnmarshalJSON_field fuel a f) as [[a2|e|]|];
      simpl; try discriminate. apply IH.
Qed.

(** The entry at position [i] of a document that parses: the state it
    finds, the state it leaves, and the rest of the run. *)
Lemma UnmarshalJSON_loop_entry fuel fields a a' (i : nat) f :
  UnmarshalJSON_loop fuel a fields = Some (Ok a') ->
  fields !! i = Some f ->
  exists a1 a2,
    UnmarshalJSON_loop fuel a (take i fields) = Some (Ok a1) /\
    UnmarshalJSON_field fuel a1 f = Some (Ok a2) /\
    UnmarshalJSON_loop fuel a (take (S i) fields) = Some (Ok a2) /\
    UnmarshalJSON_loop fuel a2 (drop (S i) fields) = Some (Ok a').
Proof.
  intros H Hi. rewrite <- (take_drop_middle fields i f Hi) in H.
  apply UnmarshalJSON_loop_split in H as (a1 & H1 & H).
  cbn [UnmarshalJSON_loop] in H.
  destruct (UnmarshalJSON_field fuel a1 f) as [[a2|e|]|] eqn:Hf;
    simpl in H; try discriminate.
  exists a1, a2. repeat split; try assumption.
  rewrite (take_S_r _ _ _ Hi), (UnmarshalJSON_loop_app _ _ _ _ _ H1).
  cbn [UnmarshalJSON_loop]. now rewrite Hf.
Qed.

Lemma UnmarshalJSON_loop_extends fuel fields a a' :
  UnmarshalJSON_loop fuel a fields = Some (Ok a') ->
  Methods a ⊆ Methods a' /\ Events a ⊆ Events a' /\
  size (Methods a') =
    (size (Methods a) + length (List.filter is_function_field fields))%nat /\
  size (Events a') =
    (size (Events a) + length (List.filter is_event_field fields))%nat /\
  (keys_of_names a -> keys_of_names a').
Proof.
  revert a. induction fields as [|f rest IH]; intros a.
  - intros [= <-]. simpl. split; [reflexivity|]. split; [reflexivity|].
    split; [lia|]. split; [lia|auto].
  - cbn [UnmarshalJSON_loop].
    destruct (UnmarshalJSON_field fuel a f) as [[a1|e|]|] eqn:Hf;
      simpl; try discriminate.
    intros H. apply UnmarshalJSON_field_extends in Hf
      as (Hm1 & He1 & Hsm1 & Hse1 & Hk1).
    apply IH in H as (Hm2 & He2 & Hsm2 & Hse2 & Hk2).
    split; [now transitivity (Methods a1)|].
    split; [now transitivity (Events a1)|].
    rewrite Hsm2, Hse2, Hsm1, Hse1. cbn [List.filter].
    split; [destruct (is_function_field f); simpl; lia|].
    split; [destruct (is_event_field f); simpl; lia|auto].
Qed.

(** With fuel for its entries, what a document parses to. *)
Lemma UnmarshalJSON_loop_result fuel fields a :
  (size (Methods a) + length fields < fuel)%nat ->
  (size (Events a) + length fields < fuel)%nat ->
  exists r, UnmarshalJSON_loop fuel a fields = Some r /\
    ((exists a', r = Ok a') <->
     forallb known_field fields = true /\
     forallb nil_free fields = true /\
     (constructors_held a +
      length (List.filter is_constructor_field fields) <= 1)%nat) /\
    (r = Panic -> exists f, f ∈ fields /\ nil_free f = false) /\
    (forall e, r = Err e ->
       e = ErrMultipleConstructor \/
       exists f, f ∈ fields /\ known_field f = false /\
                 e = ErrUnknownFieldType (f_Type f)).
Proof.
  revert a. induction fields as [|f rest IH]; intros a Hm He.
  - exists (Ok a). split; [reflexivity|]. split; [|split; discriminate].
    split; [|eauto]. intros _. split; [reflexivity|].
    split; [reflexivity|].
    unfold constructors_held. simpl. destruct (Constructor a); lia.
  - simpl in Hm, He. cbn [UnmarshalJSON_loop].
    destruct (UnmarshalJSON_field_total fuel a f) as (r & Hr); [lia..|].
    rewrite Hr. cbn [mbind option_bind forallb List.filter].
    pose proof (UnmarshalJSON_field_inv _ _ _ _ Hr) as Hinv.
    destruct r as [a1|e|]; [|clear IH..].
    + destruct Hinv as (Hk & Hn & Hc & _).
      apply UnmarshalJSON_field_extends in Hr as (_ & _ & Hsm & Hse & _).
      destruct (IH a1) as (r & -> & Hok & Hpanic & Herr);
        [destruct (is_function_field f); lia
        |destruct (is_event_field f); lia|].
      exists r. split; [reflexivity|]. split; [|split].
      * rewrite Hok, Hk, Hn, Hc.
        destruct (is_constructor_field f); simpl; intuition lia.
      * intros Hp. destruct (Hpanic Hp) as (g & Hg & Hgn).
        exists g. split; [now apply list_elem_of_further|exact Hgn].
      * intros e Hre. destruct (Herr e Hre) as [->|(g & Hg & Hrest)];
          [now left|].
        right. exists g. split; [now apply list_elem_of_further|exact Hrest].
    + exists (Err e). split; [reflexivity|]. split; [|split].
      * split; [intros [a' [=]]|]. intros (Hall & _ & Hcount).
        destruct Hinv as [(Hc & Hheld & _)|(Hk & _)].
        -- rewrite Hc in Hcount. simpl in Hcount. lia.
        -- rewrite Hk in Hall. discriminate.
      * discriminate.
      * intros e' [= <-]. destruct Hinv as [(_ & _ & ->)|(Hk & ->)];
          [now left|].
        right. exists f. split; [apply list_elem_of_here|auto].
    + exists Panic. destruct Hinv as [Hk Hn]. split; [reflexivity|].
      split; [|split].
      * split; [intros [a' [=]]|]. intros (_ & Hall & _).
        rewrite Hn in Hall. discriminate.
      * intros _. exists f. split; [apply list_elem_of_here|exact Hn].
      * discriminate.
Qed.

(** The keys of two function entries of a document that parses, and of
    two event entries, differ. *)
Lemma UnmarshalJSON_loop_keys fuel fields a a' (i j : nat) f g ai aj :
  UnmarshalJSON_loop fuel a fields = Some (Ok a') ->
  (i < j)%nat -> fields !! i = Some f -> fields !! j = Some g ->
  UnmarshalJSON_loop fuel a (take i fields) = Some (Ok ai) ->
  UnmarshalJSON_loop fuel a (take j fields) = Some (Ok aj) ->
  (forall ni nj,
     is_function_field f = true ->
     overloadedMethodName fuel ai (f_Name f) = Some ni ->
     overloadedMethodName fuel aj (f_Name g) = Some nj -> ni <> nj) /\
  (forall ni nj,
     is_event_field f = true ->
     overloadedEventName fuel ai (f_Name f) = Some ni ->
     overloadedEventName fuel aj (f_Name g) = Some nj -> ni <> nj).
Proof.
  intros H Hij Hi Hj Hai Haj.
  destruct (UnmarshalJSON_loop_entry _ _ _ _ _ _ H Hi)
    as (a1 & a2 & H1 & Hf & H2 & _).
  rewrite Hai in H1. injection H1 as <-.
  assert (Hsub : Methods a2 ⊆ Methods aj /\ Events a2 ⊆ Events aj).
  { rewrite <- (take_drop (S i) (take j fields)), take_take in Haj.
    replace (S i `min` j)%nat with (S i) in Haj by lia.
    rewrite (UnmarshalJSON_loop_app _ _ _ _ _ H2) in Haj.
    apply UnmarshalJSON_loop_extends in Haj as (Hs1 & Hs2 & _).
    now split. }
  destruct Hsub as [Hsm Hse].
  apply UnmarshalJSON_field_inv in Hf as (_ & _ & _ & Hm & He).
  split; intros ni nj Hkind Hni Hnj Heq; subst nj; rewrite Hkind in *.
  - destruct Hm as (name & m & Hname & _ & _ & Hmeth).
    rewrite Hni in Hname. injection Hname as <-.
    apply overloadedMethodName_Some in Hnj as [Hfree _].
    assert (Hin : Methods a2 !! ni = Some m)
      by (rewrite Hmeth; apply lookup_insert_eq).
    eapply lookup_weaken in Hin; [|exact Hsm]. congruence.
  - destruct He as (name & ev & Hname & _ & _ & Hevs).
    rewrite Hni in Hname. injection Hname as <-.
    apply overloadedEventName_Some in Hnj as [Hfree _].
    assert (Hin : Events a2 !! ni = Some ev)
      by (rewrite Hevs; apply lookup_insert_eq).
    eapply lookup_weaken in Hin; [|exact Hse]. congruence.
Qed.

(** C7: with fuel for one probe more than there are keys, the loop of
    [overloadedMethodName] (and of [overloadedEventName]) ends, and returns
    the raw name when it is free and otherwise the raw name followed by the
    smallest integer from 0 on that gives a free key; the key depends on
    the stored keys and the raw name only, not on the fuel.  A document
    whose entries have known types, declare one constructor at most and
    hold no nil argument parses, and every function entry (and every event
    entry) of it is stored, at the end, under the key that the helper
    returns on the entries before it: the first free one.  The keys of two
    entries differ, so the maps hold as many entries as the document
    declares, each under its name or an overload of it. *)
Theorem overload_renaming (fuel : nat) (abi : ABI) (rawName : string)
    (fields : list Field) :
  (size (Methods abi) < fuel)%nat ->
  (size (Events abi) < fuel)%nat ->
  (length fields < fuel)%nat ->
  (exists name,
     overloadedMethodName fuel abi rawName = Some name /\
     overloaded_result (Methods abi) rawName name /\
     (forall name', overloaded_result (Methods abi) rawName name' ->
                    name' = name) /\
     (forall fuel', (size (Methods abi) < fuel')%nat ->
                    overloadedMethodName fuel' abi rawName = Some name)) /\
  (exists name,
     overloadedEventName fuel abi rawName = Some name /\
     overloaded_result (Events abi) rawName name /\
     (forall name', overloaded_result (Events abi) rawName name' ->
                    name' = name) /\
     (forall fuel', (size (Events abi) < fuel')%nat ->
                    overloadedEventName fuel' abi rawName = Some name)) /\
  (forallb known_field fields = true ->
   forallb nil_free fields = true ->
   (constructors_held abi +
    length (List.filter is_constructor_field fields) <= 1)%nat ->
   exists abi',
     UnmarshalJSON fuel abi fields = Some (Ok abi') /\
     size (Methods abi') = length (List.filter is_function_field fields) /\
     size (Events abi') = length (List.filter is_event_field fields) /\
     keys_of_names abi' /\
     forall (i : nat) f, fields !! i = Some f ->
       exists a1,
         UnmarshalJSON fuel abi (take i fields) = Some (Ok a1) /\
         (is_function_field f = true ->
          exists name m,
            overloadedMethodName fuel a1 (f_Name f) = Some name /\
            overloaded_result (Methods a1) (f_Name f) name /\
            Methods abi' !! name = Some m /\ stored_for f m) /\
         (is_event_field f = true ->
          exists name ev,
            overloadedEventName fuel a1 (f_Name f) = Some name /\
            overloaded_result (Events a1) (f_Name f) name /\
            Events abi' !! name = Some ev /\ stored_event_for f ev) /\
         (forall (j : nat) g a2,
            (i < j)%nat -> fields !! j = Some g ->
            UnmarshalJSON fuel abi (take j fields) = Some (Ok a2) ->
            (forall ni nj,
               is_function_field f = true ->
               overloadedMethodName fuel a1 (f_Name f) = Some ni ->
               overloadedMethodName fuel a2 (f_Name g) = Some nj ->
               ni <> nj) /\
            (forall ni nj,
               is_event_field f = true ->
               overloadedEventName fuel a1 (f_Name f) = Some ni ->
               overloadedEventName fuel a2 (f_Name g) = Some nj ->
               ni <> nj))).
Proof.
  intros Hm He Hf. split; [|split].
  - destruct (overloadedMethodName_first_free fuel abi rawName Hm)
      as (name & Hname & Hres).
    exists name. repeat split; try assumption; try apply Hres.
    + intros name' Hres'. eapply overloaded_result_unique; eassumption.
    + intros fuel' Hfuel'.
      destruct (overloadedMethodName_first_free fuel' abi rawName Hfuel')
        as (name' & -> & Hres').
      f_equal. eapply overloaded_result_unique; eassumption.
  - destruct (overloadedEventName_first_free fuel abi rawName He)
      as (name & Hname & Hres).
    exists name. repeat split; try assumption; try apply Hres.
    + intros name' Hres'. eapply overloaded_result_unique; eassumption.
    + intros fuel' Hfuel'.
      destruct (overloadedEventName_first_free fuel' abi rawName Hfuel')
        as (name' & -> & Hres').
      f_equal. eapply overloaded_result_unique; eassumption.
  - intros Hknown Hnil Hctor. unfold UnmarshalJSON.
    set (a0 := {| Constructor := Constructor abi;
                  Methods := ∅; Events := ∅ |}).
    destruct (UnmarshalJSON_loop_result fuel fields a0)
      as (r & Hr & Hok & _).
    { simpl. rewrite map_size_empty. lia. }
    { simpl. rewrite map_size_empty. lia. }
    destruct (proj2 Hok) as [abi' ->]; [auto|].
    exists abi'. split; [exact Hr|].
    destruct (UnmarshalJSON_loop_extends _ _ _ _ Hr)
      as (_ & _ & Hsm & Hse & Hkeys).
    simpl in Hsm, Hse.
    rewrite (map_size_empty (M:=gmap string)) in Hsm.
    rewrite (map_size_empty (M:=gmap string)) in Hse.
    split; [exact Hsm|]. split; [exact Hse|]. split.
    { apply Hkeys. split; intros k v Hk; simpl in Hk;
        now rewrite lookup_empty in Hk. }
    intros i f Hi.
    destruct (UnmarshalJSON_loop_entry _ _ _ _ _ _ Hr Hi)
      as (a1 & a2 & H1 & Hfield & _ & Hrest).
    exists a1. split; [exact H1|].
    apply UnmarshalJSON_loop_extends in Hrest as (Hsubm & Hsube & _).
    pose proof (UnmarshalJSON_field_inv _ _ _ _ Hfield)
      as (_ & _ & _ & Hmeth & Hevs).
    split; [|split].
    + intros Hkind. rewrite Hkind in Hmeth.
      destruct Hmeth as (name & m & Hname & Hres & Hst & Heq).
      exists name, m. repeat split; try assumption; try apply Hres;
        try apply Hst.
      eapply lookup_weaken; [|exact Hsubm].
      rewrite Heq. apply lookup_insert_eq.
    + intros Hkind. rewrite Hkind in Hevs.
      destruct Hevs as (name & ev & Hname & Hres & Hst & Heq).
      exists name, ev. repeat split; try assumption; try apply Hres;
        try apply Hst.
      eapply lookup_weaken; [|exact Hsube].
      rewrite Heq. apply lookup_insert_eq.
    + intros j g a2' Hij Hj H2.
      exact (UnmarshalJSON_loop_keys _ _ _ _ _ _ _ _ _ _ Hr Hij Hi Hj H1 H2).
Qed.

(** [send] declared three times goes under [send], [send0] and [send1]. *)
Lemma overload_renaming_witness :
  (exists name, overloadedMethodName 3 send_abi "send" = Some name /\
                overloaded_result (Methods send_abi) "send" name) /\
  (exists abi', UnmarshalJSON 5 send_abi send_fields = Some (Ok abi') /\
     size (Methods abi') = 3%nat /\ size (Events abi') = 1%nat /\
     is_Some (Methods abi' !! "send") /\
     is_Some (Methods abi' !! "send0") /\
     is_Some (Methods abi' !! "send1") /\
     is_Some (Events abi' !! "Sent")).
Proof.
  split.
  - destruct (overload_renaming 3 send_abi "send" []
                ltac:(vm_compute; lia) ltac:(vm_compute; lia)
                ltac:(vm_compute; lia)) as [(name & H1 & H2 & _) _].
    exists name. split; assumption.
  - destruct (overload_renaming 5 send_abi "send" send_fields
                ltac:(vm_compute; lia) ltac:(vm_compute; lia)
                ltac:(vm_compute; lia)) as (_ & _ & H).
    destruct (H eq_refl eq_refl ltac:(vm_compute; lia))
      as (abi' & Hr & Hsm & Hse & _ & Hpos).
    exists abi'. split; [exact Hr|]. split; [exact Hsm|].
    split; [exact Hse|].
    destruct (Hpos 0%nat _ eq_refl) as (a0 & Ha0 & Hm0 & _).
    destruct (Hpos 1%nat _ eq_refl) as (a1 & Ha1 & Hm1 & _).
    destruct (Hpos 2%nat _ eq_refl) as (a2 & Ha2 & Hm2 & _).
    destruct (Hpos 3%nat _ eq_refl) as (a3 & Ha3 & _ & He3 & _).
    destruct (Hm0 eq_refl) as (n0 & m0 & Hn0 & _ & Hl0 & _).
    destruct (Hm1 eq_refl) as (n1 & m1 & Hn1 & _ & Hl1 & _).
    destruct (Hm2 eq_refl) as (n2 & m2 & Hn2 & _ & Hl2 & _).
    destruct (He3 eq_refl) as (n3 & ev & Hn3 & _ & Hl3 & _).
    injection Ha0 as <-. injection Ha1 as <-. injection Ha2 as <-.
    injection Ha3 as <-.
    injection Hn0 as <-. injection Hn1 as <-. injection Hn2 as <-.
    injection Hn3 as <-.
    repeat split; eauto.
Defined.

(** ** Signatures and identifiers *)

Lemma mapM_raw (l : list (TupleElem AbiType)) (elems : list AbiType) :
  Forall2 (fun a el => Elem a = Some el) l elems ->
  mapM (fun arg => match Elem arg with
                   | Some e => Ok (t_raw e)
                   | None => Panic
                   end) l = Ok (t_raw <$> elems).
Proof.
  induction 1 as [|a el l elems Ha _ IH]; [reflexivity|].
  cbn [mapM]. rewrite Ha, IH. reflexivity.
Qed.

Lemma buildSignature_raw name typ (elems : list AbiType) :
  Forall2 (fun a el => Elem a = Some el) (tuple_range typ) elems ->
  buildSignature name (Some typ) =
  Ok (name +:+ "(" +:+ Join (t_raw <$> elems) "," +:+ ")").
Proof.
  intros H. unfold buildSignature. now rewrite (mapM_raw _ _ H).
Qed.

Lemma length_copy (dst src : bytes) : length (copy dst src) = length dst.
Proof.
  unfold copy. rewrite length_app, length_take, length_drop. lia.
Qed.

Lemma copy_copy (dst src : bytes) : copy (copy dst src) src = copy dst src.
Proof.
  unfold copy at 1. rewrite length_copy. unfold copy.
  set (n := Nat.min (length dst) (length src)).
  f_equal. rewrite drop_app_length'; [reflexivity|].
  rewrite length_take. lia.
Qed.

Lemma copy_full (dst src : bytes) :
  length dst = length src -> copy dst src = src.
Proof.
  intros H. unfold copy. rewrite H, Nat.min_id.
  rewrite take_ge, drop_ge by lia. apply app_nil_r.
Qed.

Lemma slice_Ok_len s lo hi r : slice s lo hi = Ok r -> len r = hi - lo.
Proof.
  unfold slice.
  destruct (Z.leb_spec 0 lo), (Z.leb_spec lo hi), (Z.leb_spec hi (len s));
    simpl; try discriminate.
  intros [= <-]. unfold len in *. rewrite length_take, length_drop. lia.
Qed.

Lemma BigEndian_Uint64_Ok b u :
  BigEndian_Uint64 b = Ok u <-> 8 <= len b /\ u = SetBytes (take 8 b).
Proof.
  unfold BigEndian_Uint64. split.
  - destruct (Z.le_gt_cases 8 (len b)) as [H|H].
    + rewrite slice_prefix by lia. simpl. intros [= <-]. now split.
    + rewrite slice_out_of_bounds by lia. discriminate.
  - intros [H ->]. now rewrite slice_prefix by lia.
Qed.

Section Identifiers.
Variable keccak256 : bytes -> bytes.
Variable Type_ParseLog : option AbiType -> Log -> outcome (gmap string Value).
Hypothesis keccak256_len : forall data, length (keccak256 data) = 32%nat.

(** A call of [ID] leaves the method in a state where [ID] returns the
    same identifier, and changes nothing else. *)
Lemma Method_ID_stable m id m' :
  Method_ID keccak256 m = (Ok id, m') ->
  Method_ID keccak256 m' = (Ok id, m') /\ Method_Sig m' = Method_Sig m.
Proof.
  unfold Method_ID.
  destruct (len (m_id m) >? 0) eqn:Hset.
  - intros [= <- <-]. now rewrite Hset.
  - destruct (Method_Sig m) as [sig| |] eqn:Hsig; try discriminate.
    destruct (slice _ 0 4) as [sum| |] eqn:Hsum; try discriminate.
    intros [= <- <-]. cbn [m_id].
    apply slice_Ok_len in Hsum. rewrite Hsum. simpl. now split.
Qed.

Lemma Method_ID_value m sig :
  Method_Sig m = Ok sig ->
  m_id m = [] \/
  m_id m = take 4 (keccak256 (String.list_byte_of_string sig)) ->
  fst (Method_ID keccak256 m) =
  Ok (take 4 (keccak256 (String.list_byte_of_string sig))).
Proof.
  intros Hsig Hid. unfold Method_ID.
  destruct (len (m_id m) >? 0) eqn:Hset.
  - destruct Hid as [Hid|Hid]; [now rewrite Hid in Hset|].
    simpl. now rewrite Hid.
  - rewrite Hsig, slice_prefix by (unfold len; rewrite ?keccak256_len; lia).
    reflexivity.
Qed.

Lemma Event_ID_stable e id e' :
  Event_ID keccak256 e = (Ok id, e') ->
  Event_ID keccak256 e' = (Ok id, e') /\ Event_Sig e' = Event_Sig e /\
  e_Inputs e' = e_Inputs e.
Proof.
  unfold Event_ID.
  destruct (BigEndian_Uint64 (e_id e)) as [u| |] eqn:Hu; try discriminate.
  destruct (u >? 0) eqn:Hset.
  - intros [= <- <-]. now rewrite Hu, Hset.
  - destruct (Event_Sig e) as [sig| |] eqn:Hsig; try discriminate.
    intros [= <- <-]. cbn [e_id].
    apply BigEndian_Uint64_Ok in Hu as [Hlen _].
    destruct (BigEndian_Uint64 (copy (e_id e) _)) as [u'| |] eqn:Hu'.
    + unfold Event_Sig in *. cbn [e_Name e_Inputs e_Anonymous].
      rewrite Hsig, copy_copy. now destruct (u' >? 0).
    + unfold BigEndian_Uint64 in Hu'. rewrite slice_prefix in Hu'.
      * discriminate.
      * lia.
      * unfold len in *. now rewrite length_copy.
    + unfold BigEndian_Uint64 in Hu'. rewrite slice_prefix in Hu'.
      * discriminate.
      * lia.
      * unfold len in *. now rewrite length_copy.
Qed.

Lemma Event_ID_value e sig :
  Event_Sig e = Ok sig ->
  length (e_id e) = 32%nat ->
  BigEndian_Uint64 (e_id e) = Ok 0 \/
  e_id e = keccak256 (String.list_byte_of_string sig) ->
  fst (Event_ID keccak256 e) = Ok (keccak256 (String.list_byte_of_string sig)).
Proof.
  intros Hsig Hlen Hid. unfold Event_ID.
  destruct (BigEndian_Uint64 (e_id e)) as [u| |] eqn:Hu.
  - destruct (u >? 0) eqn:Hset.
    + destruct Hid as [[= ->]|Hid]; [discriminate|]. simpl. now f_equal.
    + rewrite Hsig. simpl. f_equal. apply copy_full.
      now rewrite keccak256_len.
  - exfalso. unfold BigEndian_Uint64 in Hu.
    rewrite slice_prefix in Hu by (unfold len; lia). discriminate.
  - exfalso. unfold BigEndian_Uint64 in Hu.
    rewrite slice_prefix in Hu by (unfold len; lia). discriminate.
Qed.

(** [ID] does not read the flag [Anonymous]. *)
Lemma Event_ID_flag e flag :
  fst (Event_ID keccak256 (with_Anonymous flag e)) =
  fst (Event_ID keccak256 e) /\
  e_Inputs (snd (Event_ID keccak256 (with_Anonymous flag e))) =
  e_Inputs (snd (Event_ID keccak256 e)).
Proof.
  unfold Event_ID, Event_Sig, with_Anonymous. cbn [e_Name e_Inputs e_id].
  destruct (BigEndian_Uint64 (e_id e)) as [u| |]; [|now split..].
  destruct (u >? 0); [now split|].
  destruct (buildSignature _ _); now split.
Qed.
Lemma Method_after_S n m id m' :
  Method_ID keccak256 m = (Ok id, m') ->
  Method_after keccak256 (S n) m = m'.
Proof.
  intros H. induction n as [|n IH].
  - unfold Method_after. simpl. now rewrite H.
  - unfold Method_after in *. rewrite Nat.iter_succ, IH.
    now rewrite (proj1 (Method_ID_stable _ _ _ H)).
Qed.

Lemma Event_after_S n e id e' :
  Event_ID keccak256 e = (Ok id, e') ->
  Event_after keccak256 (S n) e = e'.
Proof.
  intros H. induction n as [|n IH].
  - unfold Event_after. simpl. now rewrite H.
  - unfold Event_after in *. rewrite Nat.iter_succ, IH.
    now rewrite (proj1 (Event_ID_stable _ _ _ H)).
Qed.

(** C6 (as amended): the signature is the name followed by the raw
    strings of the element types of the inputs, between parentheses and
    separated by commas, whatever the names and indexed flags of the
    elements; [ID] of a method whose cache is unset, or holds the selector
    of that signature, returns the first 4 bytes of its Keccak-256 digest,
    and [ID] of an event all 32 bytes; after any number of calls [ID]
    returns what its first call returned; and a cache that is set is
    returned as it is, whatever the signature has become. *)
Theorem signature_and_selector (name : string) (typ : AbiType)
    (elems : list AbiType) (m : Method) (e : Event) :
  (Forall2 (fun a el => Elem a = Some el) (tuple_range typ) elems ->
   let sig := name +:+ "(" +:+ Join (t_raw <$> elems) "," +:+ ")" in
   let digest := keccak256 (String.list_byte_of_string sig) in
   buildSignature name (Some typ) = Ok sig /\
   (m_Name m = name -> m_Inputs m = Some typ ->
    Method_Sig m = Ok sig /\
    (m_id m = [] \/ m_id m = take 4 digest ->
     fst (Method_ID keccak256 m) = Ok (take 4 digest))) /\
   (e_Name e = name -> e_Inputs e = Some typ ->
    length (e_id e) = 32%nat ->
    Event_Sig e = Ok sig /\
    (BigEndian_Uint64 (e_id e) = Ok 0 \/ e_id e = digest ->
     fst (Event_ID keccak256 e) = Ok digest))) /\
  (forall id m', Method_ID keccak256 m = (Ok id, m') ->
     forall n, Method_ID keccak256 (Method_after keccak256 n m) =
               (Ok id, m')) /\
  (forall id e', Event_ID keccak256 e = (Ok id, e') ->
     forall n, Event_ID keccak256 (Event_after keccak256 n e) =
               (Ok id, e')) /\
  (0 < len (m_id m) -> Method_ID keccak256 m = (Ok (m_id m), m)) /\
  (forall u, BigEndian_Uint64 (e_id e) = Ok u -> 0 < u ->
     Event_ID keccak256 e = (Ok (e_id e), e)).
Proof.
  split; [|split; [|split; [|split]]].
  - intros Hel sig digest.
    pose proof (buildSignature_raw name typ elems Hel) as Hsig.
    fold sig in Hsig. split; [exact Hsig|]. split.
    + intros Hn Hi.
      assert (Hm : Method_Sig m = Ok sig).
      { unfold Method_Sig. now rewrite Hn, Hi. }
      split; [exact Hm|]. now apply Method_ID_value.
    + intros Hn Hi Hlen.
      assert (He : Event_Sig e = Ok sig).
      { unfold Event_Sig. now rewrite Hn, Hi. }
      split; [exact He|]. now apply Event_ID_value.
  - intros id m' H [|n]; [exact H|].
    rewrite (Method_after_S n m id m' H).
    apply (Method_ID_stable _ _ _ H).
  - intros id e' H [|n]; [exact H|].
    rewrite (Event_after_S n e id e' H).
    apply (Event_ID_stable _ _ _ H).
  - intros Hset. unfold Method_ID.
    now destruct (Z.gtb_spec (len (m_id m)) 0); [|lia].
  - intros u Hu Hset. unfold Event_ID. rewrite Hu.
    now destruct (Z.gtb_spec u 0); [|lia].
Qed.

Lemma Event_Match_topic0 e log id e' :
  Event_ID keccak256 e = (Ok id, e') ->
  Event_Match keccak256 e log =
  match Topics log with
  | [] => (Ok false, e)
  | topic0 :: _ => (Ok (bool_decide (topic0 = id)), e')
  end.
Proof.
  intros Hid. unfold Event_Match. destruct (Topics log) as [|topic0 rest].
  - reflexivity.
  - replace (len (topic0 :: rest) =? 0) with false
      by (symmetry; apply Z.eqb_neq; unfold len; simpl; lia).
    rewrite Hid. destruct (decide (topic0 <> id)) as [Hne|Heq].
    + now rewrite bool_decide_eq_false_2.
    + apply dec_stable in Heq. now rewrite bool_decide_eq_true_2.
Qed.

(** C3 (as amended): for every event, anonymous or not, [Match] is true
    exactly when the log has a first topic and it is the identifier of
    the event; [ParseLog] returns the error "log does not match this
    event" when [Match] is false and the result of [ParseLog] of the
    inputs when it is true; the flag [Anonymous] changes nothing. *)
Theorem ParseLog_checks_topic0 (e : Event) (log : Log) (id : bytes)
    (e' : Event) :
  Event_ID keccak256 e = (Ok id, e') ->
  let matches := exists rest, Topics log = id :: rest in
  (fst (Event_Match keccak256 e log) = Ok true <-> matches) /\
  (fst (Event_Match keccak256 e log) = Ok false <-> ~ matches) /\
  (matches ->
   Event_ParseLog keccak256 Type_ParseLog e log =
   (Type_ParseLog (e_Inputs e) log, e')) /\
  (~ matches ->
   fst (Event_ParseLog keccak256 Type_ParseLog e log) =
   Err ErrLogNoMatch) /\
  (forall flag,
     fst (Event_ParseLog keccak256 Type_ParseLog (with_Anonymous flag e)
            log) =
     fst (Event_ParseLog keccak256 Type_ParseLog e log)).
Proof.
  intros Hid matches.
  pose proof (Event_Match_topic0 e log id e' Hid) as HM.
  destruct (Event_ID_stable _ _ _ Hid) as (_ & _ & Hin).
  assert (Hdec : matches \/ ~ matches).
  { subst matches. destruct (Topics log) as [|topic0 rest].
    - right. intros [rest [=]].
    - destruct (decide (topic0 = id)) as [->|Hne]; [left; eauto|].
      right. intros [rest' [= ? ?]]. contradiction. }
  assert (Hyes : matches -> Event_Match keccak256 e log = (Ok true, e')).
  { intros [rest Hrest]. rewrite HM, Hrest.
    now rewrite bool_decide_eq_true_2. }
  assert (Hno : ~ matches -> fst (Event_Match keccak256 e log) = Ok false).
  { intros Hn. rewrite HM. destruct (Topics log) as [|topic0 rest] eqn:Ht.
    - reflexivity.
    - simpl. rewrite bool_decide_eq_false_2; [reflexivity|].
      intros ->. apply Hn. subst matches. eauto. }
  repeat split.
  - intros H. destruct Hdec as [Hy|Hn]; [exact Hy|].
    rewrite (Hno Hn) in H. discriminate.
  - intros Hy. now rewrite (Hyes Hy).
  - intros H Hy. rewrite (Hyes Hy) in H. discriminate.
  - exact Hno.
  - intros Hy. unfold Event_ParseLog. rewrite (Hyes Hy). simpl.
    now rewrite Hin.
  - intros Hn. unfold Event_ParseLog. specialize (Hno Hn).
    destruct (Event_Match keccak256 e log) as [r e1]. simpl in Hno.
    now subst r.
  - intros flag. unfold Event_ParseLog, Event_Match.
    destruct (len (Topics log) =? 0); [reflexivity|].
    destruct (Event_ID_flag e flag) as [H1 H2].
    destruct (Event_ID keccak256 (with_Anonymous flag e)) as [r1 e1].
    destruct (Event_ID keccak256 e) as [r2 e2]. simpl in H1, H2.
    subst r2. destruct r1 as [id1| |]; [|reflexivity..].
    destruct (Topics log) as [|topic0 rest]; [reflexivity|].
    destruct (decide (topic0 <> id1)); simpl; [reflexivity|].
    now rewrite H2.
Qed.
End Identifiers.

Lemma sample_digest_len data : length (sample_digest data) = 32%nat.
Proof.
  unfold sample_digest.
  rewrite length_take, length_app, length_replicate. lia.
Qed.

Lemma signature_and_selector_witness :
  Method_Sig transfer_method = Ok "transfer(address,uint256)" /\
  fst (Method_ID sample_digest transfer_method) =
  Ok (take 4 (sample_digest
                (String.list_byte_of_string "transfer(address,uint256)"))).
Proof.
  destruct (signature_and_selector sample_digest sample_digest_len
              "transfer"
              (arguments_tuple
                 [ mkArgument "to" (Some address_type) false;
                   mkArgument "value" (Some uint256_type) false ])
              [address_type; uint256_type]
              transfer_method anonymous_transfer) as [H _].
  destruct H as (_ & H & _); [repeat constructor|].
  destruct (H eq_refl eq_refl) as [Hsig Hid].
  split; [exact Hsig|]. apply Hid. now left.
Defined.

(** C6 (counterexample): [transfer(address,uint256)] after a call of [ID]
    and the assignment of the name [approve]: its signature is
    [approve(address,uint256)], and [ID] returns the first 4 bytes of the
    digest of [transfer(address,uint256)], which are not those of the
    digest of its signature under any Keccak-256 that tells the two
    apart. *)
Theorem renamed_method_identifier :
  (forall keccak256 : bytes -> bytes,
     (forall data, length (keccak256 data) = 32%nat) ->
     Method_Sig (Method_renamed "approve"
                   (snd (Method_ID keccak256 transfer_method))) =
     Ok "approve(address,uint256)" /\
     fst (Method_ID keccak256
            (Method_renamed "approve"
               (snd (Method_ID keccak256 transfer_method)))) =
     Ok (take 4 (keccak256 (String.list_byte_of_string
                              "transfer(address,uint256)")))) /\
  fst (Method_ID sample_digest
         (Method_renamed "approve"
            (snd (Method_ID sample_digest transfer_method)))) <>
  Ok (take 4 (sample_digest (String.list_byte_of_string
                               "approve(address,uint256)"))).
Proof.
  assert (H : forall keccak256 : bytes -> bytes,
            (forall data, length (keccak256 data) = 32%nat) ->
            Method_ID keccak256 transfer_method =
            (Ok (take 4 (keccak256 (String.list_byte_of_string
                                      "transfer(address,uint256)"))),
             {| m_Name := "transfer";
                m_Const := false;
                m_Inputs := m_Inputs transfer_method;
                m_Outputs := m_Outputs transfer_method;
                m_id := take 4 (keccak256 (String.list_byte_of_string
                                  "transfer(address,uint256)")) |})).
  { intros keccak256 Hlen. unfold Method_ID.
    change (len (m_id transfer_method) >? 0) with false. cbv iota.
    change (Method_Sig transfer_method)
      with (@Ok string "transfer(address,uint256)").
    cbv iota. rewrite slice_prefix by (unfold len; rewrite ?Hlen; lia).
    reflexivity. }
  split.
  - intros keccak256 Hlen. rewrite (H keccak256 Hlen). cbn [snd].
    split; [reflexivity|]. unfold Method_ID, Method_renamed. cbn [m_id].
    assert (Hset : (len (take 4 (keccak256 (String.list_byte_of_string
                                   "transfer(address,uint256)"))) >? 0)
                   = true).
    { unfold len. rewrite length_take, Hlen. reflexivity. }
    now rewrite Hset.
  - rewrite (H sample_digest sample_digest_len). vm_compute. discriminate.
Qed.

Lemma ParseLog_checks_topic0_witness :
  fst (Event_ParseLog sample_digest sample_ParseLog anonymous_transfer
         foreign_log) = Err ErrLogNoMatch.
Proof.
  destruct (ParseLog_checks_topic0 sample_digest sample_ParseLog
              anonymous_transfer foreign_log (e_id anonymous_transfer)
              anonymous_transfer eq_refl) as (_ & _ & _ & H & _).
  apply H. intros [rest Hrest]. discriminate Hrest.
Defined.

(** C3 (counterexample): an anonymous event whose identifier is cached,
    and a log whose first topic is another identifier: [ParseLog] returns
    the error of the topic check, which the specification has skipped;
    with the identifier as first topic the same event goes on to the
    inputs. *)
Lemma anonymous_event_topic0_checked :
  e_Anonymous anonymous_transfer = true /\
  (forall keccak256 Type_ParseLog,
     Event_ParseLog keccak256 Type_ParseLog anonymous_transfer foreign_log =
     (Err ErrLogNoMatch, anonymous_transfer)) /\
  (forall keccak256 Type_ParseLog,
     let log := {| Topics := [e_id anonymous_transfer]; Data := [] |} in
     Event_ParseLog keccak256 Type_ParseLog anonymous_transfer log =
     (Type_ParseLog (e_Inputs anonymous_transfer) log, anonymous_transfer)).
Proof. repeat split. Qed.

(** ** Where [Decode] returns *)

Lemma returns_within_le (n1 n2 : Z) r :
  n1 <= n2 -> returns_within n1 r -> returns_within n2 r.
Proof. destruct r as [[v tail]| |]; simpl; auto with lia. Qed.

Lemma readSlice_word_cases input :
  (32 <= len input /\ readSlice input 0 32 = Ok (take 32 input)) \/
  (exists e, readSlice input 0 32 = Err e).
Proof.
  destruct (Z.le_gt_cases 32 (len input)).
  - left. split; [assumption|]. now apply readSlice_word.
  - right. eexists. now apply readSlice_word_short.
Qed.

Lemma len_drop input (n : nat) :
  len (drop n input) <= len input.
Proof. unfold len. rewrite length_drop. lia. Qed.

(** The readers of one word return on every word. *)
Lemma decodeBool_returns word : len word = 32 -> decodeBool word <> Panic.
Proof.
  intros H. unfold decodeBool.
  destruct (index_in_bounds word 31) as (x & _ & ->); [lia|]. simpl.
  destruct (byteZ x) as [|[| |]|]; discriminate.
Qed.

Lemma readInteger_returns t word :
  has_type t = true -> len word = 32 -> readInteger t word <> Panic.
Proof.
  unfold has_type, readInteger. intros Ht H.
  destruct (t_t t) as [k|]; [|discriminate]. rewrite H.
  destruct (index_in_bounds word (32 - 1)) as (x & _ & Hx); [lia|].
  destruct k; rewrite ?Hx, ?slice_in_bounds by lia; simpl; try discriminate.
  destruct (decide _); [discriminate|]. destruct (_ >? _); discriminate.
Qed.

Lemma readAddr_returns word : len word = 32 -> readAddr word <> Panic.
Proof.
  intros H. unfold readAddr. rewrite H. simpl.
  rewrite slice_in_bounds by lia. discriminate.
Qed.

Lemma readFixedBytes_returns t word :
  has_type t = true -> 0 <= t_size t <= 32 -> len word = 32 ->
  readFixedBytes t word <> Panic.
Proof.
  unfold has_type, readFixedBytes. intros Ht Hs H.
  destruct (t_t t); [|discriminate].
  rewrite slice_in_bounds by lia. discriminate.
Qed.

Lemma readFunctionType_returns t word :
  len word = 32 -> readFunctionType t word <> Panic.
Proof.
  intros H. unfold readFunctionType.
  rewrite !slice_in_bounds by lia. simpl.
  destruct (allZeros _); simpl; discriminate.
Qed.

Lemma readLength_cases input :
  (exists e, readLength input = Err e) \/
  (exists n, readLength input = Ok n /\ 32 <= len input /\
             0 <= n <= len input).
Proof.
  unfold readLength.
  destruct (readSlice_word_cases input) as [[Hlen ->]|[e ->]];
    [|left; eauto]. simpl.
  pose proof (SetBytes_range (take 32 input)) as [H0 _].
  destruct (BitLen _ >? 63); [left; eauto|].
  destruct (Z.gtb_spec (SetBytes (take 32 input)) (len input));
    [left; eauto|].
  right. eexists. split; [reflexivity|]. lia.
Qed.

Lemma readSlice_payload input (n : Z) :
  32 <= len input -> 0 <= n <= len input -> len input < 2 ^ 58 ->
  readSlice input 32 n <> Panic.
Proof.
  intros H32 Hn Hb. unfold readSlice. simpl.
  destruct (Z.ltb_spec n 0); [lia|].
  destruct (Z.gtb_spec n 0).
  - rewrite wrap64_small by lia.
    destruct (Z.ltb_spec (len input) (32 + n)); [discriminate|].
    rewrite slice_in_bounds by lia. discriminate.
  - rewrite Z.ltb_irrefl, slice_in_bounds by lia. discriminate.
Qed.

Lemma decodeTuple_loop_returns (l : list (TupleElem AbiType)) :
  Forall (fun a => match Elem a with
                   | Some e =>
                       isDynamicType e = false /\
                       forall input, len input < 2 ^ 58 ->
                         returns_within (len input) (decode e input)
                   | None => False
                   end) l ->
  forall orig indx data res,
    len data < 2 ^ 58 ->
    returns_within (len data) (decodeTuple_loop decode orig l indx data res).
Proof.
  induction 1 as [|arg rest Harg _ IH]; intros orig indx data res Hd.
  - simpl. lia.
  - cbn [decodeTuple_loop]. destruct (Elem arg) as [et|]; [|contradiction].
    destruct Harg as [Hdyn Het]. rewrite Hdyn.
    cbn [negb mbind outcome_bind]. specialize (Het data Hd).
    destruct (decode et data) as [[val tail]| |]; simpl in *; auto.
    destruct (res !! _); simpl; auto.
    eapply returns_within_le; [|apply IH]; lia.
Qed.

Lemma decodeArraySlice_loop_returns et :
  (forall input, len input < 2 ^ 58 ->
                 returns_within (len input) (decode et input)) ->
  forall orig (n : nat) data res,
    len orig < 2 ^ 58 -> len data <= len orig ->
    (isDynamicType et = true -> 32 * Z.of_nat n <= len data) ->
    returns_within (len data)
      (decodeArraySlice_loop decode (Some et) orig n data res).
Proof.
  intros Het orig n. induction n as [|n IH]; intros data res Ho Hd Hn.
  - simpl. lia.
  - cbn [decodeArraySlice_loop]. cbv zeta.
    destruct (isDynamicType et) eqn:Hdyn; cbn [negb].
    + specialize (Hn eq_refl). rewrite readOffset_word by lia. cbv zeta.
      pose proof (SetBytes_range (take 32 data)) as [H0 _].
      destruct (2 ^ 63 <=? _); [exact I|].
      destruct (Z.gtb_spec (SetBytes (take 32 data)) (len orig)); [exact I|].
      cbn [mbind outcome_bind]. rewrite !slice_suffix by lia.
      cbn [mbind outcome_bind].
      pose proof (len_drop orig (Z.to_nat (SetBytes (take 32 data)))).
      specialize (Het (drop (Z.to_nat (SetBytes (take 32 data))) orig)
                      ltac:(lia)).
      destruct (decode et _) as [[val tail]| |]; simpl in Het |- *; auto.
      assert (Hl : len (drop (Z.to_nat 32) data) = len data - 32).
      { unfold len. rewrite length_drop. unfold len in Hn. lia. }
      eapply returns_within_le; [|apply IH]; try lia.
    + cbn [mbind outcome_bind]. specialize (Het data ltac:(lia)).
      destruct (decode et data) as [[val tail]| |]; simpl in Het |- *; auto.
      eapply returns_within_le; [|apply IH]; try lia.
Qed.

Lemma decodeArraySlice_returns t et data (size : Z) :
  has_type t = true -> t_elem t = Some et ->
  (forall input, len input < 2 ^ 58 ->
                 returns_within (len input) (decode et input)) ->
  len data < 2 ^ 58 -> size < 2 ^ 58 ->
  returns_within (len data) (decodeArraySlice decode t data size).
Proof.
  intros Ht Hel Het Hd Hs. unfold decodeArraySlice.
  destruct (Z.ltb_spec size 0); [exact I|].
  rewrite wrap64_small by lia.
  destruct (Z.gtb_spec (32 * size) (len data)); [exact I|].
  unfold has_type in Ht. destruct (t_t t); [|discriminate].
  rewrite Hel.
  assert (returns_within (len data)
            (decodeArraySlice_loop decode (Some et) data (Z.to_nat size)
               data [])).
  { apply decodeArraySlice_loop_returns; try assumption; lia. }
  now destruct (t_kind t).
Qed.

Lemma word_returns input (r : outcome Value) :
  r <> Panic ->
  returns_within (len input)
    (held r ≫= λ val : outcome Value,
       Ok (drop 32 input) ≫= λ data, val ≫= λ v : Value, Ok (v, data)).
Proof.
  intros Hr. destruct r; [| |contradiction]; simpl; [|exact I].
  apply len_drop.
Qed.

Lemma payload_returns input (wrap : bytes -> Value) :
  len input < 2 ^ 58 ->
  returns_within (len input)
    (readLength input ≫= λ length : Z,
       (readSlice input 32 length ≫= λ data, Ok (Ok (wrap data)))
       ≫= λ val : outcome Value,
         readSlice input 32 0 ≫= λ data, val ≫= λ v : Value, Ok (v, data)).
Proof.
  intros Hb.
  destruct (readLength_cases input) as [[e ->]|(n & -> & H32 & Hn)];
    [exact I|].
  cbn [mbind outcome_bind].
  pose proof (readSlice_payload input n H32 Hn Hb) as Hp.
  destruct (readSlice input 32 n); [| |contradiction]; simpl; [|exact I].
  rewrite readSlice_rest by lia. simpl. apply len_drop.
Qed.

Lemma decode_returns t :
  panic_free t = true ->
  forall input, len input < 2 ^ 58 ->
    returns_within (len input) (decode t input).
Proof.
  induction t as [k sz el IHel raw tu IHtu tt].
  intros Hpf input Hb. rewrite decode_eq.
  unfold decode_body, isVariableInput, decodeTuple.
  cbn [t_kind t_tuple t_size].
  cbn [panic_free t_kind t_tuple t_elem t_size] in Hpf.
  destruct k;
    try (destruct (readSlice_word_cases input) as [[Hlen ->]|[e ->]];
         [|exact I]; cbn [mbind outcome_bind];
         rewrite readSlice_rest by lia; apply word_returns).
  - apply decodeBool_returns, len_take_word, Hlen.
  - apply readInteger_returns; [exact Hpf|apply len_take_word, Hlen].
  - apply readInteger_returns; [exact Hpf|apply len_take_word, Hlen].
  - now apply payload_returns.
  - cbn [mbind outcome_bind].
    apply andb_true_iff in Hpf as [Hpf Hel].
    apply andb_true_iff in Hpf as [Ht Hsz]. apply Z.ltb_lt in Hsz.
    destruct IHel as [et IHet|]; [|discriminate].
    apply (decodeArraySlice_returns _ et); auto.
  - apply andb_true_iff in Hpf as [Ht Hel].
    destruct IHel as [et IHet|]; [|discriminate].
    destruct (readLength_cases input) as [[e ->]|(n & -> & H32 & Hn)];
      [exact I|].
    cbn [mbind outcome_bind]. rewrite readSlice_rest by lia.
    cbn [mbind outcome_bind]. pose proof (len_drop input 32).
    eapply returns_within_le;
      [|apply (decodeArraySlice_returns _ et); auto; lia]. lia.
  - apply readAddr_returns, len_take_word, Hlen.
  - now apply payload_returns.
  - apply andb_true_iff in Hpf as [Hpf Hhi].
    apply andb_true_iff in Hpf as [Ht Hlo].
    apply readFixedBytes_returns;
      [exact Ht|cbn [t_size]; lia|apply len_take_word, Hlen].
  - cbn [mbind outcome_bind]. destruct IHtu as [l IHl|]; [|simpl; lia].
    apply decodeTuple_loop_returns; [|exact Hb].
    induction IHl as [|arg Harg l IHl IH]; [constructor|].
    cbn [forallb] in Hpf. apply andb_true_iff in Hpf as [Ha Hl].
    constructor; [|now apply IH].
    destruct Harg as [name e He idx]. cbn [Elem] in *.
    destruct He as [et Het|]; [|discriminate].
    apply andb_true_iff in Ha as [Hdyn Hpf].
    split; [now apply negb_true_iff|auto].
  - apply readFunctionType_returns, len_take_word, Hlen.
  - exact I.
Qed.

(** X1: on a tree that the type parser builds and in which no tuple holds
    a dynamic element, [Decode] returns a value or an error on every input,
    truncated ones included; so a well-formed tree on which [Decode] panics
    holds a tuple with a dynamic element. *)
Theorem Decode_returns_without_dynamic_tuple (t : AbiType) (input : bytes) :
  panic_free t = true ->
  len input < 2 ^ 58 ->
  (exists val, Decode t input = Ok val) \/
  (exists e, Decode t input = Err e).
Proof.
  intros Hpf Hb. pose proof (decode_returns t Hpf input Hb) as H.
  unfold Decode. destruct (decode t input) as [[val tail]|e|]; simpl.
  - left. eauto.
  - right. eauto.
  - contradiction.
Qed.

(** [string[]], and its decoding from an input cut short. *)
Lemma Decode_returns_without_dynamic_tuple_witness :
  (exists val, Decode string_slice_type (word_of [x01]) = Ok val) \/
  (exists e, Decode string_slice_type (word_of [x01]) = Err e).
Proof.
  apply (Decode_returns_without_dynamic_tuple string_slice_type
           (word_of [x01])); [reflexivity|vm_compute; reflexivity].
Defined.

(** The last byte of a word, and all but the last byte of a buffer. *)
Lemma readSlice_designated_witness :
  readSlice (word_of [x2a]) (-1) 0 = Ok [x2a] /\
  readSlice [x01; x02; x03] 0 (-1) = Ok [x01; x02].
Proof.
  split.
  - refine (proj1 (readSlice_designated (word_of [x2a]) (-1) 0 _ _ _) _ _ _);
      vm_compute; intuition discriminate.
  - refine (proj1 (readSlice_designated [x01; x02; x03] 0 (-1) _ _ _) _ _ _);
      vm_compute; intuition discriminate.
Defined.

(** ** What [decode] leaves, and how many elements it reads *)

Lemma slice_Ok s lo hi r :
  slice s lo hi = Ok r ->
  0 <= lo /\ lo <= hi /\ hi <= len s /\
  r = take (Z.to_nat (hi - lo)) (drop (Z.to_nat lo) s).
Proof.
  unfold slice.
  destruct (Z.leb_spec 0 lo), (Z.leb_spec lo hi), (Z.leb_spec hi (len s));
    simpl; try discriminate.
  intros [= <-]. auto.
Qed.

Lemma slice_suffix_Ok s lo r :
  slice s lo (len s) = Ok r -> r = drop (Z.to_nat lo) s /\ 0 <= lo <= len s.
Proof.
  intros H. apply slice_Ok in H as (H1 & H2 & _ & ->).
  split; [|lia]. apply take_ge. rewrite length_drop. unfold len in *. lia.
Qed.

Lemma readSlice_rest_Ok input r :
  readSlice input 32 0 = Ok r -> r = drop 32 input /\ 32 <= len input.
Proof.
  unfold readSlice. simpl. rewrite Z.ltb_irrefl. intros H.
  apply slice_suffix_Ok in H as [-> H]. split; [reflexivity|lia].
Qed.

(** The induction hypotheses on the elements of a tuple, as a [Forall]. *)
Lemma tuple_all_Forall (P : AbiType -> Prop) (l : list (TupleElem AbiType)) :
  list_all (TupleElem AbiType) (TupleElem_all AbiType P) l ->
  Forall (fun a => match Elem a with
                   | Some e => P e
                   | None => True
                   end) l.
Proof.
  induction 1 as [|arg Harg l _ IH]; constructor; [|exact IH].
  destruct Harg as [name e He idx]. cbn [Elem].
  destruct He; [assumption|exact I].
Qed.

Lemma decodeTuple_loop_suffix (l : list (TupleElem AbiType)) :
  Forall (fun a => match Elem a with
                   | Some e => forall input v tail,
                       decode e input = Ok (v, tail) ->
                       tail `suffix_of` input
                   | None => True
                   end) l ->
  forall orig indx data res v tail,
    decodeTuple_loop decode orig l indx data res = Ok (v, tail) ->
    tail `suffix_of` data.
Proof.
  induction 1 as [|arg rest Harg _ IH]; intros orig indx data res v tail.
  - simpl. intros [= _ <-]. reflexivity.
  - cbn [decodeTuple_loop]. destruct (Elem arg) as [et|]; [|discriminate].
    intros H. apply bind_Ok in H as (entry & Hentry & H).
    apply bind_Ok in H as ([val tl] & Hdec & H).
    apply bind_Ok in H as (data' & Hdata & H).
    destruct (res !! _); [discriminate|]. apply IH in H.
    etrans; [exact H|]. destruct (isDynamicType et); simpl in Hdata.
    + apply slice_suffix_Ok in Hdata as [-> _]. apply suffix_drop.
    + injection Hdata as <-. injection Hentry as <-. eapply Harg, Hdec.
Qed.

Lemma decodeArraySlice_loop_suffix et :
  (forall input v tail, decode et input = Ok (v, tail) ->
                        tail `suffix_of` input) ->
  forall orig (n : nat) data res v tail,
    decodeArraySlice_loop decode (Some et) orig n data res = Ok (v, tail) ->
    tail `suffix_of` data.
Proof.
  intros Het orig n. induction n as [|n IH]; intros data res v tail.
  - simpl. intros [= _ <-]. reflexivity.
  - cbn [decodeArraySlice_loop]. cbv zeta.
    intros H. apply bind_Ok in H as (entry & Hentry & H).
    apply bind_Ok in H as ([val tl] & Hdec & H).
    apply bind_Ok in H as (data' & Hdata & H). apply IH in H.
    etrans; [exact H|]. destruct (isDynamicType et); simpl in Hdata.
    + apply slice_suffix_Ok in Hdata as [-> _]. apply suffix_drop.
    + injection Hdata as <-. injection Hentry as <-. eapply Het, Hdec.
Qed.

Lemma decodeArraySlice_suffix t data (size : Z) v tail :
  match t_elem t with
  | Some et => forall input v tail, decode et input = Ok (v, tail) ->
                                    tail `suffix_of` input
  | None => True
  end ->
  decodeArraySlice decode t data size = Ok (v, tail) ->
  tail `suffix_of` data.
Proof.
  intros Het. unfold decodeArraySlice.
  destruct (size <? 0); [discriminate|].
  destruct (_ >? _); [discriminate|].
  assert (H : decodeArraySlice_loop decode (t_elem t) data (Z.to_nat size)
                data [] = Ok (v, tail) -> tail `suffix_of` data).
  { destruct (t_elem t) as [et|].
    - now apply decodeArraySlice_loop_suffix.
    - destruct (Z.to_nat size); [|discriminate].
      intros [= _ <-]. reflexivity. }
  destruct (t_kind t), (t_t t); try discriminate; exact H.
Qed.

Lemma decode_suffix t :
  forall input v tail, decode t input = Ok (v, tail) -> tail `suffix_of` input.
Proof.
  induction t as [k sz el IHel raw tu IHtu tt].
  intros input v tail. rewrite decode_eq.
  unfold decode_body, isVariableInput, decodeTuple.
  cbn [t_kind t_tuple t_size]. intros H.
  apply bind_Ok in H as (length & Hlength & H).
  assert (Hword : forall val : outcome (outcome Value),
            (val ≫= λ val : outcome Value,
               readSlice input 32 0 ≫= λ data,
                 val ≫= λ v : Value, Ok (v, data)) = Ok (v, tail) ->
            tail `suffix_of` input).
  { intros val Hv. apply bind_Ok in Hv as (val' & _ & Hv).
    apply bind_Ok in Hv as (data & Hdata & Hv).
    apply bind_Ok in Hv as (v' & _ & [= _ <-]).
    apply readSlice_rest_Ok in Hdata as [-> _]. apply suffix_drop. }
  assert (Harr : forall data size,
            decodeArraySlice decode
              {| t_kind := k; t_size := sz; t_elem := el; t_raw := raw;
                 t_tuple := tu; t_t := tt |} data size = Ok (v, tail) ->
            tail `suffix_of` data).
  { intros data size. apply decodeArraySlice_suffix. cbn [t_elem].
    destruct IHel; [assumption|exact I]. }
  destruct k; try (exact (Hword _ H)).
  - now apply Harr in H.
  - apply bind_Ok in H as (data & Hdata & H). apply Harr in H.
    apply readSlice_rest_Ok in Hdata as [-> _].
    etrans; [exact H|apply suffix_drop].
  - destruct IHtu as [l IHl|]; [|injection H as _ <-; reflexivity].
    revert H. apply decodeTuple_loop_suffix.
    now apply (tuple_all_Forall _ l).
Qed.

Lemma decode_word_residual t input v tail :
  t_kind t <> KindTuple -> t_kind t <> KindArray -> t_kind t <> KindSlice ->
  decode t input = Ok (v, tail) ->
  tail = drop 32 input /\ 32 <= len input.
Proof.
  intros H1 H2 H3. rewrite decode_eq. unfold decode_body. intros H.
  apply bind_Ok in H as (length & _ & H).
  destruct (t_kind t); try contradiction;
    apply bind_Ok in H as (val & _ & H);
    apply bind_Ok in H as (data & Hdata & H);
    apply bind_Ok in H as (v' & _ & [= _ <-]);
    now apply readSlice_rest_Ok in Hdata.
Qed.

(** X3: what [decode] returns beside the value is a suffix of its input,
    and for every kind but Tuple, Array and Slice it is the input after its
    first 32 bytes, the payload of a String or of Bytes included. *)
Theorem decode_residual (t : AbiType) (input : bytes) (v : Value)
    (tail : bytes) :
  decode t input = Ok (v, tail) ->
  tail `suffix_of` input /\
  (t_kind t <> KindTuple -> t_kind t <> KindArray ->
   t_kind t <> KindSlice ->
   tail = drop 32 input /\ 32 <= len input).
Proof.
  intros H. split; [exact (decode_suffix t input v tail H)|].
  intros H1 H2 H3. exact (decode_word_residual t input v tail H1 H2 H3 H).
Qed.

Lemma decode_residual_witness :
  [x2a] `suffix_of` word_of [x01] ++ [x2a].
Proof.
  exact (proj1 (decode_residual bool_type (word_of [x01] ++ [x2a])
                  (VBool true) [x2a] eq_refl)).
Defined.

(** ** Arrays and slices *)

Lemma decodeArraySlice_loop_count (elem : option AbiType) orig (n : nat) :
  forall data res v tail,
    decodeArraySlice_loop decode elem orig n data res = Ok (v, tail) ->
    exists vals, v = VArray (res ++ vals) /\ length vals = n.
Proof.
  induction n as [|n IH]; intros data res v tail.
  - simpl. intros [= <- _]. exists []. now rewrite app_nil_r.
  - cbn [decodeArraySlice_loop]. destruct elem as [et|]; [|discriminate].
    cbv zeta. intros H. apply bind_Ok in H as (entry & _ & H).
    apply bind_Ok in H as ([val tl] & _ & H).
    apply bind_Ok in H as (data' & _ & H).
    apply IH in H as (vals & -> & <-). exists (val :: vals).
    split; [|reflexivity]. now rewrite <- app_assoc.
Qed.

Lemma decodeArraySlice_count t data (size : Z) v tail :
  decodeArraySlice decode t data size = Ok (v, tail) ->
  0 <= size /\ wrap64 (32 * size) <= len data /\
  exists vals, v = VArray vals /\ len vals = size.
Proof.
  unfold decodeArraySlice.
  destruct (Z.ltb_spec size 0) as [|Hsize]; [discriminate|].
  destruct (Z.gtb_spec (wrap64 (32 * size)) (len data)) as [|Hfit];
    [discriminate|].
  intros H.
  assert (H' : decodeArraySlice_loop decode (t_elem t) data (Z.to_nat size)
                 data [] = Ok (v, tail)).
  { destruct (t_kind t), (t_t t); try discriminate; exact H. }
  apply decodeArraySlice_loop_count in H' as (vals & -> & Hn).
  split; [lia|]. split; [lia|]. exists vals. split; [reflexivity|].
  unfold len. lia.
Qed.

(** X4: an Array decodes to exactly [size] elements and a Slice to exactly
    as many as its length prefix says, 32 bytes of input at least behind
    each: the prefix of a slice is checked against the input before a
    value is built. *)
Theorem decode_element_count (t : AbiType) (input : bytes) (v : Value) :
  len input < 2 ^ 58 -> t_size t < 2 ^ 58 ->
  Decode t input = Ok v ->
  (t_kind t = KindArray ->
   exists vals, v = VArray vals /\ len vals = t_size t /\
                32 * len vals <= len input) /\
  (t_kind t = KindSlice ->
   exists vals, v = VArray vals /\ 32 <= len input /\
                len vals = SetBytes (take 32 input) /\
                32 * len vals <= len input - 32).
Proof.
  intros Hb Hs. unfold Decode. intros H.
  apply bind_Ok in H as ([v' tail] & H & [= <-]).
  rewrite decode_eq in H. unfold decode_body, isVariableInput in H.
  split; intros Hk; rewrite Hk in H.
  - simpl in H.
    apply decodeArraySlice_count in H as (Hpos & Hle & vals & -> & Hn).
    rewrite wrap64_small in Hle by lia.
    exists vals. repeat split; [exact Hn|lia].
  - apply bind_Ok in H as (n & Hn & H).
    apply bind_Ok in H as (data & Hdata & H).
    apply readSlice_rest_Ok in Hdata as [-> H32].
    unfold readLength in Hn. rewrite readSlice_word in Hn by lia.
    simpl in Hn.
    destruct (BitLen _ >? 63); [discriminate|].
    destruct (Z.gtb_spec (SetBytes (take 32 input)) (len input))
      as [|Hfit]; [discriminate|]. injection Hn as <-.
    apply decodeArraySlice_count in H as (Hpos & Hle & vals & -> & Hn).
    rewrite wrap64_small in Hle by lia.
    assert (len (drop 32 input) = len input - 32).
    { unfold len in *. rewrite length_drop. lia. }
    exists vals. repeat split; [exact H32|exact Hn|lia].
Qed.

Lemma decode_element_count_witness :
  exists vals,
    VArray [VBigInt 1; VBigInt 2] = VArray vals /\
    32 <= len uint256_slice_12 /\
    len vals = SetBytes (take 32 uint256_slice_12) /\
    32 * len vals <= len uint256_slice_12 - 32.
Proof.
  exact (proj2 (decode_element_count uint256_slice_type uint256_slice_12
                  (VArray [VBigInt 1; VBigInt 2])
                  eq_refl eq_refl eq_refl) eq_refl).
Defined.

(** ** The result of a tuple *)

Lemma decodeTuple_loop_keys (l : list (TupleElem AbiType)) :
  forall orig indx data res v tail,
    decodeTuple_loop decode orig l indx data res = Ok (v, tail) ->
    exists m, v = VMap m /\
      NoDup (tuple_keys indx l) /\
      (forall k, k ∈ tuple_keys indx l -> res !! k = None) /\
      dom m = dom res ∪ list_to_set (tuple_keys indx l).
Proof.
  induction l as [|arg rest IH]; intros orig indx data res v tail.
  - simpl. intros [= <- _]. exists res. split; [reflexivity|].
    split; [constructor|]. split; [intros k Hk; inversion Hk|].
    simpl. now rewrite (right_id_L ∅ (∪)).
  - cbn [decodeTuple_loop tuple_keys]. fold (tuple_key indx arg).
    destruct (Elem arg) as [et|]; [|discriminate].
    intros H. apply bind_Ok in H as (entry & _ & H).
    apply bind_Ok in H as ([val tl] & _ & H).
    apply bind_Ok in H as (data' & _ & H).
    destruct (res !! tuple_key indx arg) eqn:Hfree; [discriminate|].
    apply IH in H as (m & -> & Hnd & Hfresh & Hdom).
    exists m. split; [reflexivity|].
    assert (Hnotin : tuple_key indx arg ∉ tuple_keys (indx + 1) rest).
    { intros Hin. apply Hfresh in Hin. now rewrite lookup_insert_eq in Hin. }
    split; [now constructor|]. split.
    + intros k Hk. apply elem_of_cons in Hk as [->|Hk]; [exact Hfree|].
      specialize (Hfresh k Hk).
      apply lookup_insert_None in Hfresh as [Hfresh _]. exact Hfresh.
    + rewrite Hdom, dom_insert_L. simpl.
      rewrite (comm_L (∪) {[tuple_key indx arg]} (dom res)).
      now rewrite (assoc_L (∪)).
Qed.

(** X5: a tuple that decodes gives a map with one entry for each of its
    elements, under the name of the element or, for an element without
    name, under its decimal position; these keys are pairwise distinct, a
    tuple in which two of them meet being refused. *)
Theorem decode_tuple_keys (t : AbiType) (input : bytes) (v : Value) :
  t_kind t = KindTuple ->
  Decode t input = Ok v ->
  exists m, v = VMap m /\
    NoDup (tuple_keys 0 (tuple_range t)) /\
    dom m = list_to_set (tuple_keys 0 (tuple_range t)) /\
    size m = length (tuple_range t).
Proof.
  intros Hk. unfold Decode. intros H.
  apply bind_Ok in H as ([v' tail] & H & [= <-]).
  rewrite decode_eq in H. unfold decode_body, isVariableInput in H.
  rewrite Hk in H. simpl in H. unfold decodeTuple, tuple_range in *.
  assert (Hlen : forall indx l, length (tuple_keys indx l) = length l).
  { intros indx l. revert indx. induction l as [|a l IH]; intros indx;
      simpl; [reflexivity|]. now rewrite IH. }
  destruct (t_tuple t) as [l|].
  - apply decodeTuple_loop_keys in H as (m & -> & Hnd & _ & Hdom).
    exists m. rewrite dom_empty_L, (left_id_L ∅ (∪)) in Hdom.
    repeat split; try assumption.
    rewrite <- size_dom, Hdom, size_list_to_set by exact Hnd. apply Hlen.
  - injection H as <-. exists ∅. split; [reflexivity|].
    split; [constructor|]. split; [apply dom_empty_L|reflexivity].
Qed.

Lemma decode_tuple_keys_witness :
  exists m, VMap {[ "a" := VString ["d"; "a"; "v"; "e"]%byte ]} = VMap m /\
    NoDup ["a"] /\ dom m = list_to_set ["a"] /\ size m = 1%nat.
Proof.
  exact (decode_tuple_keys tuple_string_type
           (word_of [x20] ++ word_of [x04] ++
            ["d"; "a"; "v"; "e"]%byte ++ replicate 28 x00)
           (VMap {[ "a" := VString ["d"; "a"; "v"; "e"]%byte ]})
           eq_refl Decode_tuple_string_dave).
Defined.

(** ** Unnamed tuples *)

Lemma bind_not_Err {A B} (x : outcome A) (f : A -> outcome B) (e : error) :
  x <> Err e -> (forall a, x = Ok a -> f a <> Err e) -> x ≫= f <> Err e.
Proof.
  intros H1 H2. destruct x as [a|e'|]; simpl;
    [now apply H2|intros [= ->]; now apply H1|discriminate].
Qed.

Lemma slice_not_Err s lo hi (e : error) : slice s lo hi <> Err e.
Proof. unfold slice. destruct (_ && _); discriminate. Qed.

Lemma readSlice_not_repeated input (start length : Z) :
  readSlice input start length <> Err ErrTupleRepeated.
Proof.
  unfold readSlice. cbv zeta. destruct (_ <? _); [discriminate|].
  apply slice_not_Err.
Qed.

Lemma readLength_not_repeated input :
  readLength input <> Err ErrTupleRepeated.
Proof.
  unfold readLength. apply bind_not_Err; [apply readSlice_not_repeated|].
  intros word _. cbv zeta. destruct (_ >? _); [discriminate|].
  destruct (_ >? _); discriminate.
Qed.

Lemma readOffset_not_repeated data (n : Z) :
  readOffset data n <> Err ErrTupleRepeated.
Proof.
  unfold readOffset. apply bind_not_Err; [apply slice_not_Err|].
  intros word _. cbv zeta. destruct (_ >? _); [discriminate|].
  destruct (_ >? _); discriminate.
Qed.

(** None of the readers of one word returns the error of [decodeTuple]. *)
Lemma reader_not_repeated t word :
  decodeBool word <> Err ErrTupleRepeated /\
  readInteger t word <> Err ErrTupleRepeated /\
  readAddr word <> Err ErrTupleRepeated /\
  readFixedBytes t word <> Err ErrTupleRepeated /\
  readFunctionType t word <> Err ErrTupleRepeated.
Proof.
  unfold decodeBool, readInteger, readAddr, readFixedBytes,
    readFunctionType, index.
  repeat split.
  - destruct (_ && _); [|discriminate]. destruct (_ !! _); [|discriminate].
    simpl. destruct (byteZ _) as [|[| |]|]; discriminate.
  - destruct (t_t t) as [[]|]; try discriminate;
      try (apply bind_not_Err; [apply slice_not_Err|discriminate]).
    + destruct (_ && _); [|discriminate]. now destruct (_ !! _).
    + destruct (_ && _); [|discriminate]. now destruct (_ !! _).
    + cbv zeta. destruct (decide _); [discriminate|].
      destruct (_ >? _); discriminate.
  - destruct (negb _); [discriminate|].
    apply bind_not_Err; [apply slice_not_Err|discriminate].
  - destruct (t_t t); [|discriminate].
    apply bind_not_Err; [apply slice_not_Err|discriminate].
  - apply bind_not_Err; [apply slice_not_Err|]. intros last8 _.
    destruct (negb _); [discriminate|].
    apply bind_not_Err; [apply slice_not_Err|discriminate].
Qed.

Lemma word_not_repeated input (read : bytes -> outcome Value) :
  (forall word, read word <> Err ErrTupleRepeated) ->
  (val ← (data ← readSlice input 0 32; held (read data));
   data ← readSlice input 32 0;
   v ← val; Ok (v, data)) <> Err ErrTupleRepeated.
Proof.
  intros Hread. apply bind_not_Err.
  - apply bind_not_Err; [apply readSlice_not_repeated|].
    intros data _. now destruct (read data).
  - intros val Hval. apply bind_Ok in Hval as (data & _ & Hval).
    apply bind_not_Err; [apply readSlice_not_repeated|]. intros rest _.
    specialize (Hread data). destruct (read data); try discriminate;
      injection Hval as <-; simpl; [discriminate|congruence].
Qed.

Lemma decodeTuple_loop_not_repeated (l : list (TupleElem AbiType)) :
  Forall (fun a => Name a = "" /\
                   match Elem a with
                   | Some e => forall input,
                       decode e input <> Err ErrTupleRepeated
                   | None => True
                   end) l ->
  forall orig indx data res,
    (forall k, is_Some (res !! k) -> exists j, j < indx /\ k = Itoa j) ->
    decodeTuple_loop decode orig l indx data res <> Err ErrTupleRepeated.
Proof.
  induction 1 as [|arg rest [Hname Harg] _ IH];
    intros orig indx data res Hres; [discriminate|].
  cbn [decodeTuple_loop]. destruct (Elem arg) as [et|]; [|discriminate].
  apply bind_not_Err.
  { destruct (isDynamicType et); [|discriminate].
    apply bind_not_Err; [apply readOffset_not_repeated|].
    intros; apply slice_not_Err. }
  intros entry _. apply bind_not_Err; [apply Harg|]. intros [val tl] _.
  apply bind_not_Err.
  { destruct (negb _); [discriminate|apply slice_not_Err]. }
  intros data' _. cbv zeta. rewrite decide_True by exact Hname.
  destruct (res !! Itoa indx) eqn:Hfree.
  - destruct (Hres (Itoa indx)) as (j & Hj & Heq); [eauto|].
    apply (inj pretty) in Heq. lia.
  - apply IH. intros k Hk.
    destruct (decide (k = Itoa indx)) as [->|Hne].
    + exists indx. split; [lia|reflexivity].
    + rewrite lookup_insert_ne in Hk by congruence.
      destruct (Hres k Hk) as (j & Hj & ->). exists j. split; [lia|reflexivity].
Qed.

Lemma decodeArraySlice_not_repeated t data (size : Z) :
  match t_elem t with
  | Some et => forall input, decode et input <> Err ErrTupleRepeated
  | None => True
  end ->
  decodeArraySlice decode t data size <> Err ErrTupleRepeated.
Proof.
  intros Het. unfold decodeArraySlice.
  destruct (_ <? _); [discriminate|]. destruct (_ >? _); [discriminate|].
  assert (H : forall n orig data res,
            decodeArraySlice_loop decode (t_elem t) orig n data res <>
            Err ErrTupleRepeated).
  { clear data. intros n.
    induction n as [|n IH]; intros orig data res; [discriminate|].
    cbn [decodeArraySlice_loop]. destruct (t_elem t) as [et|];
      [|discriminate]. cbv zeta. apply bind_not_Err.
    { destruct (isDynamicType et); [|discriminate].
      apply bind_not_Err; [apply readOffset_not_repeated|].
      intros; apply slice_not_Err. }
    intros entry _. apply bind_not_Err; [apply Het|]. intros [val tl] _.
    apply bind_not_Err.
    { destruct (negb _); [discriminate|apply slice_not_Err]. }
    intros data' _. apply IH. }
  destruct (t_kind t), (t_t t); try discriminate; apply H.
Qed.

Lemma unnamed_not_repeated t :
  unnamed t = true ->
  forall input, decode t input <> Err ErrTupleRepeated.
Proof.
  induction t as [k sz el IHel raw tu IHtu tt].
  intros Hun input. cbn [unnamed t_elem t_tuple] in Hun.
  apply andb_true_iff in Hun as [Hel Htu].
  rewrite decode_eq. unfold decode_body, isVariableInput, decodeTuple.
  cbn [t_kind t_tuple t_size].
  set (T := {| t_kind := k; t_size := sz; t_elem := el; t_raw := raw;
               t_tuple := tu; t_t := tt |}).
  pose proof (fun word => reader_not_repeated T word) as Hread.
  assert (Harr : forall data size,
            decodeArraySlice decode T data size <> Err ErrTupleRepeated).
  { intros data size. apply decodeArraySlice_not_repeated. cbn [t_elem T].
    destruct IHel as [et IHet|]; [auto|exact I]. }
  assert (Hpay : forall (wrap : bytes -> Value) (length : Z),
            (val ← (data ← readSlice input 32 length; Ok (Ok (wrap data)));
             data ← readSlice input 32 0;
             v ← val; Ok (v, data)) <> Err ErrTupleRepeated).
  { intros wrap length. apply bind_not_Err.
    - apply bind_not_Err; [apply readSlice_not_repeated|discriminate].
    - intros val Hval. apply bind_Ok in Hval as (data & _ & [= <-]).
      apply bind_not_Err; [apply readSlice_not_repeated|discriminate]. }
  apply bind_not_Err.
  { destruct k; try discriminate; apply readLength_not_repeated. }
  intros length _.
  destruct k; try (apply word_not_repeated; intros word; apply Hread);
    try apply Hpay; try apply Harr.
  - apply bind_not_Err; [apply readSlice_not_repeated|]. intros data _.
    apply Harr.
  - destruct IHtu as [l IHl|]; [|discriminate].
    apply decodeTuple_loop_not_repeated.
    + apply tuple_all_Forall in IHl.
      rewrite forallb_forall in Htu. rewrite Forall_forall in IHl |- *.
      intros a Ha. specialize (IHl a Ha).
      apply list_elem_of_In in Ha. specialize (Htu a Ha).
      apply andb_true_iff in Htu as [Hn Hu].
      apply bool_decide_eq_true in Hn. split; [exact Hn|].
      destruct (Elem a); [auto|exact I].
    + intros key [x Hx]. now rewrite lookup_empty in Hx.
  - discriminate.
Qed.

(** X6: decoding against a type without element names, and so against
    every clone, never ends in the error "tuple with repeated values":
    the decimal positions that stand in for the names are distinct. *)
Theorem Decode_clone_not_repeated (t : AbiType) (input : bytes) :
  Decode (cloneType t) input <> Err ErrTupleRepeated /\
  (unnamed t = true -> Decode t input <> Err ErrTupleRepeated).
Proof.
  assert (H : forall t', unnamed t' = true ->
                         Decode t' input <> Err ErrTupleRepeated).
  { intros t' Hun. unfold Decode. apply bind_not_Err.
    - now apply unnamed_not_repeated.
    - intros [v tail] _. discriminate. }
  split; [|apply H]. apply H. exact (proj1 (cloneType_unnamed t)).
Qed.

(** ** Strings, bytes and the byte-valued words *)

(** X7: a String or Bytes value is read behind a length prefix [n]: the
    prefix is refused from 2^63 on and when it exceeds the length of the
    whole input; the [n] bytes after the prefix are returned when they are
    there; and a prefix of 0 returns all that follows the prefix, not the
    empty string. *)
Theorem decode_payload (t : AbiType) (input : bytes) :
  t_kind t = KindString \/ t_kind t = KindBytes ->
  32 <= len input < 2 ^ 62 ->
  let n := SetBytes (take 32 input) in
  let wrap := if decide (t_kind t = KindString) then VString else VBytes in
  (2 ^ 63 <= n -> Decode t input = Err ErrLengthLargerThanInt64) /\
  (len input < n < 2 ^ 63 ->
   Decode t input = Err (ErrLengthInsufficient (len input) n)) /\
  (len input - 32 < n <= len input ->
   Decode t input = Err (ErrReadSlice (len input) 32 n)) /\
  (0 < n <= len input - 32 ->
   Decode t input = Ok (wrap (take (Z.to_nat n) (drop 32 input)))) /\
  (n = 0 -> Decode t input = Ok (wrap (drop 32 input))).
Proof.
  intros Hk Hlen n wrap.
  pose proof (SetBytes_range (take 32 input)) as [Hn _]. fold n in Hn.
  assert (HL : readLength input =
               if 2 ^ 63 <=? n then Err ErrLengthLargerThanInt64
               else if n >? len input
                    then Err (ErrLengthInsufficient (len input) n)
                    else Ok n).
  { unfold readLength. rewrite readSlice_word by lia. simpl.
    fold n. now rewrite BitLen_gt_63. }
  assert (HD : Decode t input =
               (length ← readLength input;
                data ← readSlice input 32 length;
                Ok (wrap data))).
  { unfold Decode. rewrite decode_eq. unfold decode_body, isVariableInput.
    subst wrap.
    destruct Hk as [Hk|Hk]; rewrite Hk; simpl;
      destruct (readLength input) as [length| |]; simpl; try reflexivity;
      destruct (readSlice input 32 length) as [data| |]; simpl;
      try reflexivity; now rewrite readSlice_rest by lia. }
  rewrite HD, HL. clear HD HL.
  assert (HS : forall m, 0 <= m <= len input ->
             readSlice input 32 m =
             if m =? 0 then Ok (drop 32 input)
             else if len input <? 32 + m
                  then Err (ErrReadSlice (len input) 32 m)
                  else Ok (take (Z.to_nat m) (drop 32 input))).
  { intros m Hm. unfold readSlice. simpl.
    destruct (Z.ltb_spec m 0); [lia|].
    destruct (Z.eqb_spec m 0) as [->|Hne].
    - simpl. rewrite Z.ltb_irrefl. now rewrite slice_suffix by lia.
    - destruct (Z.gtb_spec m 0); [|lia]. rewrite wrap64_small by lia.
      destruct (Z.ltb_spec (len input) (32 + m)); [reflexivity|].
      rewrite slice_in_bounds by lia. do 2 f_equal. lia. }
  repeat split.
  - intros H. now destruct (Z.leb_spec (2 ^ 63) n); [|lia].
  - intros H. destruct (Z.leb_spec (2 ^ 63) n); [lia|].
    now destruct (Z.gtb_spec n (len input)); [|lia].
  - intros H. destruct (Z.leb_spec (2 ^ 63) n); [lia|].
    destruct (Z.gtb_spec n (len input)); [lia|]. simpl.
    rewrite HS by lia. destruct (Z.eqb_spec n 0); [lia|].
    now destruct (Z.ltb_spec (len input) (32 + n)); [|lia].
  - intros H. destruct (Z.leb_spec (2 ^ 63) n); [lia|].
    destruct (Z.gtb_spec n (len input)); [lia|]. simpl.
    rewrite HS by lia. destruct (Z.eqb_spec n 0); [lia|].
    now destruct (Z.ltb_spec (len input) (32 + n)); [lia|].
  - intros H. destruct (Z.leb_spec (2 ^ 63) n); [lia|].
    destruct (Z.gtb_spec n (len input)); [lia|]. simpl.
    rewrite HS by lia. now destruct (Z.eqb_spec n 0); [|lia].
Qed.

(** The empty string, encoded before another value, decodes to the bytes
    of that value. *)
Lemma decode_payload_witness :
  Decode string_type (word_of [] ++ word_of [x07]) =
  Ok (VString (word_of [x07])).
Proof.
  refine (proj2 (proj2 (proj2 (proj2
    (decode_payload string_type (word_of [] ++ word_of [x07]) _ _)))) _);
    [left; reflexivity | vm_compute; intuition discriminate | reflexivity].
Defined.

(** X8: on an input of fewer than 32 bytes every kind that reads a word
    first (all but Tuple and Array) returns the error of [readSlice] that
    names the length of the input. *)
Theorem decode_truncated_word (t : AbiType) (input : bytes) :
  len input < 32 ->
  match t_kind t with
  | KindTuple | KindArray | KindOther _ => False
  | _ => True
  end ->
  Decode t input = Err (ErrReadSlice (len input) 0 32).
Proof.
  intros Hlen Hk. unfold Decode. rewrite decode_eq.
  unfold decode_body, isVariableInput, readLength.
  destruct (t_kind t); try contradiction; simpl;
    now rewrite readSlice_word_short by lia.
Qed.

Lemma decode_truncated_word_witness :
  Decode uint256_type (replicate 31 xff) = Err (ErrReadSlice 31 0 32).
Proof.
  exact (decode_truncated_word uint256_type (replicate 31 xff)
           eq_refl I).
Defined.

(** X9: an Address is the last 20 bytes of the word and a FixedBytes value
    its first [size] bytes, whatever the padding holds; a Function value
    is the first 24 bytes, and is refused unless the last 8 bytes are all
    zero. *)
Theorem decode_byte_words (t : AbiType) (input : bytes) :
  32 <= len input ->
  (t_kind t = KindAddress ->
   Decode t input = Ok (VAddress (take 20 (drop 12 input)))) /\
  (t_kind t = KindFixedBytes -> t_t t <> None -> 0 <= t_size t <= 32 ->
   Decode t input = Ok (VFixedBytes (take (Z.to_nat (t_size t)) input))) /\
  (t_kind t = KindFunction ->
   Decode t input =
   if allZeros (take 8 (drop 24 input)) then Ok (VFunction (take 24 input))
   else Err ErrFunctionType).
Proof.
  intros Hlen.
  assert (HD : forall read,
            decode t input = (v ← read (take 32 input);
                              Ok (v, drop 32 input)) ->
            Decode t input = (v ← read (take 32 input); Ok v)).
  { intros read H. unfold Decode. rewrite H.
    now destruct (read (take 32 input)). }
  pose proof (len_take_word input Hlen) as H32.
  repeat split.
  - intros Hk. rewrite (HD readAddr)
      by (apply decode_word; [exact Hlen|now rewrite Hk]).
    unfold readAddr. rewrite H32. simpl.
    pose proof (word_suffix input 20 ltac:(lia) Hlen) as Hs.
    change (32 - Z.of_nat 20) with 12 in Hs. now rewrite Hs.
  - intros Hk Ht Hs. rewrite (HD (readFixedBytes t))
      by (apply decode_word; [exact Hlen|now rewrite Hk]).
    unfold readFixedBytes. destruct (t_t t); [|contradiction].
    rewrite slice_prefix by lia. simpl. do 2 f_equal.
    rewrite take_take. f_equal. lia.
  - intros Hk. rewrite (HD (readFunctionType t))
      by (apply decode_word; [exact Hlen|now rewrite Hk]).
    unfold readFunctionType.
    pose proof (word_suffix input 8 ltac:(lia) Hlen) as Hs.
    change (32 - Z.of_nat 8) with 24 in Hs. rewrite Hs. simpl.
    destruct (allZeros _); simpl; [|reflexivity].
    rewrite slice_prefix by lia. simpl. do 2 f_equal.
    rewrite take_take. reflexivity.
Qed.

Lemma decode_byte_words_witness :
  Decode address_type (replicate 12 xff ++ replicate 20 x11) =
  Ok (VAddress (replicate 20 x11)).
Proof.
  exact (proj1 (decode_byte_words address_type
                  (replicate 12 xff ++ replicate 20 x11)
                  ltac:(vm_compute; discriminate)) eq_refl).
Defined.

(** ** Clones and renderings of methods and events *)

Lemma cloneType_raw t : t_raw (cloneType t) = t_raw t.
Proof. now destruct t. Qed.

Lemma buildSignature_Clone name (typ : option AbiType) :
  buildSignature name (Type_Clone typ) = buildSignature name typ.
Proof.
  destruct typ as [typ|]; [|reflexivity]. unfold buildSignature. simpl.
  f_equal. unfold tuple_range. destruct typ as [k sz el raw [l|] tt];
    simpl; [|reflexivity].
  induction l as [|a l IH]; [reflexivity|]. cbn [map mapM].
  rewrite IH. simpl. destruct (Elem a) as [e|]; [|reflexivity].
  now rewrite cloneType_raw.
Qed.

(** X10: the clone of a method, and of an event, has the signature of the
    original and [ID] returns the same identifier on both, the names that
    [Clone] drops being no part of the signature. *)
Theorem Clone_keeps_signature (keccak256 : bytes -> bytes) (m : Method)
    (e : Event) :
  (exists c, Method_Clone (Some m) = Some c /\
     Method_Sig c = Method_Sig m /\
     fst (Method_ID keccak256 c) = fst (Method_ID keccak256 m)) /\
  (exists c, Event_Clone (Some e) = Some c /\
     Event_Sig c = Event_Sig e /\
     fst (Event_ID keccak256 c) = fst (Event_ID keccak256 e)).
Proof.
  split; eexists; (split; [reflexivity|]).
  - assert (Hsig : forall c, m_Name c = m_Name m ->
                     m_Inputs c = Type_Clone (m_Inputs m) ->
                     Method_Sig c = Method_Sig m).
    { intros c Hn Hi. unfold Method_Sig.
      now rewrite Hn, Hi, buildSignature_Clone. }
    split; [now apply Hsig|]. unfold Method_ID. cbn [m_id].
    destruct (len (m_id m) >? 0); [reflexivity|].
    rewrite Hsig by reflexivity.
    destruct (Method_Sig m); [|reflexivity..]. now destruct (slice _ 0 4).
  - assert (Hsig : forall c, e_Name c = e_Name e ->
                     e_Inputs c = Type_Clone (e_Inputs e) ->
                     Event_Sig c = Event_Sig e).
    { intros c Hn Hi. unfold Event_Sig.
      now rewrite Hn, Hi, buildSignature_Clone. }
    split; [now apply Hsig|]. unfold Event_ID. cbn [e_id].
    destruct (BigEndian_Uint64 (e_id e)) as [u| |]; [|reflexivity..].
    destruct (u >? 0); [reflexivity|].
    rewrite Hsig by reflexivity. now destruct (Event_Sig e).
Qed.

Lemma mapM_ext_Forall {A B} (f g : A -> outcome B) (l : list A) :
  Forall (fun x => f x = g x) l -> mapM f l = mapM g l.
Proof.
  induction 1 as [|x l Hx _ IH]; [reflexivity|].
  cbn [mapM]. now rewrite Hx, IH.
Qed.

(** X11: for inputs whose elements are neither named nor indexed, the
    rendering of [MethodSig] is the signature itself, for an event and for
    a method without outputs. *)
Theorem MethodSig_plain (m : Method) (e : Event) :
  (forall typ, m_Inputs m = Some typ ->
     Forall (fun a => Name a = "" /\ Indexed a = false) (tuple_range typ) ->
     match m_Outputs m with
     | Some outputs => tuple_range outputs = []
     | None => True
     end ->
     Method_MethodSig m = Method_Sig m) /\
  (forall typ, e_Inputs e = Some typ ->
     Forall (fun a => Name a = "" /\ Indexed a = false) (tuple_range typ) ->
     Event_MethodSig e = Event_Sig e).
Proof.
  assert (H : forall name typ,
            Forall (fun a => Name a = "" /\ Indexed a = false)
              (tuple_range typ) ->
            buildFunctionSignature name (Some typ) =
            buildSignature name (Some typ)).
  { intros name typ Hplain. unfold buildFunctionSignature, buildSignature.
    f_equal. apply mapM_ext_Forall.
    eapply Forall_impl; [exact Hplain|]. intros a [Hn Hi]. simpl.
    rewrite Hn, Hi. now destruct (Elem a). }
  split.
  - intros typ Hin Hplain Hout. unfold Method_MethodSig, Method_Sig.
    rewrite Hin.
    assert (Hnone : match m_Outputs m with
                    | Some outputs =>
                        match t_tuple outputs with
                        | Some l => len l =? 0
                        | None => true
                        end
                    | None => true
                    end = true).
    { destruct (m_Outputs m) as [o|]; [|reflexivity].
      unfold tuple_range in Hout. destruct (t_tuple o); [|reflexivity].
      now subst. }
    rewrite Hnone. now apply H.
  - intros typ Hin Hplain. unfold Event_MethodSig, Event_Sig.
    rewrite Hin. now apply H.
Qed.

Lemma MethodSig_plain_witness :
  Method_MethodSig plain_transfer = Method_Sig plain_transfer /\
  Event_MethodSig anonymous_transfer = Event_Sig anonymous_transfer.
Proof.
  destruct (MethodSig_plain plain_transfer anonymous_transfer) as [Hm He].
  split.
  - apply (Hm _ eq_refl); [|exact I]. repeat constructor.
  - apply (He _ eq_refl). constructor.
Defined.

(** ** The document parser *)

(** X12: with fuel for its entries [UnmarshalJSON] returns a result or an
    error, or panics.  It returns a result exactly when every entry has a
    known type, no argument that an entry reads is nil, and at most one
    constructor is declared, the one the receiver already holds counted
    with them.  It panics only on a nil argument of one of the entries,
    and the error is that of the second constructor or of an unknown type
    among the entries. *)
Theorem UnmarshalJSON_accepts (fuel : nat) (a : ABI) (fields : list Field) :
  (length fields < fuel)%nat ->
  exists r, UnmarshalJSON fuel a fields = Some r /\
    ((exists a', r = Ok a') <->
     forallb known_field fields = true /\
     forallb nil_free fields = true /\
     (constructors_held a +
      length (List.filter is_constructor_field fields) <= 1)%nat) /\
    (r = Panic -> exists f, f ∈ fields /\ nil_free f = false) /\
    (forall e, r = Err e ->
       e = ErrMultipleConstructor \/
       exists f, f ∈ fields /\ known_field f = false /\
                 e = ErrUnknownFieldType (f_Type f)).
Proof.
  intros Hfuel. unfold UnmarshalJSON.
  apply (UnmarshalJSON_loop_result fuel fields
           {| Constructor := Constructor a; Methods := ∅; Events := ∅ |});
    simpl; rewrite map_size_empty; lia.
Qed.

(** A document that parses, and one with a nil argument, which panics. *)
Lemma UnmarshalJSON_accepts_witness :
  (exists a', UnmarshalJSON 5 send_abi send_fields = Some (Ok a')) /\
  UnmarshalJSON 5 send_abi nil_fields = Some Panic.
Proof.
  split.
  - destruct (UnmarshalJSON_accepts 5 send_abi send_fields
                ltac:(simpl; lia)) as (r & Hr & Hok & _).
    destruct (proj2 Hok) as [a' ->]; [|eauto].
    split; [reflexivity|]. split; [reflexivity|]. vm_compute. lia.
  - destruct (UnmarshalJSON_accepts 5 send_abi nil_fields
                ltac:(simpl; lia)) as (r & Hr & Hok & _ & Herr).
    rewrite Hr. f_equal. destruct r as [a'|e|]; [| |reflexivity].
    + destruct (proj1 Hok) as (_ & Hnil & _); [eauto|]. discriminate.
    + destruct (Herr e eq_refl) as [->|(f & Hf & Hk & _)].
      * vm_compute in Hr. discriminate.
      * apply list_elem_of_In in Hf. simpl in Hf.
        destruct Hf as [<-|[<-|[]]]; discriminate.
Defined.

Lemma buildSignature_arguments name (args : list argument) :
  Forall (fun arg => a_Type arg <> None) args ->
  buildSignature name (Some (arguments_tuple args)) =
  Ok (name +:+ "(" +:+ Join (arguments_raw args) "," +:+ ")").
Proof.
  intros H. unfold buildSignature, arguments_tuple, tuple_range. simpl.
  assert (Hm : mapM (fun arg : TupleElem AbiType =>
                       match Elem arg with
                       | Some e => Ok (t_raw e)
                       | None => Panic
                       end)
                 (map (fun i => {| Name := a_Name i; Elem := a_Type i;
                                   Indexed := a_Indexed i |}) args) =
               Ok (arguments_raw args)).
  { induction H as [|arg args Harg _ IH]; [reflexivity|].
    cbn [map mapM]. rewrite IH. simpl.
    destruct (a_Type arg); [reflexivity|contradiction]. }
  now rewrite Hm.
Qed.

(** The inputs that [Type] builds from the arguments of a typed entry. *)
Lemma typed_inputs (f : Field) typ :
  typed_field f -> arguments_Type (f_Inputs f) = Ok typ ->
  parsed_inputs (Some typ).
Proof.
  unfold typed_field. intros Hty H.
  apply arguments_Type_Ok in H as (_ & args & Heq & ->).
  exists args. split; [reflexivity|]. rewrite Heq in Hty.
  clear Heq. induction args as [|i args IH]; [constructor|].
  inversion Hty as [|x l Hi Hrest]; subst. constructor; auto.
Qed.

(** What the parser stores: methods and events with their cache unset. *)
Lemma UnmarshalJSON_field_fresh fuel a field a' :
  typed_field field ->
  (forall k m, Methods a !! k = Some m ->
               m_id m = [] /\ parsed_inputs (m_Inputs m)) ->
  (forall k ev, Events a !! k = Some ev ->
                e_id ev = replicate 32 x00 /\ parsed_inputs (e_Inputs ev)) ->
  UnmarshalJSON_field fuel a field = Some (Ok a') ->
  (forall k m, Methods a' !! k = Some m ->
               m_id m = [] /\ parsed_inputs (m_Inputs m)) /\
  (forall k ev, Events a' !! k = Some ev ->
                e_id ev = replicate 32 x00 /\ parsed_inputs (e_Inputs ev)).
Proof.
  intros Hfield Hm He H.
  apply UnmarshalJSON_field_inv in H as (_ & _ & _ & Hmeth & Hevs).
  split.
  - destruct (is_function_field field); [|now rewrite Hmeth].
    destruct Hmeth as (name & m & _ & _ & Hst & ->).
    intros k m' Hk.
    apply lookup_insert_Some in Hk as [[_ <-]|[_ Hk]]; [|eauto].
    destruct Hst as (_ & _ & (ins & Hins & ->) & _ & Hid).
    split; [exact Hid|]. eapply typed_inputs; eassumption.
  - destruct (is_event_field field); [|now rewrite Hevs].
    destruct Hevs as (name & ev & _ & _ & Hst & ->).
    intros k ev' Hk.
    apply lookup_insert_Some in Hk as [[_ <-]|[_ Hk]]; [|eauto].
    destruct Hst as (_ & _ & (ins & Hins & ->) & Hid).
    split; [exact Hid|]. eapply typed_inputs; eassumption.
Qed.

Lemma UnmarshalJSON_loop_fresh fuel fields a a' :
  Forall typed_field fields ->
  (forall k m, Methods a !! k = Some m ->
               m_id m = [] /\ parsed_inputs (m_Inputs m)) ->
  (forall k ev, Events a !! k = Some ev ->
                e_id ev = replicate 32 x00 /\ parsed_inputs (e_Inputs ev)) ->
  UnmarshalJSON_loop fuel a fields = Some (Ok a') ->
  (forall k m, Methods a' !! k = Some m ->
               m_id m = [] /\ parsed_inputs (m_Inputs m)) /\
  (forall k ev, Events a' !! k = Some ev ->
                e_id ev = replicate 32 x00 /\ parsed_inputs (e_Inputs ev)).
Proof.
  intros Htyped. revert a.
  induction Htyped as [|field rest Hfield _ IH]; intros a Hm He.
  - intros [= <-]. now split.
  - cbn [UnmarshalJSON_loop]. intros H.
    destruct (UnmarshalJSON_field fuel a field) as [r|] eqn:Hr;
      [|discriminate]. simpl in H.
    destruct r as [a1| |]; [|discriminate..].
    destruct (UnmarshalJSON_field_fresh fuel a field a1 Hfield Hm He Hr)
      as [Hm1 He1].
    now apply (IH a1).
Qed.

(** X13: for every method and every event that a document stores, built
    from arguments whose types are set, [Sig] succeeds and the first [ID]
    is the Keccak-256 digest of the signature, 4 bytes of it for a method
    and all 32 for an event: the parser leaves every cache unset. *)
Theorem UnmarshalJSON_identifiers (keccak256 : bytes -> bytes) (fuel : nat)
    (a a' : ABI) (fields : list Field) :
  (forall data, length (keccak256 data) = 32%nat) ->
  Forall typed_field fields ->
  UnmarshalJSON fuel a fields = Some (Ok a') ->
  (forall k m, Methods a' !! k = Some m ->
     exists sig, Method_Sig m = Ok sig /\
       fst (Method_ID keccak256 m) =
       Ok (take 4 (keccak256 (String.list_byte_of_string sig)))) /\
  (forall k ev, Events a' !! k = Some ev ->
     exists sig, Event_Sig ev = Ok sig /\
       fst (Event_ID keccak256 ev) =
       Ok (keccak256 (String.list_byte_of_string sig))).
Proof.
  intros Hlen Htyped H. unfold UnmarshalJSON in H.
  apply UnmarshalJSON_loop_fresh in H as [Hm He]; [|exact Htyped|..];
    try (simpl; intros k x Hk; now rewrite lookup_empty in Hk).
  split.
  - intros k m Hk. destruct (Hm k m Hk) as (Hid & args & Hin & Hargs).
    pose proof (buildSignature_arguments (m_Name m) args Hargs) as Hsig.
    rewrite <- Hin in Hsig. eexists. split; [exact Hsig|].
    apply Method_ID_value; auto.
  - intros k ev Hk. destruct (He k ev Hk) as (Hid & args & Hin & Hargs).
    pose proof (buildSignature_arguments (e_Name ev) args Hargs) as Hsig.
    rewrite <- Hin in Hsig. eexists. split; [exact Hsig|].
    apply Event_ID_value; auto.
    + rewrite Hid. apply length_replicate.
    + left. now rewrite Hid.
Qed.

Lemma UnmarshalJSON_identifiers_witness :
  exists a', UnmarshalJSON 5 send_abi typed_fields = Some (Ok a') /\
  (forall k m, Methods a' !! k = Some m ->
     exists sig, Method_Sig m = Ok sig /\
       fst (Method_ID sample_digest m) =
       Ok (take 4 (sample_digest (String.list_byte_of_string sig)))) /\
  (forall k ev, Events a' !! k = Some ev ->
     exists sig, Event_Sig ev = Ok sig /\
       fst (Event_ID sample_digest ev) =
       Ok (sample_digest (String.list_byte_of_string sig))).
Proof.
  destruct (UnmarshalJSON_loop_result 5 typed_fields
              {| Constructor := Constructor send_abi;
                 Methods := ∅; Events := ∅ |}
              ltac:(simpl; rewrite map_size_empty; lia)
              ltac:(simpl; rewrite map_size_empty; lia))
    as (r & Hr & Hok & _).
  destruct (proj2 Hok) as [a' ->].
  { split; [reflexivity|]. split; [reflexivity|]. vm_compute. lia. }
  exists a'. split; [exact Hr|].
  apply (UnmarshalJSON_identifiers sample_digest 5 send_abi a' typed_fields
           sample_digest_len); [|exact Hr].
  repeat constructor; discriminate.
Defined.

(** ** A name declared again and again *)

Lemma pretty_N_go_filled (x : N) (s : string) :
  s <> "" -> pretty_N_go x s <> "".
Proof.
  revert s. induction (N.lt_wf_0 x) as [x _ IH]. intros s Hs.
  destruct (decide (x = 0)%N) as [->|Hx].
  - now rewrite pretty_N_go_0.
  - rewrite pretty_N_go_step by lia. apply IH; [|discriminate].
    apply N.div_lt; lia.
Qed.

Lemma Itoa_filled (idx : Z) : Itoa idx <> "".
Proof.
  unfold Itoa. destruct idx as [|p|p]; [discriminate| |discriminate].
  change (pretty (N.pos p) <> ""). unfold pretty, pretty_N.
  destruct (decide (N.pos p = 0)%N) as [|_]; [discriminate|].
  rewrite pretty_N_go_step by lia. apply pretty_N_go_filled. discriminate.
Qed.

Lemma candidate_not_raw (rawName : string) (idx : Z) :
  rawName +:+ Itoa idx <> rawName.
Proof.
  intros H. apply (Itoa_filled idx).
  apply (inj (String.append rawName)). rewrite H. clear H.
  induction rawName as [|c r IH]; [reflexivity|].
  change (String c r = String c (r +:+ "")). now f_equal.
Qed.

Lemma overload_key_inj rawName (i1 i2 : nat) :
  overload_key rawName i1 = overload_key rawName i2 -> i1 = i2.
Proof.
  destruct i1 as [|j1], i2 as [|j2]; cbn [overload_key]; intros H.
  - reflexivity.
  - symmetry in H. now apply candidate_not_raw in H.
  - now apply candidate_not_raw in H.
  - apply (inj (String.append rawName)), (inj pretty) in H. lia.
Qed.

(** With the first [n] keys of [rawName] stored and no other, the next
    key is key [n]. *)
Lemma overloadedMethodName_next fuel abi rawName (n : nat) :
  (forall key, is_Some (Methods abi !! key) <->
               exists i, (i < n)%nat /\ key = overload_key rawName i) ->
  size (Methods abi) = n -> (n < fuel)%nat ->
  overloadedMethodName fuel abi rawName = Some (overload_key rawName n) /\
  Methods abi !! overload_key rawName n = None.
Proof.
  intros Hkeys Hsize Hfuel.
  assert (Hfree : Methods abi !! overload_key rawName n = None).
  { apply eq_None_not_Some. rewrite Hkeys. intros (i & Hi & Heq).
    apply overload_key_inj in Heq. lia. }
  split; [|exact Hfree].
  destruct (overloadedMethodName_first_free fuel abi rawName)
    as (name & -> & Hname); [lia|].
  f_equal. eapply overloaded_result_unique; [exact Hname|].
  split; [exact Hfree|]. destruct n as [|j]; cbn [overload_key] in *.
  - left. now split.
  - right. split.
    + apply Hkeys. exists 0%nat. split; [lia|reflexivity].
    + exists (Z.of_nat j). split; [lia|]. split; [reflexivity|].
      intros i Hi. apply Hkeys. exists (S (Z.to_nat i)).
      split; [lia|]. cbn [overload_key]. now rewrite Z2Nat.id by lia.
Qed.

Lemma declares_kind rawName (f : Field) :
  declares rawName f ->
  is_constructor_field f = false /\ is_event_field f = false /\
  known_field f = true.
Proof.
  intros [Hf _]. apply bool_decide_eq_true in Hf.
  unfold is_constructor_field, is_event_field.
  rewrite !bool_decide_eq_false_2
    by (destruct Hf as [-> | ->]; discriminate).
  split; [reflexivity|]. split; [reflexivity|].
  apply known_field_cases. tauto.
Qed.

Lemma UnmarshalJSON_loop_overloads fuel rawName fields :
  Forall (declares rawName) fields ->
  forall (n : nat) a,
  (forall key, is_Some (Methods a !! key) <->
               exists i, (i < n)%nat /\ key = overload_key rawName i) ->
  size (Methods a) = n -> (n + length fields <= fuel)%nat ->
  Events a = ∅ ->
  exists r, UnmarshalJSON_loop fuel a fields = Some r /\
    if forallb nil_free fields
    then exists a', r = Ok a' /\
      Events a' = Events a /\
      size (Methods a') = (n + length fields)%nat /\
      (forall (i : nat) f, fields !! i = Some f ->
         exists m, Methods a' !! overload_key rawName (n + i) = Some m /\
                   stored_for f m) /\
      (forall i, (i < n)%nat ->
         Methods a' !! overload_key rawName i =
         Methods a !! overload_key rawName i)
    else r = Panic.
Proof.
  induction 1 as [|f rest Hdecl _ IH]; intros n a Hkeys Hsize Hfuel Hev.
  - exists (Ok a). split; [reflexivity|]. exists a.
    split; [reflexivity|]. split; [reflexivity|].
    split; [simpl; lia|]. split; [|reflexivity].
    intros i f Hi. discriminate.
  - simpl in Hfuel. cbn [UnmarshalJSON_loop forallb].
    destruct (declares_kind _ _ Hdecl) as (Hc & Hevent & Hknown).
    destruct Hdecl as [Hf Hname].
    destruct (UnmarshalJSON_field_total fuel a f) as (r & Hr);
      [lia|rewrite Hev, map_size_empty; lia|].
    rewrite Hr. cbn [mbind option_bind].
    pose proof (UnmarshalJSON_field_inv _ _ _ _ Hr) as Hinv.
    destruct r as [a1|e|].
    + destruct Hinv as (_ & -> & _ & Hmeth & Hevs).
      rewrite Hf in Hmeth. rewrite Hevent in Hevs.
      destruct Hmeth as (name & m & Hn & _ & Hst & Hm1).
      destruct (overloadedMethodName_next fuel a (f_Name f) n)
        as [Hnext Hfree]; [now rewrite Hname|exact Hsize|lia|].
      rewrite Hnext in Hn. injection Hn as <-. rewrite Hname in *.
      destruct (IH (S n) a1) as (r & -> & Hrest).
      { intros key. rewrite Hm1, lookup_insert_is_Some', Hkeys. split.
        - intros [<-|(i & Hi & ->)]; [exists n|exists i]; split; auto; lia.
        - intros (i & Hi & ->). destruct (decide (i = n)) as [->|Hne].
          + now left.
          + right. exists i. split; [lia|reflexivity]. }
      { now rewrite Hm1, map_size_insert_None, Hsize. }
      { lia. }
      { now rewrite Hevs. }
      exists r. split; [reflexivity|]. cbn [andb].
      destruct (forallb nil_free rest); [|exact Hrest].
      destruct Hrest as (a' & -> & Hev' & Hsz & Hnew & Hold).
      exists a'. split; [reflexivity|]. split; [congruence|].
      split; [simpl; lia|]. split.
      * intros [|i] g Hg.
        -- injection Hg as <-. rewrite Nat.add_0_r, Hold by lia.
           rewrite Hm1, lookup_insert_eq. eauto.
        -- rewrite Nat.add_succ_r. apply (Hnew i g Hg).
      * intros i Hi. rewrite Hold by lia. rewrite Hm1.
        apply lookup_insert_ne. intros Heq.
        apply overload_key_inj in Heq. lia.
    + exfalso. destruct Hinv as [(Hc' & _)|(Hk & _)]; congruence.
    + destruct Hinv as [_ ->]. exists Panic. now split.
Qed.

(** X14: a document of function entries that all declare the same name,
    whatever its length (with fuel for it).  When none of their arguments
    is nil it is accepted and stores every entry: entry 0 under the name
    itself and entry [i + 1] under the name followed by [i], each with the
    declared name and the tuples of its own inputs and outputs; nothing
    else is stored.  When an argument is nil, it panics. *)
Theorem UnmarshalJSON_overloads fuel a rawName fields :
  Forall (declares rawName) fields -> (length fields <= fuel)%nat ->
  (forallb nil_free fields = true ->
   exists a', UnmarshalJSON fuel a fields = Some (Ok a') /\
     Events a' = ∅ /\
     size (Methods a') = length fields /\
     forall (i : nat) f, fields !! i = Some f ->
       exists m, Methods a' !! overload_key rawName i = Some m /\
                 stored_for f m) /\
  (forallb nil_free fields = false ->
   UnmarshalJSON fuel a fields = Some Panic).
Proof.
  intros Hall Hfuel. unfold UnmarshalJSON.
  destruct (UnmarshalJSON_loop_overloads fuel rawName fields Hall 0%nat
              {| Constructor := Constructor a; Methods := ∅; Events := ∅ |})
    as (r & Hr & Hres).
  - cbn [Methods]. intros key. rewrite lookup_empty. split.
    + intros [v Hv]. discriminate.
    + intros (i & Hi & _). lia.
  - cbn [Methods]. apply map_size_empty.
  - lia.
  - reflexivity.
  - rewrite Hr. split; intros Hnil; rewrite Hnil in Hres.
    + destruct Hres as (a' & -> & Hev & Hsz & Hnew & _).
      exists a'. split; [reflexivity|]. split; [exact Hev|].
      split; [exact Hsz|]. exact Hnew.
    + now rewrite Hres.
Qed.

(** Three declarations of [send]; and a second declaration of [f] with a
    nil input. *)
Lemma UnmarshalJSON_overloads_witness :
  (exists a', UnmarshalJSON 3 send_abi (take 3 send_fields) = Some (Ok a') /\
     Events a' = ∅ /\
     size (Methods a') = 3%nat /\
     forall (i : nat) f, take 3 send_fields !! i = Some f ->
       exists m, Methods a' !! overload_key "send" i = Some m /\
                 stored_for f m) /\
  UnmarshalJSON 3 send_abi
    [ mkField "function" "f" false false "" [] [];
      mkField "function" "f" false false "" [None] [] ] = Some Panic.
Proof.
  split.
  - apply (UnmarshalJSON_overloads 3 send_abi "send" (take 3 send_fields));
      [repeat constructor|simpl; lia|reflexivity].
  - apply (UnmarshalJSON_overloads 3 send_abi "f");
      [repeat constructor|simpl; lia|reflexivity].
Defined.

(** ** Events from a signature *)

Lemma length_append (s1 s2 : string) :
  String.length (s1 +:+ s2) = (String.length s1 + String.length s2)%nat.
Proof.
  induction s1 as [|c s1 IH]; [reflexivity|].
  change (S (String.length (s1 +:+ s2)) =
          S (String.length s1 + String.length s2)). now rewrite IH.
Qed.

Lemma append_cons c (s1 s2 : string) :
  String c s1 +:+ s2 = String c (s1 +:+ s2).
Proof. reflexivity. Qed.

Lemma append_assoc (s1 s2 s3 : string) :
  (s1 +:+ s2) +:+ s3 = s1 +:+ s2 +:+ s3.
Proof.
  induction s1 as [|c s1 IH]; [reflexivity|].
  rewrite !append_cons. now rewrite IH.
Qed.

Lemma substring_all (s : string) :
  String.substring 0 (String.length s) s = s.
Proof. induction s as [|c s IH]; [reflexivity|]. simpl. now rewrite IH. Qed.

Lemma substring_app_l (s1 s2 : string) :
  String.substring 0 (String.length s1) (s1 +:+ s2) = s1.
Proof.
  induction s1 as [|c s1 IH].
  - destruct s2; reflexivity.
  - rewrite append_cons. simpl. now rewrite IH.
Qed.

Lemma substring_app_r (s1 s2 : string) :
  String.substring (String.length s1) (String.length s2) (s1 +:+ s2) = s2.
Proof.
  induction s1 as [|c s1 IH].
  - apply substring_all.
  - rewrite append_cons. simpl. exact IH.
Qed.

Lemma substring_split (s : string) (n : nat) :
  (n <= String.length s)%nat ->
  String.substring 0 n s +:+ String.substring n (String.length s - n) s = s.
Proof.
  revert n. induction s as [|c s IH]; intros [|n] Hn; simpl in *;
    try reflexivity; try lia.
  - now rewrite substring_all.
  - rewrite append_cons. rewrite IH by lia. reflexivity.
Qed.

Lemma HasSuffix_append (s suffix : string) :
  HasSuffix s suffix = true <-> exists p, s = p +:+ suffix.
Proof.
  unfold HasSuffix. rewrite andb_true_iff, Nat.leb_le, String.eqb_eq. split.
  - intros [Hlen Heq].
    exists (String.substring 0 (String.length s - String.length suffix) s).
    pose proof (substring_split s
                  (String.length s - String.length suffix)
                  ltac:(lia)) as H.
    replace (String.length s -
             (String.length s - String.length suffix))%nat
      with (String.length suffix) in H by lia.
    rewrite Heq in H. now symmetry.
  - intros [p ->]. rewrite length_append. split; [lia|].
    replace (String.length p + String.length suffix -
             String.length suffix)%nat with (String.length p) by lia.
    apply substring_app_r.
Qed.

Lemma prefix_char c d (s : string) :
  String.prefix (String c EmptyString) (String d s) = bool_decide (c = d).
Proof.
  simpl. destruct (Ascii.ascii_dec c d) as [->|Hne].
  - rewrite bool_decide_eq_true_2 by reflexivity. now destruct s.
  - now rewrite bool_decide_eq_false_2.
Qed.

(** [Index] of one byte: where it is found. *)
Lemma Index_char c (f r : string) :
  has_char c f = false ->
  Index (f +:+ String c r) (String c EmptyString) =
  Z.of_nat (String.length f).
Proof.
  induction f as [|d f IH]; intros Hf.
  - change (Index (String c r) (String c EmptyString) = 0).
    cbn [Index]. rewrite prefix_char. now rewrite bool_decide_eq_true_2.
  - cbn [has_char] in Hf. apply orb_false_iff in Hf as [Hd Hf].
    rewrite append_cons. cbn [Index]. rewrite prefix_char, Hd.
    rewrite (IH Hf). cbv zeta.
    destruct (decide (Z.of_nat (String.length f) = -1)); [lia|].
    cbn [String.length]. lia.
Qed.

(** ... and that it is found nowhere else. *)
Lemma Index_split c (s : string) :
  Index s (String c EmptyString) <> -1 ->
  exists f r, s = f +:+ String c r /\ has_char c f = false.
Proof.
  induction s as [|d s IH]; [now intros H|].
  cbn [Index]. rewrite prefix_char. destruct (bool_decide (c = d)) eqn:Hd.
  - apply bool_decide_eq_true in Hd as <-. intros _.
    exists EmptyString, s. now split.
  - cbv zeta.
    destruct (decide (Index s (String c EmptyString) = -1)) as [|Hne];
      [now intros H|].
    intros _. destruct (IH Hne) as (f & r & -> & Hf).
    exists (String d f), r. split; [reflexivity|].
    cbn [has_char]. now rewrite Hd, Hf.
Qed.

Lemma Index_none c (s : string) :
  Index s (String c EmptyString) = -1 -> has_char c s = false.
Proof.
  induction s as [|d s IH]; [reflexivity|].
  cbn [Index has_char]. rewrite prefix_char.
  destruct (bool_decide (c = d)); [discriminate|]. cbv zeta.
  destruct (decide (Index s (String c EmptyString) = -1)) as [He|Hne].
  - intros _. now apply IH.
  - intros H. exfalso.
    assert (0 <= Index s (String c EmptyString) \/
            Index s (String c EmptyString) = -1) as [?|?]; [|lia|lia].
    clear. induction s as [|e s IH]; cbn [Index].
    + destruct (String.prefix _ _); [left; lia|now right].
    + destruct (String.prefix _ _); [left; lia|]. cbv zeta.
      destruct (decide _); [now right|left; lia].
Qed.

Lemma has_char_append c (s1 s2 : string) :
  has_char c (s1 +:+ s2) = has_char c s1 || has_char c s2.
Proof.
  induction s1 as [|d s1 IH]; [reflexivity|].
  rewrite append_cons. cbn [has_char]. rewrite IH. apply orb_assoc.
Qed.

(** A string with a last byte [d] that holds a byte [c] other than [d]. *)
Lemma last_after c d (f r p : string) :
  c <> d ->
  f +:+ String c r = p +:+ String d EmptyString ->
  exists args, r = args +:+ String d EmptyString.
Proof.
  intros Hcd. revert p. induction f as [|x f IH]; intros p H.
  - destruct p as [|y p].
    + injection H as H _. contradiction.
    + rewrite append_cons in H. injection H as _ H.
      exists p. exact H.
  - rewrite append_cons in H. destruct p as [|y p].
    + injection H as _ H. destruct f; discriminate.
    + rewrite append_cons in H. injection H as _ H. eapply IH, H.
Qed.

Lemma has_char_Index c (s : string) :
  has_char c s = false <-> Index s (String c EmptyString) = -1.
Proof.
  split; [|apply Index_none].
  induction s as [|d s IH]; [reflexivity|].
  cbn [Index has_char]. rewrite prefix_char. intros H.
  apply orb_false_iff in H as [-> H]. cbv zeta.
  now rewrite (IH H), decide_True.
Qed.

Lemma Index_first c (f r : string) :
  Index f (String c EmptyString) = -1 ->
  Index (f +:+ String c EmptyString +:+ r) (String c EmptyString) =
  Z.of_nat (String.length f).
Proof. intros H. apply Index_char, has_char_Index, H. Qed.

Lemma HasSuffix_last (p suffix : string) :
  HasSuffix (p +:+ suffix) suffix = true.
Proof. apply HasSuffix_append. now exists p. Qed.

(** The parts that [parseFunctionSignature] cuts [f(args)] into, [f] being
    what stands before the first opening parenthesis. *)
Lemma signature_parts (f args : string) :
  Index f "(" = -1 ->
  let name := f +:+ "(" +:+ args +:+ ")" in
  HasSuffix name ")" = true /\
  Index name "(" = Z.of_nat (String.length f) /\
  String.substring 0 (String.length f) name = f /\
  String.substring (String.length f)
                   (String.length name - String.length f) name =
  "(" +:+ args +:+ ")".
Proof.
  intros Hf name. subst name. split; [|split; [|split]].
  - rewrite <- (append_assoc "(" args ")"), <- append_assoc.
    apply HasSuffix_last.
  - apply (Index_first _ f (args +:+ ")") Hf).
  - apply substring_app_l.
  - rewrite length_append.
    replace (String.length f + String.length ("(" +:+ args +:+ ")") -
             String.length f)%nat
      with (String.length ("(" +:+ args +:+ ")")) by lia.
    apply substring_app_r.
Qed.

(** The strings of the form [f(args)]. *)
Lemma name_types_split (name : string) :
  (exists f args, name = f +:+ "(" +:+ args +:+ ")") <->
  HasSuffix name ")" = true /\ Index name "(" <> -1.
Proof.
  split.
  - intros (f & args & ->). split.
    + rewrite <- (append_assoc "(" args ")"), <- append_assoc.
      apply HasSuffix_last.
    + intros H. apply Index_none in H.
      rewrite has_char_append in H. apply orb_false_iff in H as [_ H].
      rewrite append_cons in H. cbn [has_char] in H.
      now rewrite bool_decide_eq_true_2 in H.
  - intros [Hs Hi]. apply Index_split in Hi as (f & r & -> & Hf).
    apply HasSuffix_append in Hs as [p Hp].
    apply last_after in Hp as [args ->]; [|discriminate].
    now exists f, args.
Qed.

(** X15: [parseFunctionSignature] splits [f(args)] at the first opening
    parenthesis: when [f] holds none, the name is [f], the empty name
    included, and the type is what [NewType] makes of [tuple(args)]; the
    error of [NewType] is passed on. *)
Theorem parseFunctionSignature_splits {E} (NewType : string -> E + AbiType)
    (f args : string) :
  Index f "(" = -1 ->
  parseFunctionSignature E NewType (f +:+ "(" +:+ args +:+ ")") =
  match NewType ("tuple(" +:+ args +:+ ")") with
  | inl e => inl (ErrNewType e)
  | inr typ => inr (f, typ)
  end.
Proof.
  intros Hf. destruct (signature_parts f args Hf) as (Hs & Hi & Hn & Ht).
  unfold parseFunctionSignature. rewrite Hs, Hi. cbn [negb]. cbv zeta.
  destruct (decide (Z.of_nat (String.length f) = -1)); [lia|].
  rewrite Nat2Z.id, Hn, Ht. reflexivity.
Qed.

Lemma parseFunctionSignature_splits_witness :
  Index "Transfer" "(" = -1 /\
  parseFunctionSignature unit sample_NewType "Transfer()" =
  inr ("Transfer", arguments_tuple []) /\
  parseFunctionSignature unit sample_NewType "()" =
  inr ("", arguments_tuple []) /\
  parseFunctionSignature unit sample_NewType "Transfer(uint256)" =
  inl (ErrNewType tt).
Proof.
  split; [reflexivity|]. split; [|split].
  - apply (parseFunctionSignature_splits sample_NewType "Transfer" "").
    reflexivity.
  - apply (parseFunctionSignature_splits sample_NewType "" "").
    reflexivity.
  - apply (parseFunctionSignature_splits sample_NewType "Transfer"
             "uint256").
    reflexivity.
Defined.

(** X16: [parseFunctionSignature] returns its own error, "expected
    'name(types)'", exactly on the strings that are not of the form
    [f(args)]: those without a final closing parenthesis or without an
    opening one.  [NewType] is not called on them. *)
Theorem parseFunctionSignature_rejects {E} (NewType : string -> E + AbiType)
    (name : string) :
  parseFunctionSignature E NewType name = inl ErrExpectedNameTypes <->
  ~ exists f args, name = f +:+ "(" +:+ args +:+ ")".
Proof.
  rewrite name_types_split. unfold parseFunctionSignature.
  destruct (HasSuffix name ")"); cbn [negb]; [|intuition discriminate].
  cbv zeta. destruct (decide (Index name "(" = -1)) as [Hi|Hi].
  - rewrite Hi. intuition.
  - destruct (NewType _); split; try discriminate; intros H; exfalso;
      apply H; now split.
Qed.

(** X17: [NewEvent] on the signature of an event whose name holds no
    opening parenthesis: the signature is [name(types)], and the new event
    has the name of the old one, the inputs that [NewType] makes of
    [tuple(types)], no anonymous flag and no cached identifier, whatever
    the old event held. *)
Theorem NewEvent_of_Sig {E} (NewType : string -> E + AbiType)
    (ev : Event) (sig : string) :
  Index (e_Name ev) "(" = -1 ->
  Event_Sig ev = Ok sig ->
  exists types,
    sig = e_Name ev +:+ "(" +:+ Join types "," +:+ ")" /\
    NewEvent E NewType sig =
    match NewType ("tuple(" +:+ Join types "," +:+ ")") with
    | inl e => inl (ErrNewType e)
    | inr typ => inr {| e_Name := e_Name ev;
                        e_Anonymous := false;
                        e_Inputs := Some typ;
                        e_id := replicate 32 x00 |}
    end.
Proof.
  intros Hname. unfold Event_Sig, buildSignature.
  destruct (e_Inputs ev) as [typ|]; [|discriminate].
  destruct (mapM _ _) as [types| |]; [|discriminate..].
  intros [= <-]. exists types. split; [reflexivity|].
  destruct (signature_parts (e_Name ev) (Join types ",") Hname)
    as (Hs & Hi & Hn & Ht).
  unfold NewEvent, parseFunctionSignature.
  rewrite Hs, Hi. cbn [negb]. cbv zeta.
  destruct (decide (Z.of_nat (String.length (e_Name ev)) = -1)); [lia|].
  rewrite Nat2Z.id, Hn, Ht.
  change ("tuple" +:+ "(" +:+ Join types "," +:+ ")")
    with ("tuple(" +:+ Join types "," +:+ ")").
  now destruct (NewType _).
Qed.

Lemma NewEvent_of_Sig_witness :
  exists types,
    "Transfer()" = "Transfer" +:+ "(" +:+ Join types "," +:+ ")" /\
    NewEvent unit sample_NewType "Transfer()" =
    match sample_NewType ("tuple(" +:+ Join types "," +:+ ")") with
    | inl e => inl (ErrNewType e)
    | inr typ => inr {| e_Name := "Transfer";
                        e_Anonymous := false;
                        e_Inputs := Some typ;
                        e_id := replicate 32 x00 |}
    end.
Proof.
  apply (NewEvent_of_Sig sample_NewType anonymous_transfer "Transfer()");
    reflexivity.
Defined.
